(** * View-transition router of [ViewTransitions.astro]

    A shallow embedding of the client script that turns a server-rendered
    multi-page site into an in-page router: the DOM it queries and rewrites,
    the history entries it writes, and the event loop on which its
    listeners, timers and promises run.

    Conventions of the embedding.
    - Numbers: a history index is an integer in the range where JavaScript
      number arithmetic is exact, modelled as [Z].  A scroll offset is only
      stored and copied by the script, never computed with; it is a [Z] too.
    - The DOM is a value tree.  A reference to a node of a tree is the path
      of child positions leading to it.
    - An attribute selector [[a="v"]] built by string interpolation is read
      as "attribute a equals v"; this is what the browser does for every v
      free of double quotes, backslashes and line breaks.
    - [scrollTo(0, y)] brings the offset to [y]: the document is taken to
      be tall enough, and the browser's own scroll restoration is left out.
    - Promises never reject: exceptions are outside the model. *)

From Stdlib Require Import List String Ascii ZArith Bool Arith Lia.
Import ListNotations.

Local Open Scope string_scope.
Local Open Scope list_scope.

(* ================================================================== *)
(** * The DOM *)
(* ================================================================== *)

Module Dom.

(** Element names are kept in lower case, as selectors compare them. *)
#[warnings="-register-all"]
Inductive Node : Type :=
| Elem (tag : string) (attrs : list (string * string)) (children : list Node)
| Text (data : string).

Definition Path := list nat.

Definition is_element (n : Node) : bool :=
  match n with Elem _ _ _ => true | Text _ => false end.

Definition children_of (n : Node) : list Node :=
  match n with Elem _ _ cs => cs | Text _ => [] end.

Definition attrs_of (n : Node) : list (string * string) :=
  match n with Elem _ a _ => a | Text _ => [] end.

Definition tag_of (n : Node) : string :=
  match n with Elem t _ _ => t | Text _ => "#text" end.

(** [el.getAttribute(name)]: [None] is JavaScript's [null]. *)
Fixpoint lookup_attr (name : string) (a : list (string * string)) : option string :=
  match a with
  | [] => None
  | (k, v) :: r => if String.eqb k name then Some v else lookup_attr name r
  end.

Definition getAttribute (name : string) (n : Node) : option string :=
  lookup_attr name (attrs_of n).

(** [el.setAttribute(name, value)]: overwrite in place, else add last. *)
Fixpoint set_attr (name value : string) (a : list (string * string))
  : list (string * string) :=
  match a with
  | [] => [(name, value)]
  | (k, v) :: r =>
      if String.eqb k name then (k, value) :: r else (k, v) :: set_attr name value r
  end.

(** [el.removeAttribute(name)]. *)
Definition remove_attr (name : string) (a : list (string * string))
  : list (string * string) :=
  filter (fun kv => negb (String.eqb (fst kv) name)) a.

(** A value spliced into a template literal: [null] prints as "null". *)
Definition interpolate (v : option string) : string :=
  match v with Some s => s | None => "null" end.

(** ** Selectors

    The script only uses groups of compound selectors made of a type
    selector, attribute presence and attribute equality. *)
Inductive Simple : Type :=
| STag (t : string)
| SAttrEq (a v : string)
| SHasAttr (a : string).

Definition Compound := list Simple.
Definition Selector := list Compound.

Definition matches_simple (n : Node) (s : Simple) : bool :=
  match n with
  | Text _ => false
  | Elem t a _ =>
      match s with
      | STag t' => String.eqb t t'
      | SAttrEq k v =>
          match lookup_attr k a with
          | Some v' => String.eqb v' v
          | None => false
          end
      | SHasAttr k =>
          match lookup_attr k a with Some _ => true | None => false end
      end
  end.

(** [el.matches(sel)] *)
Definition matches (sel : Selector) (n : Node) : bool :=
  is_element n && existsb (fun c => forallb (matches_simple n) c) sel.

(** ** Traversal in tree order *)

(** The node and its descendants, elements only, in tree order. *)
Fixpoint subtree (n : Node) : list Node :=
  match n with
  | Text _ => []
  | Elem _ _ cs => n :: flat_map subtree cs
  end.

Definition descendants (n : Node) : list Node :=
  flat_map subtree (children_of n).

(** [el.querySelectorAll(sel)] *)
Definition querySelectorAll (sel : Selector) (n : Node) : list Node :=
  filter (matches sel) (descendants n).

(** First node of the forest [l] in tree order that satisfies [p], as a
    path; [i] is the position of the head of [l] among its siblings and
    [inside] searches below a node. *)
Section FindFirst.
Variable inside : Node -> option Path.
Variable p : Node -> bool.

Fixpoint find_first (i : nat) (l : list Node) : option Path :=
  match l with
  | [] => None
  | c :: r =>
      if p c then Some [i]
      else match inside c with
           | Some q => Some (i :: q)
           | None => find_first (S i) r
           end
  end.
End FindFirst.

(** First proper descendant of [n] in tree order that satisfies [p]. *)
Fixpoint find_in (p : Node -> bool) (n : Node) : option Path :=
  match n with
  | Text _ => None
  | Elem _ _ cs => find_first (find_in p) p 0 cs
  end.

Fixpoint node_at (q : Path) (n : Node) : option Node :=
  match q with
  | [] => Some n
  | i :: q' =>
      match nth_error (children_of n) i with
      | Some c => node_at q' c
      | None => None
      end
  end.

(** [el.querySelector(sel)]: a reference to the first match among the
    descendants of [n]. *)
Definition querySelector (sel : Selector) (n : Node) : option Path :=
  find_in (matches sel) n.

(** ** Updates by reference *)

Fixpoint remove_nth {A} (i : nat) (l : list A) : list A :=
  match l, i with
  | [], _ => []
  | _ :: r, O => r
  | x :: r, S j => x :: remove_nth j r
  end.

Fixpoint update_nth {A} (i : nat) (f : A -> A) (l : list A) : list A :=
  match l, i with
  | [], _ => []
  | x :: r, O => f x :: r
  | x :: r, S j => x :: update_nth j f r
  end.

Definition with_children (f : list Node -> list Node) (n : Node) : Node :=
  match n with
  | Elem t a cs => Elem t a (f cs)
  | Text _ => n
  end.

(** [x.remove()] for the node [x] that [q] refers to below [n]. *)
Fixpoint remove_at (q : Path) (n : Node) : Node :=
  match q with
  | [] => n
  | [i] => with_children (remove_nth i) n
  | i :: q' => with_children (update_nth i (remove_at q')) n
  end.

(** [x.replaceWith(y)] for the node [x] that [q] refers to below [n]. *)
Fixpoint replace_at (q : Path) (y : Node) (n : Node) : Node :=
  match q with
  | [] => y
  | i :: q' => with_children (update_nth i (replace_at q' y)) n
  end.

(** [parent.append(...nodes)] *)
Definition append_children (ns : list Node) (n : Node) : Node :=
  with_children (fun cs => cs ++ ns) n.

(** [el.children]: the element children. *)
Definition element_children (n : Node) : list Node :=
  filter is_element (children_of n).

(** ** Documents *)

(** A parsed HTML document: the root element's attributes, its [head] and
    its [body]. *)
Record Document : Type := mkDocument {
  html_attrs : list (string * string);
  head : Node;
  body : Node
}.

Definition documentElement (d : Document) : Node :=
  Elem "html" (html_attrs d) [head d; body d].

(** References into a document start at the root element: [0 :: q] is
    inside the head, [1 :: q] inside the body. *)
Definition doc_querySelector (sel : Selector) (d : Document) : option Path :=
  if matches sel (documentElement d) then Some []
  else querySelector sel (documentElement d).

Definition doc_querySelectorAll (sel : Selector) (d : Document) : list Node :=
  filter (matches sel) (subtree (documentElement d)).

Definition exists_in_doc (sel : Selector) (d : Document) : bool :=
  match doc_querySelector sel d with Some _ => true | None => false end.

Definition doc_node_at (q : Path) (d : Document) : option Node :=
  node_at q (documentElement d).

Definition set_head (h : Node) (d : Document) : Document :=
  mkDocument (html_attrs d) h (body d).

Definition set_body (b : Node) (d : Document) : Document :=
  mkDocument (html_attrs d) (head d) b.

Definition set_html_attrs (a : list (string * string)) (d : Document) : Document :=
  mkDocument a (head d) (body d).

(** [x.replaceWith(y)] for a reference into the document: into the head
    or into the body.  The root element itself is left in place. *)
Definition doc_replace_at (q : Path) (y : Node) (d : Document) : Document :=
  match q with
  | [] => d
  | 0%nat :: q' => set_head (replace_at q' y (head d)) d
  | 1%nat :: q' => set_body (replace_at q' y (body d)) d
  | _ => d
  end.

(** [document.scripts] *)
Definition scripts (d : Document) : list Node :=
  doc_querySelectorAll [[STag "script"]] d.

End Dom.

(* ================================================================== *)
(** * The page: history, location, scroll and the script's variables *)
(* ================================================================== *)

Module Page.
Import Dom.

(** [type State = { index: number; scrollY: number }] *)
Record State : Type := mkState { index : Z; scrollY : Z }.

Inductive Direction : Type := forward | back.

Definition direction_name (d : Direction) : string :=
  match d with forward => "forward" | back => "back" end.

(** A URL with the parts the script reads from anchors and [location]. *)
Record Url : Type := mkUrl {
  href : string;
  origin : string;
  pathname : string;
  hash : string
}.

(** An [HTMLAnchorElement]: its resolved URL and its [target]. *)
Record Anchor : Type := mkAnchor { a_url : Url; a_target : string }.

(** Session history as a zipper around the current entry. *)
Record Entry : Type := mkEntry { e_state : option State; e_url : Url }.

Record History : Type := mkHistory {
  past : list Entry;
  current : Entry;
  future : list Entry
}.

(** [navigator.connection] *)
Record Connection : Type := mkConnection {
  saveData : bool;
  effectiveType : option string
}.

(** What the script asks of the browser, oldest first. *)
Inductive Effect : Type :=
| EReplaceState (s : State)
| EPushState (s : State) (u : string)
| EFetch (u : string)
| ELocationAssign (u : string)
| EReload
| EPreventDefault
| EDispatch (name : string)
| EScrollTo (y : Z)
| EBodyReplaced
| EScriptInserted (script : Node).

Record Page : Type := mkPage {
  document : Document;
  history : History;
  win_scrollY : Z;
  (** the platform offers [document.startViewTransition] *)
  has_startViewTransition : bool;
  connection : option Connection;
  (** [let currentHistoryIndex] *)
  currentHistoryIndex : Z;
  (** [const supportsViewTransitions] *)
  supportsViewTransitions : bool;
  calls : list Effect
}.

Definition set_document (d : Document) (p : Page) : Page :=
  mkPage d (history p) (win_scrollY p) (has_startViewTransition p) (connection p)
    (currentHistoryIndex p) (supportsViewTransitions p) (calls p).

Definition set_history (h : History) (p : Page) : Page :=
  mkPage (document p) h (win_scrollY p) (has_startViewTransition p) (connection p)
    (currentHistoryIndex p) (supportsViewTransitions p) (calls p).

Definition set_win_scrollY (y : Z) (p : Page) : Page :=
  mkPage (document p) (history p) y (has_startViewTransition p) (connection p)
    (currentHistoryIndex p) (supportsViewTransitions p) (calls p).

Definition set_currentHistoryIndex (i : Z) (p : Page) : Page :=
  mkPage (document p) (history p) (win_scrollY p) (has_startViewTransition p)
    (connection p) i (supportsViewTransitions p) (calls p).

Definition set_supportsViewTransitions (b : bool) (p : Page) : Page :=
  mkPage (document p) (history p) (win_scrollY p) (has_startViewTransition p)
    (connection p) (currentHistoryIndex p) b (calls p).

Definition record (e : Effect) (p : Page) : Page :=
  mkPage (document p) (history p) (win_scrollY p) (has_startViewTransition p)
    (connection p) (currentHistoryIndex p) (supportsViewTransitions p)
    (calls p ++ [e]).

(** [history.state] and [location] *)
Definition history_state (p : Page) : option State := e_state (current (history p)).
Definition location (p : Page) : Url := e_url (current (history p)).

(** [history.replaceState(state, '')]: same entry, same URL. *)
Definition replaceState (s : State) (p : Page) : Page :=
  let h := history p in
  record (EReplaceState s)
    (set_history (mkHistory (past h) (mkEntry (Some s) (e_url (current h))) (future h)) p).

(** [history.pushState(state, '', url)]: a new entry after the current
    one; the entries ahead are dropped. *)
Definition pushState (s : State) (u : Url) (p : Page) : Page :=
  let h := history p in
  record (EPushState s (href u))
    (set_history (mkHistory (current h :: past h) (mkEntry (Some s) u) []) p).

(** [scrollTo(0, y)] *)
Definition scrollTo (y : Z) (p : Page) : Page :=
  record (EScrollTo y) (set_win_scrollY y p).

(** [document.dispatchEvent(new Event(name))] *)
Definition dispatchEvent (name : string) (p : Page) : Page :=
  record (EDispatch name) p.

End Page.

(* ================================================================== *)
(** * The event loop *)
(* ================================================================== *)

Module Loop.
Import Dom Page.

(** Values held by the variables that closures share. *)
Inductive JsVal : Type :=
| VUndefined
| VBool (b : bool)
| VNum (n : nat).

Definition truthy (v : JsVal) : bool :=
  match v with VBool b => b | VNum n => negb (Nat.eqb n 0) | VUndefined => false end.

(** Where an event is aimed at in the anchor-related listeners:
    the target is an HTML anchor, or has one as closest [a] ancestor,
    or neither. *)
Inductive EvTarget : Type :=
| OnAnchor (a : Anchor)
| InsideAnchor (a : Anchor)
| NoAnchor.

Record Event : Type := mkEvent {
  target : EvTarget;
  button : Z;
  metaKey : bool;
  ctrlKey : bool;
  altKey : bool;
  shiftKey : bool;
  defaultPrevented : bool;
  (** [ev.state] of a popstate event *)
  ev_state : option State
}.

Inductive Target : Type := TWindow | TDocument.

(** [{ ok: res.ok, html }] *)
Record Response : Type := mkResponse { ok : bool; html : string }.

(** Script code: a tree of browser requests.  Each request carries the
    code that runs after it.  Fresh identities (promises, variables,
    timers, functions, created elements) are natural numbers. *)
Inductive Prog : Type :=
| Done
(** read the page / change the page, synchronously *)
| Get (k : Page -> Prog)
| Modify (f : Page -> Page) (k : Prog)
(** call [p]; when it returns or suspends, go on with [k] *)
| Call (p : Prog) (k : Prog)
(** [new Promise], its [resolve], and [await] (of all of [ps]) *)
| NewPromise (k : nat -> Prog)
| Resolve (q : nat) (k : Prog)
| Await (ps : list nat) (k : Prog)
(** a [let] variable captured by closures *)
| NewVar (v : JsVal) (k : nat -> Prog)
| ReadVar (c : nat) (k : JsVal -> Prog)
| WriteVar (c : nat) (v : JsVal) (k : Prog)
(** [await fetch(href)] followed by [await res.text()] *)
| Fetch (u : string) (k : Response -> Prog)
| SetTimeout (cb : Prog) (delay : nat) (k : nat -> Prog)
| ClearTimeout (t : JsVal) (k : Prog)
(** a function value, as far as listener removal can tell it apart *)
| NewFunction (k : nat -> Prog)
| AddEventListener (t : Target) (name : string) (once : bool) (f : nat)
    (cb : Event -> Prog) (k : Prog)
| RemoveEventListener (t : Target) (name : string) (f : nat) (k : Prog)
(** [document.createElement], and handlers on the created element that
    resolve promise [q] *)
| CreateElement (k : nat -> Prog)
| OnElementEvent (el : nat) (names : list string) (q : nat) (k : Prog)
(** [document.startViewTransition(update).finished]; [update] is given
    the promise it returns *)
| StartViewTransition (update : nat -> Prog) (k : nat -> Prog).

Record Listener : Type := mkListener {
  l_target : Target;
  l_name : string;
  l_once : bool;
  l_fun : nat;
  l_cb : Event -> Prog
}.

Record Timer : Type := mkTimer { t_id : nat; t_due : nat; t_cb : Prog }.

(** A view transition under way: its update callback until it has been
    called, the promise the callback returned, and [finished]. *)
Record Transition : Type := mkTransition {
  vt_update : option (nat -> Prog);
  vt_updated : nat;
  vt_finished : nat
}.

Record World : Type := mkWorld {
  page : Page;
  (** milliseconds *)
  now : nat;
  fresh : nat;
  vars : list (nat * JsVal);
  settled : list nat;
  (** suspended code and the promises it still waits for *)
  waiting : list (list nat * Prog);
  microtasks : list Prog;
  timers : list Timer;
  listeners : list Listener;
  element_hooks : list (nat * string * nat);
  fetches : list (nat * (Response -> Prog));
  transitions : list Transition
}.

Definition set_page (p : Page) (w : World) : World :=
  mkWorld p (now w) (fresh w) (vars w) (settled w) (waiting w) (microtasks w)
    (timers w) (listeners w) (element_hooks w) (fetches w) (transitions w).
Definition set_now (n : nat) (w : World) : World :=
  mkWorld (page w) n (fresh w) (vars w) (settled w) (waiting w) (microtasks w)
    (timers w) (listeners w) (element_hooks w) (fetches w) (transitions w).
Definition next_fresh (w : World) : World :=
  mkWorld (page w) (now w) (S (fresh w)) (vars w) (settled w) (waiting w)
    (microtasks w) (timers w) (listeners w) (element_hooks w) (fetches w)
    (transitions w).
Definition set_vars (v : list (nat * JsVal)) (w : World) : World :=
  mkWorld (page w) (now w) (fresh w) v (settled w) (waiting w) (microtasks w)
    (timers w) (listeners w) (element_hooks w) (fetches w) (transitions w).
Definition set_settled (s : list nat) (w : World) : World :=
  mkWorld (page w) (now w) (fresh w) (vars w) s (waiting w) (microtasks w)
    (timers w) (listeners w) (element_hooks w) (fetches w) (transitions w).
Definition set_waiting (x : list (list nat * Prog)) (w : World) : World :=
  mkWorld (page w) (now w) (fresh w) (vars w) (settled w) x (microtasks w)
    (timers w) (listeners w) (element_hooks w) (fetches w) (transitions w).
Definition set_microtasks (m : list Prog) (w : World) : World :=
  mkWorld (page w) (now w) (fresh w) (vars w) (settled w) (waiting w) m
    (timers w) (listeners w) (element_hooks w) (fetches w) (transitions w).
Definition set_timers (t : list Timer) (w : World) : World :=
  mkWorld (page w) (now w) (fresh w) (vars w) (settled w) (waiting w)
    (microtasks w) t (listeners w) (element_hooks w) (fetches w) (transitions w).
Definition set_listeners (l : list Listener) (w : World) : World :=
  mkWorld (page w) (now w) (fresh w) (vars w) (settled w) (waiting w)
    (microtasks w) (timers w) l (element_hooks w) (fetches w) (transitions w).
Definition set_element_hooks (h : list (nat * string * nat)) (w : World) : World :=
  mkWorld (page w) (now w) (fresh w) (vars w) (settled w) (waiting w)
    (microtasks w) (timers w) (listeners w) h (fetches w) (transitions w).
Definition set_fetches (f : list (nat * (Response -> Prog))) (w : World) : World :=
  mkWorld (page w) (now w) (fresh w) (vars w) (settled w) (waiting w)
    (microtasks w) (timers w) (listeners w) (element_hooks w) f (transitions w).
Definition set_transitions (t : list Transition) (w : World) : World :=
  mkWorld (page w) (now w) (fresh w) (vars w) (settled w) (waiting w)
    (microtasks w) (timers w) (listeners w) (element_hooks w) (fetches w) t.

Definition mem (n : nat) (l : list nat) : bool := existsb (Nat.eqb n) l.

Fixpoint read_var (c : nat) (v : list (nat * JsVal)) : JsVal :=
  match v with
  | [] => VUndefined
  | (c', x) :: r => if Nat.eqb c' c then x else read_var c r
  end.

Definition unsettled (w : World) (ps : list nat) : list nat :=
  filter (fun q => negb (mem q (settled w))) ps.

(** [await]: code waiting for nothing that is pending becomes a
    microtask; otherwise it is parked. *)
Definition suspend (ps : list nat) (k : Prog) (w : World) : World :=
  match unsettled w ps with
  | [] => set_microtasks (microtasks w ++ [k]) w
  | qs => set_waiting (waiting w ++ [(qs, k)]) w
  end.

(** Settling promise [q] releases the code that waited for it alone. *)
Fixpoint release (q : nat) (ws : list (list nat * Prog))
  : list (list nat * Prog) * list Prog :=
  match ws with
  | [] => ([], [])
  | (ps, k) :: r =>
      let '(keep, go) := release q r in
      match filter (fun x => negb (Nat.eqb x q)) ps with
      | [] => (keep, k :: go)
      | ps' => ((ps', k) :: keep, go)
      end
  end.

Definition resolve (q : nat) (w : World) : World :=
  if mem q (settled w) then w
  else
    let '(keep, go) := release q (waiting w) in
    set_microtasks (microtasks w ++ go)
      (set_waiting keep (set_settled (q :: settled w) w)).

Definition same_listener (t : Target) (name : string) (f : nat) (l : Listener) : bool :=
  match t, l_target l with
  | TWindow, TWindow | TDocument, TDocument =>
      String.eqb name (l_name l) && Nat.eqb f (l_fun l)
  | _, _ => false
  end.

Definition timer_of (t : JsVal) (x : Timer) : bool :=
  match t with VNum n => Nat.eqb n (t_id x) | _ => false end.

(** [addEventListener]: a listener that is registered already is not
    registered again. *)
Definition add_listener (l : Listener) (w : World) : World :=
  set_listeners
    (if existsb (same_listener (l_target l) (l_name l) (l_fun l)) (listeners w)
     then listeners w
     else listeners w ++ [l]) w.

(** Run code until it returns or suspends. *)
Fixpoint run (p : Prog) (w : World) : World :=
  match p with
  | Done => w
  | Get k => run (k (page w)) w
  | Modify f k => run k (set_page (f (page w)) w)
  | Call q k => run k (run q w)
  | NewPromise k => run (k (fresh w)) (next_fresh w)
  | Resolve q k => run k (resolve q w)
  | Await ps k => suspend ps k w
  | NewVar v k =>
      run (k (fresh w)) (next_fresh (set_vars ((fresh w, v) :: vars w) w))
  | ReadVar c k => run (k (read_var c (vars w))) w
  | WriteVar c v k => run k (set_vars ((c, v) :: vars w) w)
  | Fetch u k =>
      next_fresh
        (set_fetches (fetches w ++ [(fresh w, k)])
           (set_page (record (EFetch u) (page w)) w))
  | SetTimeout cb delay k =>
      run (k (fresh w))
        (next_fresh
           (set_timers (timers w ++ [mkTimer (fresh w) (now w + delay) cb]) w))
  | ClearTimeout t k =>
      run k (set_timers (filter (fun x => negb (timer_of t x)) (timers w)) w)
  | NewFunction k => run (k (fresh w)) (next_fresh w)
  | AddEventListener t name once f cb k =>
      run k (add_listener (mkListener t name once f cb) w)
  | RemoveEventListener t name f k =>
      run k
        (set_listeners
           (filter (fun l => negb (same_listener t name f l)) (listeners w)) w)
  | CreateElement k => run (k (fresh w)) (next_fresh w)
  | OnElementEvent el names q k =>
      run k
        (set_element_hooks
           (element_hooks w ++ map (fun n => (el, n, q)) names) w)
  | StartViewTransition update k =>
      run (k (S (fresh w)))
        (next_fresh
           (next_fresh
              (set_transitions
                 (transitions w ++ [mkTransition (Some update) (fresh w) (S (fresh w))])
                 w)))
  end.

(** The microtask checkpoint: run queued code, oldest first. *)
Fixpoint drain (fuel : nat) (w : World) : World :=
  match fuel with
  | O => w
  | S fuel' =>
      match microtasks w with
      | [] => w
      | j :: r => drain fuel' (run j (set_microtasks r w))
      end
  end.

(** A task: run code, then the checkpoint. *)
Definition task (fuel : nat) (p : Prog) (w : World) : World :=
  drain fuel (run p w).

(** Dispatch to the listeners registered when the dispatch starts, in
    registration order; one removed meanwhile is skipped, a [once]
    listener is removed before it is called. *)
Fixpoint dispatch (fuel : nat) (ev : Event) (ls : list Listener) (w : World) : World :=
  match ls with
  | [] => w
  | l :: r =>
      let present := existsb (same_listener (l_target l) (l_name l) (l_fun l)) (listeners w) in
      let w1 :=
        if present then
          task fuel (l_cb l ev)
            (if l_once l
             then set_listeners
                    (filter (fun x => negb (same_listener (l_target l) (l_name l) (l_fun l) x))
                       (listeners w)) w
             else w)
        else w in
      dispatch fuel ev r w1
  end.

Definition listening (t : Target) (name : string) (w : World) : list Listener :=
  filter (fun l =>
            match t, l_target l with
            | TWindow, TWindow | TDocument, TDocument => String.eqb name (l_name l)
            | _, _ => false
            end) (listeners w).

Definition fire (fuel : nat) (t : Target) (name : string) (ev : Event) (w : World) : World :=
  dispatch fuel ev (listening t name w) w.

Definition plain_event : Event :=
  mkEvent NoAnchor 0 false false false false false None.

(** ** What the browser and the user do *)

Inductive Traversal : Type := GoBack | GoForward.

Inductive Stimulus : Type :=
(** an event dispatched at the document ([click], [mouseenter], ...) *)
| DocumentEvent (name : string) (ev : Event)
(** an event dispatched at the window ([load], [animationend], ...) *)
| WindowEvent (name : string)
(** the user scrolls to offset [y] *)
| Scroll (y : Z)
(** the user goes back or forward one entry in the session history *)
| Traverse (d : Traversal)
(** [dt] milliseconds pass *)
| Elapse (dt : nat)
(** timer [t] fires; nothing happens before it is due *)
| TimerFires (t : nat)
(** the response to fetch [f] arrives *)
| FetchResponds (f : nat) (r : Response)
(** event [name] on created element [el] *)
| ElementEvent (el : nat) (name : string)
(** the browser calls the update callback of view transition [i] *)
| TransitionUpdate (i : nat)
(** view transition [i] is over; only after its update has completed *)
| TransitionFinished (i : nat).

Definition traverse (d : Traversal) (h : History) : option History :=
  match d with
  | GoBack =>
      match past h with
      | e :: r => Some (mkHistory r e (current h :: future h))
      | [] => None
      end
  | GoForward =>
      match future h with
      | e :: r => Some (mkHistory (current h :: past h) e r)
      | [] => None
      end
  end.

Fixpoint find_fetch (f : nat) (l : list (nat * (Response -> Prog)))
  : option (Response -> Prog) :=
  match l with
  | [] => None
  | (f', k) :: r => if Nat.eqb f' f then Some k else find_fetch f r
  end.

Definition step (fuel : nat) (s : Stimulus) (w : World) : World :=
  match s with
  | DocumentEvent name ev => fire fuel TDocument name ev w
  | WindowEvent name => fire fuel TWindow name plain_event w
  | Scroll y =>
      fire fuel TWindow "scroll" plain_event
        (set_page (set_win_scrollY y (page w)) w)
  | Traverse d =>
      match traverse d (history (page w)) with
      | Some h =>
          fire fuel TWindow "popstate"
            (mkEvent NoAnchor 0 false false false false false (e_state (current h)))
            (set_page (set_history h (page w)) w)
      | None => w
      end
  | Elapse dt => set_now (now w + dt) w
  | TimerFires t =>
      match find (fun x => Nat.eqb (t_id x) t) (timers w) with
      | Some x =>
          if Nat.leb (t_due x) (now w)
          then task fuel (t_cb x)
                 (set_timers (filter (fun y => negb (Nat.eqb (t_id y) t)) (timers w)) w)
          else w
      | None => w
      end
  | FetchResponds f r =>
      match find_fetch f (fetches w) with
      | Some k =>
          task fuel (k r)
            (set_fetches (filter (fun x => negb (Nat.eqb (fst x) f)) (fetches w)) w)
      | None => w
      end
  | ElementEvent el name =>
      drain fuel
        (fold_left
           (fun w' h =>
              match h with
              | (el', name', q) =>
                  if Nat.eqb el' el && String.eqb name' name then resolve q w' else w'
              end)
           (element_hooks w) w)
  | TransitionUpdate i =>
      match nth_error (transitions w) i with
      | Some (mkTransition (Some update) u f) =>
          task fuel (update u)
            (set_transitions
               (update_nth i (fun _ => mkTransition None u f) (transitions w)) w)
      | _ => w
      end
  | TransitionFinished i =>
      match nth_error (transitions w) i with
      | Some (mkTransition None u f) =>
          if mem u (settled w) then task fuel (Resolve f Done) w else w
      | _ => w
      end
  end.

Fixpoint steps (fuel : nat) (ss : list Stimulus) (w : World) : World :=
  match ss with
  | [] => w
  | s :: r => steps fuel r (step fuel s w)
  end.

(** A page that has just been loaded: no script has run yet. *)
Definition idle (p : Page) : World :=
  mkWorld p 0 0 [] [] [] [] [] [] [] [] [].

End Loop.

(* ================================================================== *)
(** * The script *)
(* ================================================================== *)

Module Script.
Import Dom Page Loop.
Local Open Scope Z_scope.

Section Script.

(** [new DOMParser().parseFromString(html, 'text/html')] *)
Variable parseFromString : string -> Document.

Definition PERSIST_ATTR : string := "data-astro-transition-persist".

Definition nonempty (s : string) : bool := negb (String.eqb s "").

(** [const persistState = (state) => history.replaceState(state, '')] *)
Definition persistState (state : State) : Page -> Page := replaceState state.

Definition transitionEnabledOnThisPage (p : Page) : bool :=
  exists_in_doc [[SAttrEq "name" "astro-view-transitions-enabled"]] (document p).

Definition triggerEvent (name : string) : Page -> Page := dispatchEvent name.

Definition onload : Page -> Page := triggerEvent "astro:load".

(** The function that [throttle] returns; [wait] is its variable. *)
Definition throttled (cb : Event -> Prog) (delay : nat) (wait : nat) (args : Event)
  : Prog :=
  ReadVar wait (fun v =>
  if truthy v then Done
  else
    Call (cb args)
   (WriteVar wait (VBool true)
   (SetTimeout (WriteVar wait (VBool false) Done) delay (fun _ =>
    Done)))).

Definition throttle (cb : Event -> Prog) (delay : nat)
  (k : (Event -> Prog) -> Prog) : Prog :=
  NewVar (VBool false) (fun wait => k (throttled cb delay wait)).

Definition getHTML (u : string) (k : Response -> Prog) : Prog :=
  Fetch u k.

(** The [content] of the fallback marker, [null] when the marker has no
    such attribute, 'animate' when there is no marker. *)
Definition getFallback (p : Page) : option string :=
  let d := document p in
  match doc_querySelector [[SAttrEq "name" "astro-view-transitions-fallback"]] d with
  | Some q =>
      match doc_node_at q d with
      | Some el => getAttribute "content" el
      | None => None
      end
  | None => Some "animate"
  end.

(** [fallback === 'mode'] *)
Definition is_mode (mode : string) (fallback : option string) : bool :=
  match fallback with
  | Some s => String.eqb s mode
  | None => false
  end.

Definition has_src (script : Node) : bool :=
  match getAttribute "src" script with Some _ => true | None => false end.

(** [wait.then(() => p)]: a promise settled once [wait] and then [p] are. *)
Definition then_ (wait p : nat) (k : nat -> Prog) : Prog :=
  NewPromise (fun q =>
  Call (Await [wait] (Await [p] (Resolve q Done))) (k q)).

(** The loop of [runScripts].  The copy [s] has the content and the
    attributes of [script], so replacing one by the other leaves the
    tree as it is; what changes is that the browser takes [s] up as a
    script that was just inserted. *)
Fixpoint runScripts_loop (l : list Node) (wait : nat) (k : nat -> Prog) : Prog :=
  match l with
  | [] => k wait
  | script :: rest =>
      CreateElement (fun s =>
      (if has_src script
       then fun k' =>
              NewPromise (fun p =>
              OnElementEvent s ["load"] p
              (then_ wait p k'))
       else fun k' => k' wait)
      (fun wait' =>
       Modify (record (EScriptInserted script))
       (runScripts_loop rest wait' k)))
  end.

Definition runScripts (k : nat -> Prog) : Prog :=
  NewPromise (fun wait =>
  Resolve wait
  (Get (fun p =>
   runScripts_loop (scripts (document p)) wait k))).

Definition stylesheet_link : Compound := [STag "link"; SAttrEq "rel" "stylesheet"].

Definition persistedHeadElement (doc_head : Node) (el : Node) : option Path :=
  let id := getAttribute PERSIST_ATTR el in
  let newEl :=
    match id with
    | Some i =>
        if nonempty i then querySelector [[SAttrEq PERSIST_ATTR i]] doc_head else None
    | None => None
    end in
  match newEl with
  | Some q => Some q
  | None =>
      if matches [stylesheet_link] el then
        let href := getAttribute "href" el in
        querySelector [stylesheet_link ++ [SAttrEq "href" (interpolate href)]] doc_head
      else None
  end.

(** The head loop of [swap] over the children of the live head: the
    children that stay, and the incoming head as the loop leaves it. *)
Fixpoint swap_head (live : list Node) (doc_head : Node) : list Node * Node :=
  match live with
  | [] => ([], doc_head)
  | el :: rest =>
      if is_element el then
        match persistedHeadElement doc_head el with
        | Some newEl =>
            let '(kept, h) := swap_head rest (remove_at newEl doc_head) in
            (el :: kept, h)
        | None => swap_head rest doc_head
        end
      else
        let '(kept, h) := swap_head rest doc_head in
        (el :: kept, h)
  end.

(** The body loop of [swap]: each persisted element of the old body
    takes the place of the first element of the live document carrying
    its identifier. *)
Definition persist_body (oldBody : Node) (d : Document) : Document :=
  fold_left
    (fun d el =>
       let id := getAttribute PERSIST_ATTR el in
       match doc_querySelector [[SAttrEq PERSIST_ATTR (interpolate id)]] d with
       | Some newEl => doc_replace_at newEl el d
       | None => d
       end)
    (querySelectorAll [[SHasAttr PERSIST_ATTR]] oldBody) d.

(** The live head after the head loop and [document.head.append]. *)
Definition merge_head (live_head doc_head : Node) : Node :=
  let '(kept, h) := swap_head (children_of live_head) doc_head in
  with_children (fun _ => kept ++ element_children h) live_head.

Definition swap (doc : Document) (state : option State) (p : Page) : Page :=
  let live := document p in
  let live1 := set_head (merge_head (head live) (head doc)) live in
  let oldBody := body live1 in
  let live2 := set_body (body doc) live1 in
  let p1 := record EBodyReplaced (set_document (persist_body oldBody live2) p) in
  let p2 := match state with
            | Some s => scrollTo (scrollY s) p1
            | None => p1
            end in
  triggerEvent "astro:beforeload" p2.

Definition preload_link (href : option string) : Node :=
  Elem "link" [("rel", "preload"); ("as", "style"); ("href", interpolate href)] [].

Definition already_on_page (el : Node) (p : Page) : bool :=
  exists_in_doc
    [[SAttrEq PERSIST_ATTR (interpolate (getAttribute PERSIST_ATTR el))]; stylesheet_link]
    (document p).

(** The preload loop of [updateDOM] over the incoming stylesheet links. *)
Fixpoint preload (els : list Node) (links : list nat) (k : list nat -> Prog) : Prog :=
  match els with
  | [] => k links
  | el :: rest =>
      Get (fun p =>
      if negb (already_on_page el p) then
        CreateElement (fun c =>
        NewPromise (fun q =>
        OnElementEvent c ["load"; "error"] q
        (Modify (fun p =>
                   set_document
                     (set_head
                        (append_children [preload_link (getAttribute "href" el)]
                           (head (document p)))
                        (document p)) p)
        (preload rest (links ++ [q]) k))))
      else preload rest links k)
  end.

Definition set_root_attr (name value : string) (p : Page) : Page :=
  set_document
    (set_html_attrs (set_attr name value (html_attrs (document p))) (document p)) p.

Definition remove_root_attr (name : string) (p : Page) : Page :=
  set_document
    (set_html_attrs (remove_attr name (html_attrs (document p))) (document p)) p.

(** [async function updateDOM(dir, html, state, fallback)]; [finished]
    is the promise the call returns. *)
Definition updateDOM (dir : Direction) (html : string) (state : option State)
  (fallback : option string) (finished : nat) : Prog :=
  let doc0 := parseFromString html in
  let doc :=
    set_html_attrs
      (set_attr "data-astro-transition" (direction_name dir) (html_attrs doc0)) doc0 in
  preload (querySelectorAll [stylesheet_link] (head doc)) [] (fun links =>
  (match links with
   | [] => fun k => k
   | _ => fun k => Await links k
   end)
  (if is_mode "animate" fallback then
       NewVar (VBool false) (fun isAnimating =>
       NewFunction (fun f =>
       AddEventListener TWindow "animationstart" true f
         (fun _ => WriteVar isAnimating (VBool true) Done)
       (Modify (set_root_attr "data-astro-transition-fallback" "old")
       (NewVar VUndefined (fun timeout =>
        NewFunction (fun fs =>
        let fallbackSwap :=
          RemoveEventListener TWindow "animationend" fs
          (ReadVar timeout (fun t =>
           ClearTimeout t
           (Modify (swap doc state)
           (Modify (set_root_attr "data-astro-transition-fallback" "new")
            Done)))) in
        AddEventListener TWindow "animationend" true fs (fun _ => fallbackSwap)
        (SetTimeout
           (ReadVar isAnimating (fun a => if truthy a then Done else fallbackSwap))
           0%nat (fun t =>
         WriteVar timeout (VNum t)
         (Resolve finished Done)))))))))
   else
       Modify (swap doc state)
       (Resolve finished Done))).

(** [async function navigate(dir, href, state)] *)
Definition navigate (dir : Direction) (u : string) (state : option State) : Prog :=
  getHTML u (fun r =>
  if negb (ok r) then
    Modify (record (ELocationAssign u)) Done
  else
    Get (fun p =>
    (if supportsViewTransitions p
     then StartViewTransition (fun finished => updateDOM dir (html r) state None finished)
     else fun k =>
            NewPromise (fun finished =>
            Call (updateDOM dir (html r) state (getFallback p) finished)
                 (k finished)))
    (fun finished =>
     Await [finished]
     (Modify (remove_root_attr "data-astro-transition")
     (runScripts (fun wait =>
      Await [wait]
      (Modify onload Done))))))).

Fixpoint has_infix (pat s : string) : bool :=
  String.prefix pat s
  || match s with
     | EmptyString => false
     | String _ r => has_infix pat r
     end.

Definition maybePrefetch (pathname : string) (p : Page) : Page :=
  if exists_in_doc
       [[STag "link"; SAttrEq "rel" "prefetch"; SAttrEq "href" pathname]] (document p)
  then p
  else
    let slow :=
      match connection p with
      | Some conn =>
          saveData conn
          || (let t := match effectiveType conn with Some t => t | None => "" end in
              has_infix "2g" t || has_infix "3g" t)
      | None => false
      end in
    if slow then p
    else
      set_document
        (set_head
           (append_children [Elem "link" [("rel", "prefetch"); ("href", pathname)] []]
              (head (document p)))
           (document p)) p.

(** The anchor a click is taken to be on. *)
Definition click_link (t : EvTarget) : option Anchor :=
  match t with
  | OnAnchor a => Some a
  | InsideAnchor a => Some a
  | NoAnchor => None
  end.

(** The test of the click listener, but for the page's marker. *)
Definition same_origin_click (ev : Event) (link : Anchor) (p : Page) : bool :=
  nonempty (href (a_url link))
  && (negb (nonempty (a_target link)) || String.eqb (a_target link) "_self")
  && String.eqb (origin (a_url link)) (origin (location p))
  && negb (nonempty (hash (a_url link)))
  && Z.eqb (button ev) 0
  && negb (metaKey ev)
  && negb (ctrlKey ev)
  && negb (altKey ev)
  && negb (shiftKey ev)
  && negb (defaultPrevented ev).

Definition intercepted (ev : Event) (p : Page) : option Anchor :=
  match click_link (target ev) with
  | Some link =>
      if same_origin_click ev link p && transitionEnabledOnThisPage p
      then Some link else None
  | None => None
  end.

Definition click_listener (ev : Event) : Prog :=
  Get (fun p =>
  match intercepted ev p with
  | Some link =>
      Modify (record EPreventDefault)
      (Call (navigate forward (href (a_url link))
               (Some (mkState (currentHistoryIndex p) 0)))
      (Modify (fun p => set_currentHistoryIndex (currentHistoryIndex p + 1) p)
      (Get (fun p =>
       let newState := mkState (currentHistoryIndex p) (win_scrollY p) in
       Modify (persistState (mkState (currentHistoryIndex p - 1) (win_scrollY p)))
      (Modify (pushState newState (a_url link))
       Done)))))
  | None => Done
  end).

(** [nextIndex > currentHistoryIndex ? 'forward' : 'back'] *)
Definition popstate_direction (nextIndex currentHistoryIndex : Z) : Direction :=
  if Z.gtb nextIndex currentHistoryIndex then forward else back.

(** [state?.index ?? currentHistoryIndex + 1] *)
Definition popstate_nextIndex (state : option State) (currentHistoryIndex : Z) : Z :=
  match state with
  | Some s => index s
  | None => currentHistoryIndex + 1
  end.

Definition popstate_listener (ev : Event) : Prog :=
  Get (fun p =>
  if negb (transitionEnabledOnThisPage p) then
    Modify (record EReload) Done
  else
    match ev_state ev with
    | None =>
        Modify (persistState (mkState (currentHistoryIndex p) (win_scrollY p)))
        (Modify (record EPreventDefault)
         Done)
    | Some _ =>
        let state := history_state p in
        let nextIndex := popstate_nextIndex state (currentHistoryIndex p) in
        let direction := popstate_direction nextIndex (currentHistoryIndex p) in
        Call (navigate direction (href (location p)) state)
        (Modify (set_currentHistoryIndex nextIndex)
         Done)
    end).

Definition prefetch_listener (ev : Event) : Prog :=
  Get (fun p =>
  match target ev with
  | OnAnchor el =>
      if String.eqb (origin (a_url el)) (origin (location p))
         && negb (String.eqb (pathname (a_url el)) (pathname (location p)))
         && transitionEnabledOnThisPage p
      then Modify (maybePrefetch (pathname (a_url el))) Done
      else Done
  | _ => Done
  end).

Definition scroll_callback (_ : Event) : Prog :=
  Get (fun p =>
  match history_state p with
  | Some s => Modify (persistState (mkState (index s) (win_scrollY p))) Done
  | None => Done
  end).

Fixpoint forEach (names : list string) (f : string -> Prog -> Prog) (k : Prog) : Prog :=
  match names with
  | [] => k
  | n :: r => f n (forEach r f k)
  end.

Definition install : Prog :=
  NewFunction (fun f_click =>
  AddEventListener TDocument "click" false f_click click_listener
  (NewFunction (fun f_pop =>
   AddEventListener TWindow "popstate" false f_pop popstate_listener
   (forEach ["mouseenter"; "touchstart"; "focus"]
      (fun evName k =>
         NewFunction (fun f =>
         AddEventListener TDocument evName false f prefetch_listener k))
   (NewFunction (fun f_load =>
    AddEventListener TWindow "load" false f_load (fun _ => Modify onload Done)
    (throttle scroll_callback 300%nat (fun throttled =>
     NewFunction (fun f_scroll =>
     AddEventListener TWindow "scroll" false f_scroll throttled
     Done))))))))).

(** The script from top to bottom. *)
Definition main : Prog :=
  Get (fun p =>
  Modify (set_currentHistoryIndex
            (match history_state p with Some s => index s | None => 0 end))
  (Get (fun p =>
   (match history_state p with
    | None => Modify (persistState (mkState (currentHistoryIndex p) 0))
    | Some _ => fun k => k
    end)
   (Modify (fun p => set_supportsViewTransitions (has_startViewTransition p) p)
   (Get (fun p =>
    if supportsViewTransitions p || negb (is_mode "none" (getFallback p))
    then install
    else Done)))))).

End Script.

End Script.

(* ================================================================== *)
(** * Properties *)
(* ================================================================== *)

Import Dom Page Loop Script.
Local Open Scope Z_scope.

(** ** Concrete pages used as inputs *)

Module Sample.

Definition meta (name content : string) : Node :=
  Elem "meta" [("name", name); ("content", content)] [].

Definition sheet (u : string) : Node :=
  Elem "link" [("rel", "stylesheet"); ("href", u)] [].

Definition inline_script (code : string) : Node :=
  Elem "script" [] [Text code].

Definition external_script (u : string) : Node :=
  Elem "script" [("src", u)] [].

Definition enabled : Node := meta "astro-view-transitions-enabled" "true".

Definition fallback (mode : string) : Node :=
  meta "astro-view-transitions-fallback" mode.

(** Page A, with style sheet /a.css and an inline script. *)
Definition docA (mode : string) : Document :=
  mkDocument []
    (Elem "head" [] [enabled; fallback mode; sheet "/a.css"])
    (Elem "body" [] [Elem "p" [] [Text "A"]; inline_script "a()"]).

(** Page B, with style sheet /b.css and an inline script. *)
Definition docB (mode : string) : Document :=
  mkDocument []
    (Elem "head" [] [enabled; fallback mode; sheet "/b.css"])
    (Elem "body" [] [Elem "p" [] [Text "B"]; inline_script "b()"]).

(** The parser: the text "B" stands for the markup of page B. *)
Definition parse (mode : string) (html : string) : Document :=
  if String.eqb html "B" then docB mode else docA mode.

(** A page with an external script followed by an inline one. *)
Definition docS : Document :=
  mkDocument []
    (Elem "head" [] [enabled])
    (Elem "body" [] [external_script "/x.js"; inline_script "y()"]).

Definition urlA : Url := mkUrl "https://site.test/a" "https://site.test" "/a" "".
Definition urlB : Url := mkUrl "https://site.test/b" "https://site.test" "/b" "".

(** Page A just loaded, scrolled down to offset 120, on a platform
    without [document.startViewTransition]. *)
Definition pageA (mode : string) : Page :=
  mkPage (docA mode) (mkHistory [] (mkEntry None urlA) []) 120 false None 0 false [].

Definition pageS : Page :=
  mkPage docS (mkHistory [] (mkEntry None urlA) []) 0 false None 0 false [].

(** A plain left click on a link to page B. *)
Definition click_on_B : Event :=
  mkEvent (OnAnchor (mkAnchor urlB "")) 0 false false false false false None.

Definition popstate_with (s : option State) : Event :=
  mkEvent NoAnchor 0 false false false false false s.

End Sample.

(* ================================================================== *)
(** * Vocabulary of the statements *)
(* ================================================================== *)

Section Vocabulary.

Variable parseFromString : string -> Document.


(** Nothing of the script is waiting for the browser. *)
Definition nothing_installed (w : World) : Prop :=
  listeners w = [] /\ timers w = [] /\ fetches w = []
  /\ element_hooks w = [] /\ transitions w = [] /\ microtasks w = [].

(** The page's test for installing the listeners. *)
Definition installs (p : Page) : bool :=
  has_startViewTransition p || negb (is_mode "none" (getFallback p)).

(** Scrolling, time passing and timers coming due, nothing else. *)
Definition scrolling_only (ss : list Stimulus) : bool :=
  forallb (fun s => match s with
                    | Scroll _ | Elapse _ | TimerFires _ => true
                    | _ => false
                    end) ss.

Fixpoint elapsed (ss : list Stimulus) : nat :=
  match ss with
  | [] => 0
  | Elapse dt :: r => dt + elapsed r
  | _ :: r => elapsed r
  end.

(** After the script has run on a fresh page, the scroll listener is
    function 7 and the variable [wait] of its throttle is variable 6. *)
Definition scroll_listener : Listener :=
  mkListener TWindow "scroll" false 7 (throttled scroll_callback 300 6).

(** The timer [t] that ends the wait window at [due]. *)
Definition reset_timer (t due : nat) : Timer :=
  mkTimer t due (WriteVar 6 (VBool false) Done).

(** The scroll listener is in place and the event loop is at rest. *)
Definition armed (w : World) : Prop :=
  listening TWindow "scroll" w = [scroll_listener]
  /\ existsb (same_listener TWindow "scroll" 7) (listeners w) = true
  /\ microtasks w = [].

(** The throttle lets the next call through. *)
Definition throttle_open (w : World) : Prop :=
  armed w
  /\ read_var 6 (vars w) = VBool false
  /\ timers w = [].

(** The throttle is in its wait window, which timer [t] ends at [due]. *)
Definition throttle_closed (t due : nat) (w : World) : Prop :=
  armed w
  /\ read_var 6 (vars w) = VBool true
  /\ timers w = [reset_timer t due]
  /\ (now w < due)%nat.

(** The listeners of the script, as [install] registers them on a
    fresh page. *)
Definition installed : list Listener :=
  [ mkListener TDocument "click" false 0 (click_listener parseFromString);
    mkListener TWindow "popstate" false 1 (popstate_listener parseFromString);
    mkListener TDocument "mouseenter" false 2 prefetch_listener;
    mkListener TDocument "touchstart" false 3 prefetch_listener;
    mkListener TDocument "focus" false 4 prefetch_listener;
    mkListener TWindow "load" false 5 (fun _ => Modify onload Done);
    scroll_listener ].

(** The page after the statements of the script that come before the
    listeners. *)
Definition prelude (p : Page) : Page :=
  set_supportsViewTransitions (has_startViewTransition p)
    (match history_state p with
     | Some s => set_currentHistoryIndex (index s) p
     | None => persistState (mkState 0 0) (set_currentHistoryIndex 0 p)
     end).

(** [el] finds an equivalent in the incoming head [doc_head]. *)
Definition has_equivalent (doc_head el : Node) : bool :=
  match persistedHeadElement doc_head el with
  | Some _ => true
  | None => false
  end.

(** Claim C6 as the specification words it: of the children of the live
    head, the loop keeps exactly the elements that have an equivalent in
    the incoming head (text nodes are not looked at). *)
Definition keeps_exactly_the_equivalents (live : list Node) (doc_head : Node) : Prop :=
  fst (swap_head live doc_head)
  = filter (fun el => negb (is_element el) || has_equivalent doc_head el) live.

(** The load signal that [navigate] sends after [runScripts]. *)
Definition load_signal : Prog := Modify onload Done.

(** Claim C4 as the specification words it, for a task in which
    [runScripts] runs and before any load event has been delivered: no
    successor of a script bearing [src] has been inserted. *)
Definition successors_wait_for_load (w : World) : Prop :=
  forall pre s post x,
    scripts (document (page w)) = pre ++ s :: post ->
    has_src s = true ->
    In x post ->
    ~ In (EScriptInserted x)
        (calls (page (task 20 (runScripts (fun wait => Await [wait] load_signal)) w))).

Definition insert_all (l : list Node) (p : Page) : Page :=
  fold_left (fun p script => record (EScriptInserted script) p) l p.

End Vocabulary.

(** ** The chain of promises built by [runScripts] *)

Local Close Scope Z_scope.

Section ChainVocabulary.

(** For each script bearing [src], in document order: the element
    created for it, the promise [p] of its load event and the promise
    [wait.then(() => p)]; [f] is the next fresh identity. *)
Fixpoint chain (l : list Node) (f : nat) : list (nat * nat * nat) :=
  match l with
  | [] => []
  | script :: rest =>
      if has_src script then (f, S f, S (S f)) :: chain rest (3 + f)
      else chain rest (S f)
  end.

(** The next fresh identity after the loop. *)
Fixpoint fresh_after (l : list Node) (f : nat) : nat :=
  match l with
  | [] => f
  | script :: rest =>
      if has_src script then fresh_after rest (3 + f) else fresh_after rest (S f)
  end.

(** The reaction of [wait.then(() => p)], once [wait] is settled. *)
Definition chained (p q : nat) : Prog := Await [p] (Resolve q Done).

(** Reactions parked on the chained promises, [q] first. *)
Fixpoint mids (q : nat) (c : list (nat * nat * nat)) : list (list nat * Prog) :=
  match c with
  | [] => []
  | (_, p, q') :: c' => ([q], chained p q') :: mids q' c'
  end.

Fixpoint last_wait (q : nat) (c : list (nat * nat * nat)) : nat :=
  match c with
  | [] => q
  | (_, _, q') :: c' => last_wait q' c'
  end.

Definition hooks_of (c : list (nat * nat * nat)) : list (nat * string * nat) :=
  map (fun x => match x with (e, p, _) => (e, "load", p) end) c.

(** Identities are handed out in increasing order. *)
Inductive ascending : nat -> list (nat * nat * nat) -> Prop :=
| asc_nil f : ascending f []
| asc_cons f e c : (f <= e)%nat -> ascending (3 + e) c ->
                   ascending f ((e, S e, S (S e)) :: c).

Definition after_loop (l : list Node) (w : World) (waits : list (list nat * Prog))
  (jobs : list Prog) : World :=
  mkWorld (insert_all l (page w)) (now w) (fresh_after l (fresh w)) (vars w)
    (settled w) (waiting w ++ waits) (microtasks w ++ jobs) (timers w) (listeners w)
    (element_hooks w ++ hooks_of (chain l (fresh w))) (fetches w) (transitions w).

(** Reactions parked behind the chained promise [q], the load signal
    last. *)
Definition links (q : nat) (c : list (nat * nat * nat)) : list (list nat * Prog) :=
  mids q c ++ [([last_wait q c], load_signal)].

(** What is parked while the load event of the first script of [c] is
    outstanding. *)
Definition parked (c : list (nat * nat * nat)) : list (list nat * Prog) :=
  match c with
  | [] => []
  | (_, p, q) :: c' => links q c' ++ [([p], Resolve q Done)]
  end.

(** The part of the chain that starts at the first script still to
    load; [got] lists the elements that have had their load event. *)
Fixpoint skip (got : list nat) (c : list (nat * nat * nat)) : list (nat * nat * nat) :=
  match c with
  | [] => []
  | (e, p, q) :: c' => if mem e got then skip got c' else c
  end.

(** The promises settled once [q] is settled. *)
Fixpoint cascade_settled (got : list nat) (q : nat) (c : list (nat * nat * nat))
  (s : list nat) : list nat :=
  match c with
  | [] => q :: s
  | (e, p, q') :: c' => if mem e got then cascade_settled got q' c' (q :: s) else q :: s
  end.

(** What an event does with one handler set on a created element. *)
Definition deliver (el : nat) (name : string) (w : World) (h : nat * string * nat)
  : World :=
  match h with
  | (el', name', q) =>
      if Nat.eqb el' el && String.eqb name' name then resolve q w else w
  end.

(** The world between two tasks, when the elements [got] have had
    their load event: [c] are the scripts bearing [src], [old] the
    handlers set before [runScripts] ran and [base] the calls made up to
    the end of its loop. *)
Definition barrier (c : list (nat * nat * nat)) (old : list (nat * string * nat))
  (base : list Effect) (got : list nat) (w : World) : Prop :=
  waiting w = parked (skip got c)
  /\ microtasks w = []
  /\ element_hooks w = old ++ hooks_of c
  /\ (forall e p q, In (e, p, q) c -> mem p (settled w) = mem e got)
  /\ (forall e p q, In (e, p, q) (skip got c) -> mem q (settled w) = false)
  /\ calls (page w)
     = base ++ match skip got c with
               | [] => [EDispatch "astro:load"]
               | _ => []
               end.

(** Events on created elements, nothing else. *)
Definition element_events_only (ss : list Stimulus) : bool :=
  forallb (fun s => match s with ElementEvent _ _ => true | _ => false end) ss.

(** The load event of element [el] is among [ss]. *)
Definition load_delivered (el : nat) (ss : list Stimulus) : bool :=
  existsb (fun s => match s with
                    | ElementEvent el' name => Nat.eqb el' el && String.eqb name "load"
                    | _ => false
                    end) ss.

(** Every script of the chain has had its load event. *)
Definition all_loaded (c : list (nat * nat * nat)) (ss : list Stimulus) : bool :=
  forallb (fun x => load_delivered (fst (fst x)) ss) c.

Fixpoint seen (ss : list Stimulus) (got : list nat) : list nat :=
  match ss with
  | [] => got
  | ElementEvent el name :: r =>
      seen r (if String.eqb name "load" then el :: got else got)
  | _ :: r => seen r got
  end.

End ChainVocabulary.

Local Open Scope Z_scope.

(* ================================================================== *)
(** * Vocabulary of the further properties *)
(* ================================================================== *)

(** The test with which [maybePrefetch] starts: a prefetch link for
    [pathname] is in the document. *)
Definition prefetched (pathname : string) (p : Page) : bool :=
  exists_in_doc [[STag "link"; SAttrEq "rel" "prefetch"; SAttrEq "href" pathname]]
    (document p).

(** The link that [maybePrefetch] creates. *)
Definition prefetch_link (pathname : string) : Node :=
  Elem "link" [("rel", "prefetch"); ("href", pathname)] [].

(** What keeps the click listener from taking a click over, read off its
    test: no anchor at or above the target, or one of the conditions on
    the anchor, on the event or on the page fails. *)
Definition left_to_browser (ev : Event) (p : Page) : Prop :=
  match click_link (target ev) with
  | None => True
  | Some link =>
      href (a_url link) = ""
      \/ (a_target link <> "" /\ a_target link <> "_self")
      \/ origin (a_url link) <> origin (location p)
      \/ hash (a_url link) <> ""
      \/ button ev <> 0
      \/ metaKey ev = true \/ ctrlKey ev = true \/ altKey ev = true
      \/ shiftKey ev = true
      \/ defaultPrevented ev = true
      \/ transitionEnabledOnThisPage p = false
  end.

(** ** The 'animate' fallback *)

(** The document that [updateDOM] builds from the response: the parsed
    markup, with the direction on its root element. *)
Definition incoming (parseFromString : string -> Document) (dir : Direction)
  (html : string) : Document :=
  set_html_attrs
    (set_attr "data-astro-transition" (direction_name dir)
       (html_attrs (parseFromString html)))
    (parseFromString html).

(** Every incoming style sheet link passes the test of the preload
    loop, so that [updateDOM] has nothing to wait for. *)
Definition nothing_to_preload (doc : Document) (p : Page) : bool :=
  forallb (fun el => already_on_page el p)
    (querySelectorAll [stylesheet_link] (head doc)).


Section FallbackVocabulary.

Variable doc : Document.
Variable state : option State.

(** The first identity that the 'animate' branch allocates: [f0] is the
    variable [isAnimating], then come the [animationstart] listener, the
    variable [timeout], the function [fallbackSwap] and the timer. *)
Variable f0 : nat.

Definition fallbackSwap : Prog :=
  RemoveEventListener TWindow "animationend" (S (S (S f0)))
  (ReadVar (S (S f0)) (fun t =>
   ClearTimeout t
   (Modify (swap doc state)
   (Modify (set_root_attr "data-astro-transition-fallback" "new")
    Done)))).







End FallbackVocabulary.





(** ** Code that leaves part of the page alone *)

(** The events of the 'animate' fallback. *)
Definition is_animation_event (name : string) : bool :=
  String.eqb name "animationstart" || String.eqb name "animationend".

(** The listeners other than those of the 'animate' fallback. *)
Definition lasting (ls : list Listener) : list Listener :=
  filter (fun l => negb (is_animation_event (l_name l))) ls.

(** A listener registered with [once] is a listener of the 'animate'
    fallback. *)
Definition once_is_animation (l : Listener) : Prop :=
  l_once l = true -> is_animation_event (l_name l) = true.

Section Code.

Variable parseFromString : string -> Document.

(** What code may do to the page, as a relation between the page before
    and the page after. *)
Variable R : Page -> Page -> Prop.

(** [code R0 k]: the requests that [k] makes before it returns or
    suspends change the page within [R0], and whatever it leaves behind
    to run later (continuations of [await] and [fetch], timer callbacks,
    listeners, update callbacks) changes the page within [R].  The only
    listeners that the code registers or removes are listeners of
    [animationstart] and [animationend]. *)
Inductive code : (Page -> Page -> Prop) -> Prog -> Prop :=
| code_Done R0 : code R0 Done
| code_Get R0 k : (forall p, code R0 (k p)) -> code R0 (Get k)
| code_Modify R0 f k : (forall p, R0 p (f p)) -> code R0 k -> code R0 (Modify f k)
| code_Call R0 q k : code R0 q -> code R0 k -> code R0 (Call q k)
| code_NewPromise R0 k : (forall n, code R0 (k n)) -> code R0 (NewPromise k)
| code_Resolve R0 q k : code R0 k -> code R0 (Resolve q k)
| code_Await R0 ps k : code R k -> code R0 (Await ps k)
| code_NewVar R0 v k : (forall n, code R0 (k n)) -> code R0 (NewVar v k)
| code_ReadVar R0 c k : (forall v, code R0 (k v)) -> code R0 (ReadVar c k)
| code_WriteVar R0 c v k : code R0 k -> code R0 (WriteVar c v k)
| code_Fetch R0 u k :
    (forall p, R0 p (record (EFetch u) p)) -> (forall r, code R (k r)) ->
    code R0 (Fetch u k)
| code_SetTimeout R0 cb delay k :
    code R cb -> (forall n, code R0 (k n)) -> code R0 (SetTimeout cb delay k)
| code_ClearTimeout R0 t k : code R0 k -> code R0 (ClearTimeout t k)
| code_NewFunction R0 k : (forall n, code R0 (k n)) -> code R0 (NewFunction k)
| code_AddEventListener R0 t name once f cb k :
    (forall ev, code R (cb ev)) -> is_animation_event name = true -> code R0 k ->
    code R0 (AddEventListener t name once f cb k)
| code_RemoveEventListener R0 t name f k :
    is_animation_event name = true -> code R0 k ->
    code R0 (RemoveEventListener t name f k)
| code_CreateElement R0 k : (forall n, code R0 (k n)) -> code R0 (CreateElement k)
| code_OnElementEvent R0 el names q k :
    code R0 k -> code R0 (OnElementEvent el names q k)
| code_StartViewTransition R0 update k :
    (forall n, code R (update n)) -> (forall n, code R0 (k n)) ->
    code R0 (StartViewTransition update k).

(** Code that stays within [R] throughout. *)
Definition quiet : Prog -> Prop := code R.

(** The work queued or suspended stays within [R]. *)
Definition core (w : World) : Prop :=
  Forall quiet (microtasks w)
  /\ Forall (fun x => quiet (snd x)) (waiting w).

(** The listeners of a page: the three that write the history, and
    listeners that stay within [R]. *)
Inductive listener_kind (l : Listener) : Prop :=
| kind_quiet : (forall ev, quiet (l_cb l ev)) -> l_name l <> "popstate" -> listener_kind l
| kind_click : l_cb l = click_listener parseFromString -> l_name l <> "popstate" ->
               listener_kind l
| kind_scroll wait : l_cb l = throttled scroll_callback 300 wait ->
                     l_name l <> "popstate" -> listener_kind l
| kind_popstate : l_target l = TWindow -> l_name l = "popstate" -> l_once l = false ->
                  l_cb l = popstate_listener parseFromString -> listener_kind l.

(** What waits for the browser stays within [R]: timers, responses,
    view transitions and listeners. *)
Definition rest (w : World) : Prop :=
  Forall (fun t => quiet (t_cb t)) (timers w)
  /\ Forall (fun x => forall r, quiet (snd x r)) (fetches w)
  /\ Forall (fun t => forall u, vt_update t = Some u -> forall n, quiet (u n))
       (transitions w)
  /\ Forall listener_kind (listeners w).

Definition calm (w : World) : Prop := core w /\ rest w.

End Code.

(** The calls that write the history or start a fetch. *)
Definition is_write_or_fetch (e : Effect) : bool :=
  match e with
  | EReplaceState _ | EPushState _ _ | EFetch _ => true
  | _ => false
  end.

(** The session history and the in-memory index are as they were, and
    the calls made in between neither write the history nor fetch. *)
Definition same_history (p p' : Page) : Prop :=
  history p' = history p
  /\ currentHistoryIndex p' = currentHistoryIndex p
  /\ exists l, calls p' = calls p ++ l /\ existsb is_write_or_fetch l = false.

(** The same, and the scroll offset is as it was. *)
Definition same_position (p p' : Page) : Prop :=
  same_history p p' /\ win_scrollY p' = win_scrollY p.

Definition is_full_load (e : Effect) : bool :=
  match e with
  | EReload | ELocationAssign _ => true
  | _ => false
  end.

(** The script has handed the page over to the browser: a reload or a
    full navigation has been asked for. *)
Definition leaving (p : Page) : Prop := existsb is_full_load (calls p) = true.

(** The in-memory index is the index written in the current entry. *)
Definition in_sync (p : Page) : Prop :=
  exists s, history_state p = Some s /\ index s = currentHistoryIndex p.

(** What the browser does on its own, as opposed to events that the
    user sets off. *)
Definition machine_driven (s : Stimulus) : bool :=
  match s with
  | Elapse _ | TimerFires _ | FetchResponds _ _ | ElementEvent _ _
  | TransitionUpdate _ | TransitionFinished _ => true
  | _ => false
  end.

(** No constraint on what is done to the page. *)
Definition anything (_ _ : Page) : Prop := True.

Section PopstateVocabulary.

Variable parseFromString : string -> Document.

Definition is_popstate_listener (l : Listener) : Prop :=
  l_target l = TWindow /\ l_name l = "popstate" /\ l_once l = false
  /\ l_cb l = popstate_listener parseFromString.

(** The [popstate] listener of the script is registered. *)
Definition hears_popstate (w : World) : Prop :=
  exists l, In l (listeners w) /\ is_popstate_listener l.

End PopstateVocabulary.

(** The state of the script's index: in step with the current entry,
    unless the page is being left. *)
Definition index_in_sync (p : Page) : Prop := leaving p \/ in_sync p.

(** What the [popstate] listener needs to bring the index in step: the
    event carries no state, or the current entry has one. *)
Definition popstate_ready (ev : Event) (p : Page) : Prop :=
  ev_state ev = None \/ history_state p <> None \/ leaving p.

(** ** The two halves of [navigate] *)

(** The [finally] block of [navigate]. *)
Definition finally_block : Prog :=
  Modify (remove_root_attr "data-astro-transition")
    (runScripts (fun wait => Await [wait] (Modify onload Done))).

(** What [navigate] does when the response [r] is there. *)
Definition navigate_response (parseFromString : string -> Document) (dir : Direction)
  (u : string) (state : option State) (r : Response) : Prog :=
  if negb (ok r) then
    Modify (record (ELocationAssign u)) Done
  else
    Get (fun p =>
    (if supportsViewTransitions p
     then StartViewTransition
            (fun finished => updateDOM parseFromString dir (html r) state None finished)
     else fun k =>
            NewPromise (fun finished =>
            Call (updateDOM parseFromString dir (html r) state (getFallback p) finished)
                 (k finished)))
    (fun finished => Await [finished] finally_block)).

(** The document is as it was. *)
Definition same_document (p p' : Page) : Prop := document p' = document p.

(** The load signal that closes a navigation is sent at once when no
    script of the page bears [src]. *)
Definition load_signal_if_inline (l : list Node) : list Effect :=
  if existsb has_src l then [] else [EDispatch "astro:load"].

(** The root element without the transition marker. *)
Definition without_marker (d : Document) : Document :=
  set_html_attrs (remove_attr "data-astro-transition" (html_attrs d)) d.

(** ** More concrete pages *)

(** Page B, reached from page A: the entry of page A is behind, with the
    offset 40 that page A had when it was left. *)
Definition pageB_after_A : Page :=
  mkPage (Sample.docB "swap")
    (mkHistory [mkEntry (Some (mkState 0 40)) Sample.urlA]
       (mkEntry (Some (mkState 1 0)) Sample.urlB) [])
    0 false None 0 false [].


(** ** The style sheet preload barrier *)

(** For each incoming link that is preloaded, in order: the element
    created for it and the promise of its load or error event; [f] is
    the next fresh identity. *)
Fixpoint preloads (els : list Node) (f : nat) : list (nat * nat) :=
  match els with
  | [] => []
  | _ :: rest => (f, S f) :: preloads rest (S (S f))
  end.

Definition preload_hooks (c : list (nat * nat)) : list (nat * string * nat) :=
  flat_map (fun x => [(fst x, "load", snd x); (fst x, "error", snd x)]) c.

(** The page with the preload link for [el] appended to its head. *)
Definition add_preload (p : Page) (el : Node) : Page :=
  set_document
    (set_head (append_children [preload_link (getAttribute "href" el)] (head (document p)))
       (document p)) p.

Definition with_preloads (els : list Node) (p : Page) : Page :=
  fold_left add_preload els p.

(** None of the incoming links passes the test of the preload loop. *)
Definition nothing_on_page (els : list Node) (p : Page) : bool :=
  forallb (fun el => negb (already_on_page el p)) els.

(** The world when the preload loop has gone through [els]. *)
Fixpoint preloaded (els : list Node) (w : World) : World :=
  match els with
  | [] => w
  | el :: rest =>
      preloaded rest
        (set_page (add_preload (page w) el)
           (set_element_hooks
              (element_hooks w
               ++ [(fresh w, "load", S (fresh w)); (fresh w, "error", S (fresh w))])
              (next_fresh (next_fresh w))))
  end.

(** What is parked on the promises [links] that are not settled yet. *)
Definition parked_on (links : list nat) (body : Prog) (w : World)
  : list (list nat * Prog) :=
  match unsettled w links with
  | [] => []
  | ps => [(ps, body)]
  end.

Definition is_settling (name : string) : bool :=
  String.eqb name "load" || String.eqb name "error".

(** A load or error event of the created element [c] is among [ss]. *)
Definition preload_settled (c : nat) (ss : list Stimulus) : bool :=
  existsb (fun s => match s with
                    | ElementEvent el name => Nat.eqb el c && is_settling name
                    | _ => false
                    end) ss.

Definition all_preloaded (c : list (nat * nat)) (ss : list Stimulus) : bool :=
  forallb (fun x => preload_settled (fst x) ss) c.

Section BarrierVocabulary.

(** The promises awaited, what runs when all are settled, the created
    elements with their promises, and the handlers that were there
    before. *)
Variable links : list nat.
Variable body : Prog.
Variable c : list (nat * nat).
Variable old : list (nat * string * nat).

(** While the code is parked: [body] waits for the promises that are
    not settled yet, or is the one queued job when none is left. *)
Definition parked_or_queued (w : World) : Prop :=
  waiting w = parked_on links body w
  /\ microtasks w = match unsettled w links with [] => [body] | _ => [] end.

(** Between two tasks, while some preload is outstanding; [got] tells
    which created elements have had their load or error event. *)
Definition preload_pending (p : Page) (got : nat -> bool) (w : World) : Prop :=
  parked_or_queued w
  /\ unsettled w links <> []
  /\ page w = p
  /\ element_hooks w = old ++ preload_hooks c
  /\ (forall e q, In (e, q) c -> mem q (settled w) = got e).

(** Between two tasks, when [body] has run. *)
Definition preload_done (p : Page) (w : World) : Prop :=
  microtasks w = [] /\ waiting w = [] /\ page w = p.

End BarrierVocabulary.

(** The hook [h] is set off by the event [name] on element [el] and
    settles promise [x]. *)
Definition settles (el : nat) (name : string) (x : nat) (h : nat * string * nat) : bool :=
  match h with
  | (e, n, q) => Nat.eqb e el && String.eqb n name && Nat.eqb x q
  end.

(** A page without style sheet link. *)
Definition pageN : Page :=
  mkPage (mkDocument [] (Elem "head" [] [Sample.enabled; Sample.fallback "swap"])
            (Elem "body" [] []))
    (mkHistory [] (mkEntry None Sample.urlA) []) 0 false None 0 false [].

(** ** General facts about the event loop *)

(** Projections of a world that was built with the setters. *)
Ltac wsimpl :=
  cbn [page now fresh vars settled waiting microtasks timers listeners element_hooks
         fetches transitions set_page set_now next_fresh set_vars set_settled
         set_waiting set_microtasks set_timers set_listeners set_element_hooks
         set_fetches set_transitions].


Section LoopFacts.

Lemma drain_idle (fuel : nat) (w : World) :
  microtasks w = [] -> drain fuel w = w.
Proof.
  intros H. destruct fuel as [|fuel]; simpl; [reflexivity|]. now rewrite H.
Qed.

Lemma find_fetch_last (f : nat) (k : Response -> Prog)
  (l : list (nat * (Response -> Prog))) :
  (forall x, In x l -> fst x <> f) ->
  find_fetch f (l ++ [(f, k)]) = Some k.
Proof.
  induction l as [|[f' k'] l IH]; intros H; simpl.
  - now rewrite Nat.eqb_refl.
  - destruct (Nat.eqb_spec f' f) as [E|_].
    + exfalso. apply (H (f', k')); [now left | exact E].
    + apply IH. intros x Hx. apply H. now right.
Qed.

Lemma forget_fetch_last (f : nat) (k : Response -> Prog)
  (l : list (nat * (Response -> Prog))) :
  (forall x, In x l -> fst x <> f) ->
  filter (fun x => negb (Nat.eqb (fst x) f)) (l ++ [(f, k)]) = l.
Proof.
  induction l as [|[f' k'] l IH]; intros H; simpl.
  - now rewrite Nat.eqb_refl.
  - destruct (Nat.eqb_spec f' f) as [E|_].
    + exfalso. apply (H (f', k')); [now left | exact E].
    + simpl. f_equal. apply IH. intros x Hx. apply H. now right.
Qed.

Lemma mem_cons (x y : nat) (l : list nat) :
  mem x (y :: l) = (x =? y)%nat || mem x l.
Proof. reflexivity. Qed.

Lemma page_suspend (ps : list nat) (k : Prog) (w : World) :
  page (suspend ps k w) = page w.
Proof. unfold suspend. destruct (unsettled w ps); reflexivity. Qed.

Lemma page_resolve (q : nat) (w : World) : page (resolve q w) = page w.
Proof.
  unfold resolve. destruct (mem q (settled w)); [reflexivity|].
  destruct (release q (waiting w)). reflexivity.
Qed.

End LoopFacts.

(** ** History on a link click *)

Section Click.

Variable parseFromString : string -> Document.

Lemma click_listener_run (w : World) (ev : Event) (link : Anchor) :
  intercepted ev (page w) = Some link ->
  let p := page w in
  let i := currentHistoryIndex p in
  let y := win_scrollY p in
  page (run (click_listener parseFromString ev) w)
  = pushState (mkState (i + 1) y) (a_url link)
      (persistState (mkState i y)
         (set_currentHistoryIndex (i + 1)
            (record (EFetch (href (a_url link))) (record EPreventDefault p)))).
Proof.
  intros H p i y. unfold click_listener. simpl run. rewrite H.
  cbn -[Z.add Z.sub]. subst p i y.
  replace (currentHistoryIndex (page w) + 1 - 1) with (currentHistoryIndex (page w)) by lia.
  reflexivity.
Qed.


End Click.



(** ** Back and forward *)

Section Popstate.

Variable parseFromString : string -> Document.

(** C8: when [popstate] arrives on a page without the enabling marker,
    the listener asks for a reload and does nothing else: nothing is
    fetched, the document, the history and every pending piece of work
    are what they were. *)
Theorem popstate_without_marker_reloads (w : World) (ev : Event) :
  transitionEnabledOnThisPage (page w) = false ->
  let w' := run (popstate_listener parseFromString ev) w in
  w' = set_page (record EReload (page w)) w
  /\ calls (page w') = calls (page w) ++ [EReload]
  /\ document (page w') = document (page w)
  /\ history (page w') = history (page w)
  /\ fetches w' = fetches w
  /\ transitions w' = transitions w
  /\ microtasks w' = microtasks w.
Proof.
  intros H w'. subst w'. unfold popstate_listener. simpl run. rewrite H.
  cbn. repeat split; reflexivity.
Qed.

(** C7: a [popstate] whose entry carries a state starts a navigation in
    the direction [popstate_direction] gives for the entry's index and
    the in-memory index: forward exactly when the entry's index is
    strictly greater, back otherwise, equal indices included. *)
Theorem popstate_direction_rule (w : World) (ev : Event) (s0 s : State) :
  transitionEnabledOnThisPage (page w) = true ->
  ev_state ev = Some s0 ->
  history_state (page w) = Some s ->
  let cur := currentHistoryIndex (page w) in
  let dir := popstate_direction (index s) cur in
  run (popstate_listener parseFromString ev) w
  = run (Call (navigate parseFromString dir (href (location (page w))) (Some s))
           (Modify (set_currentHistoryIndex (index s)) Done)) w
  /\ (dir = forward <-> index s > cur)
  /\ (dir = back <-> index s <= cur)
  /\ (index s = cur -> dir = back).
Proof.
  intros He Hs Hh cur dir. subst dir.
  split.
  - unfold popstate_listener. simpl run. rewrite He, Hs, Hh. reflexivity.
  - unfold popstate_direction.
    destruct (Z.gtb_spec (index s) cur) as [G|G]; repeat split; intros;
      try reflexivity; try discriminate; lia.
Qed.

End Popstate.

Lemma popstate_without_marker_reloads_witness :
  let w := idle
             (set_document (mkDocument [] (Elem "head" [] []) (Elem "body" [] []))
                (Sample.pageA "animate")) in
  transitionEnabledOnThisPage (page w) = false
  /\ calls (page (run (popstate_listener (Sample.parse "animate")
                         (Sample.popstate_with (Some (mkState 1 0)))) w))
     = [EReload].
Proof.
  split; [reflexivity|].
  apply (popstate_without_marker_reloads (Sample.parse "animate")
           (idle
              (set_document (mkDocument [] (Elem "head" [] []) (Elem "body" [] []))
                 (Sample.pageA "animate")))
           (Sample.popstate_with (Some (mkState 1 0)))).
  reflexivity.
Defined.

(** The in-memory index is 2: an entry of index 3 is ahead, entries of
    index 1 and 2 are behind. *)
Lemma popstate_direction_rule_witness :
  let w := idle
             (set_history
                (mkHistory [] (mkEntry (Some (mkState 3 0)) Sample.urlB) [])
                (set_currentHistoryIndex 2 (Sample.pageA "animate"))) in
  transitionEnabledOnThisPage (page w) = true
  /\ (popstate_direction 3 2 = forward <-> 3 > 2).
Proof.
  split; [reflexivity|].
  apply (popstate_direction_rule (Sample.parse "animate")
           (idle
              (set_history
                 (mkHistory [] (mkEntry (Some (mkState 3 0)) Sample.urlB) [])
                 (set_currentHistoryIndex 2 (Sample.pageA "animate"))))
           (Sample.popstate_with (Some (mkState 3 0)))
           (mkState 3 0) (mkState 3 0));
    reflexivity.
Defined.

Example direction_2_to_3 : popstate_direction 3 2 = forward.
Proof. reflexivity. Qed.

Example direction_2_to_1 : popstate_direction 1 2 = back.
Proof. reflexivity. Qed.

Example direction_2_to_2 : popstate_direction 2 2 = back.
Proof. reflexivity. Qed.

(** ** A failed fetch *)

Section FetchFailure.

Variable parseFromString : string -> Document.

(** C5: when the response to the fetch that [navigate] issued is not ok,
    the only thing that happens is the assignment of [location.href]:
    the document, the scroll offset and the history are untouched, there
    is no second fetch, and nothing is left pending. *)
Theorem failed_fetch_falls_back (fuel : nat) (w : World) (dir : Direction)
  (u : string) (state : option State) (r : Response) :
  ok r = false ->
  microtasks w = [] ->
  (forall x, In x (fetches w) -> fst x <> fresh w) ->
  let w1 := run (navigate parseFromString dir u state) w in
  let w2 := step fuel (FetchResponds (fresh w) r) w1 in
  page w1 = record (EFetch u) (page w)
  /\ w2 = next_fresh
            (set_page (record (ELocationAssign u) (record (EFetch u) (page w))) w)
  /\ document (page w2) = document (page w)
  /\ win_scrollY (page w2) = win_scrollY (page w)
  /\ history (page w2) = history (page w)
  /\ calls (page w2) = calls (page w) ++ [EFetch u; ELocationAssign u]
  /\ fetches w2 = fetches w.
Proof.
  intros Hok Hm Hf w1 w2.
  assert (E : w2 = next_fresh
            (set_page (record (ELocationAssign u) (record (EFetch u) (page w))) w)).
  { subst w2 w1. unfold navigate, getHTML. simpl run. unfold step.
    cbn [fetches next_fresh set_fetches set_page].
    rewrite find_fetch_last by exact Hf. rewrite Hok. cbn [negb].
    rewrite forget_fetch_last by exact Hf.
    unfold task. simpl run. rewrite drain_idle by (cbn; exact Hm).
    destruct w; reflexivity. }
  split; [reflexivity|]. split; [exact E|]. rewrite E.
  cbn. rewrite <- app_assoc. repeat split; reflexivity.
Qed.

End FetchFailure.

(** A 500 answer to the fetch of page B after the click on its link. *)
Lemma failed_fetch_falls_back_witness :
  let w := idle (Sample.pageA "animate") in
  let r := mkResponse false "Internal Server Error" in
  ok r = false
  /\ document
       (page (step 5 (FetchResponds (fresh w) r)
                (run (navigate (Sample.parse "animate") forward "https://site.test/b" None) w)))
     = document (page w).
Proof.
  split; [reflexivity|].
  apply (failed_fetch_falls_back (Sample.parse "animate") 5
           (idle (Sample.pageA "animate")) forward "https://site.test/b" None
           (mkResponse false "Internal Server Error")).
  - reflexivity.
  - reflexivity.
  - intros x [].
Defined.

(** ** Pages that opt out of the fallback *)

Section OptOut.

Variable parseFromString : string -> Document.

Lemma step_nothing_installed (fuel : nat) (s : Stimulus) (w : World) :
  nothing_installed w ->
  nothing_installed (step fuel s w)
  /\ calls (page (step fuel s w)) = calls (page w)
  /\ document (page (step fuel s w)) = document (page w).
Proof.
  intros (Hl & Ht & Hf & Hh & Hv & Hm).
  assert (Hfire : forall t name ev p,
             fire fuel t name ev (set_page p w) = set_page p w).
  { intros t name ev p. unfold fire, listening. cbn [listeners set_page].
    rewrite Hl. reflexivity. }
  assert (Hkeep : forall p, nothing_installed (set_page p w)).
  { intros p. repeat split; assumption. }
  assert (Hsame : set_page (page w) w = w) by (destruct w; reflexivity).
  destruct s as [name ev|name|y|d|dt|t|f r|el name|i|i]; cbn [step].
  - rewrite <- Hsame, Hfire, Hsame. repeat split; assumption.
  - rewrite <- Hsame, Hfire, Hsame. repeat split; assumption.
  - rewrite Hfire. split; [apply Hkeep|]. split; reflexivity.
  - destruct (traverse d (history (page w))) as [h|].
    + rewrite Hfire. split; [apply Hkeep|]. split; reflexivity.
    + repeat split; assumption.
  - repeat split; assumption.
  - rewrite Ht. cbn. repeat split; assumption.
  - rewrite Hf. cbn. repeat split; assumption.
  - rewrite Hh. cbn. rewrite drain_idle by exact Hm. repeat split; assumption.
  - rewrite Hv. destruct i; cbn; repeat split; assumption.
  - rewrite Hv. destruct i; cbn; repeat split; assumption.
Qed.

Lemma steps_nothing_installed (fuel : nat) (ss : list Stimulus) (w : World) :
  nothing_installed w ->
  nothing_installed (steps fuel ss w)
  /\ calls (page (steps fuel ss w)) = calls (page w)
  /\ document (page (steps fuel ss w)) = document (page w).
Proof.
  revert w. induction ss as [|s ss IH]; intros w H; cbn [steps].
  - repeat split; try apply H.
  - destruct (step_nothing_installed fuel s w H) as (H1 & H2 & H3).
    destruct (IH _ H1) as (K1 & K2 & K3).
    split; [exact K1|]. split; congruence.
Qed.

(** C10: without [document.startViewTransition] and with the fallback
    marker reading 'none', running the script installs no listener and
    no timer.  Whatever the user and the browser do afterwards (clicks,
    hovers, scrolling, history traversal, time passing), the script asks
    nothing more of the browser: no default is prevented, nothing is
    fetched, no history state is written, and the document stays as it
    was. *)
Theorem fallback_none_installs_nothing (fuel : nat) (w : World) (ss : list Stimulus) :
  nothing_installed w ->
  has_startViewTransition (page w) = false ->
  getFallback (page w) = Some "none" ->
  let w1 := task fuel (main parseFromString) w in
  let w2 := steps fuel ss w1 in
  listeners w1 = [] /\ timers w1 = []
  /\ document (page w1) = document (page w)
  /\ listeners w2 = []
  /\ calls (page w2) = calls (page w1)
  /\ document (page w2) = document (page w).
Proof.
  intros Hn Hv Hf w1 w2.
  assert (Hw1 : nothing_installed w1 /\ document (page w1) = document (page w)).
  { subst w1. clear w2. unfold task, main, nothing_installed in *.
    destruct Hn as (Hl & Ht & Hfe & Hh & Htr & Hm).
    destruct w as [p n fr va se wa mi ti li eh fe tr].
    destruct p as [d [pa [st url] fu] y v c i sv l].
    unfold getFallback in Hf. cbn in *. subst.
    destruct st as [s|]; cbn; unfold getFallback; cbn; rewrite Hf; cbn;
      (rewrite drain_idle by reflexivity); cbn; repeat split. }
  destruct Hw1 as (Hw1 & Hd).
  destruct (steps_nothing_installed fuel ss w1 Hw1) as (K1 & K2 & K3).
  fold w2 in K1, K2, K3.
  repeat split; try apply Hw1; try apply K1; congruence.
Qed.

End OptOut.

Lemma fallback_none_installs_nothing_witness :
  let w := idle (Sample.pageA "none") in
  nothing_installed w
  /\ listeners
       (steps 5 [DocumentEvent "click" Sample.click_on_B; Scroll 300]
          (task 5 (main (Sample.parse "none")) w)) = [].
Proof.
  split; [repeat split|].
  apply (fallback_none_installs_nothing (Sample.parse "none") 5
           (idle (Sample.pageA "none"))
           [DocumentEvent "click" Sample.click_on_B; Scroll 300]).
  - repeat split.
  - reflexivity.
  - reflexivity.
Defined.

(** ** The throttled scroll listener *)

Section Throttle.

Variable parseFromString : string -> Document.

Lemma scroll_while_closed (fuel : nat) (t due : nat) (y : Z) (w : World) :
  throttle_closed t due w ->
  step fuel (Scroll y) w = set_page (set_win_scrollY y (page w)) w.
Proof.
  intros ((Hl & He & Hm) & Hv & Ht & Hn).
  cbn [step]. unfold fire.
  replace (listening TWindow "scroll" (set_page (set_win_scrollY y (page w)) w))
    with [scroll_listener] by (rewrite <- Hl; reflexivity).
  cbn [dispatch scroll_listener l_target l_name l_fun l_once l_cb listeners set_page].
  rewrite He. unfold task, throttled. simpl run.
  cbn [vars set_page]. rewrite Hv. cbn [truthy run].
  apply drain_idle. exact Hm.
Qed.

Lemma timer_while_closed (fuel : nat) (t due : nat) (t' : nat) (w : World) :
  throttle_closed t due w -> step fuel (TimerFires t') w = w.
Proof.
  intros (_ & _ & Ht & Hn). cbn [step]. rewrite Ht. unfold reset_timer.
  cbn [find t_id].
  destruct (Nat.eqb t t'); [|reflexivity].
  cbn [t_due]. destruct (Nat.leb_spec due (now w)); [lia|reflexivity].
Qed.

Lemma window_keeps_closed (fuel : nat) (t due : nat) (ss : list Stimulus) (w : World) :
  throttle_closed t due w ->
  scrolling_only ss = true ->
  (now w + elapsed ss < due)%nat ->
  let w' := steps fuel ss w in
  throttle_closed t due w'
  /\ calls (page w') = calls (page w)
  /\ history (page w') = history (page w)
  /\ (now w' = now w + elapsed ss)%nat.
Proof.
  revert w. induction ss as [|s ss IH]; intros w Hc Hs Hn; cbn [steps].
  - cbn [elapsed]. repeat split; try apply Hc. lia.
  - cbn [scrolling_only forallb] in Hs. apply andb_prop in Hs as [Hs1 Hs2].
    destruct s as [name ev|name|y|d|dt|t'|f r|el name|i|i]; try discriminate Hs1.
    + rewrite (scroll_while_closed fuel t due y w Hc).
      cbn [elapsed] in Hn.
      destruct (IH (set_page (set_win_scrollY y (page w)) w)) as (K1 & K2 & K3 & K4).
      * destruct Hc as ((Hl & He & Hm) & Hv & Ht & Hd). repeat split; assumption.
      * exact Hs2.
      * exact Hn.
      * repeat split; try apply K1; assumption.
    + cbn [step]. cbn [elapsed] in Hn.
      destruct (IH (set_now (now w + dt) w)) as (K1 & K2 & K3 & K4).
      * destruct Hc as ((Hl & He & Hm) & Hv & Ht & Hd).
        repeat split; try assumption. cbn [now set_now]. lia.
      * exact Hs2.
      * cbn [now set_now]. lia.
      * repeat split; try apply K1; try assumption.
        cbn [now set_now elapsed] in *. lia.
    + rewrite (timer_while_closed fuel t due t' w Hc).
      cbn [elapsed] in Hn.
      destruct (IH w Hc Hs2 Hn) as (K1 & K2 & K3 & K4).
      repeat split; try apply K1; assumption.
Qed.

(** What the scroll listener writes when its call goes through. *)
Lemma leading_scroll (fuel : nat) (w : World) (y : Z) :
  throttle_open w ->
  let w2 := step fuel (Scroll y) w in
  throttle_closed (fresh w) (now w + 300) w2
  /\ now w2 = now w
  /\ page w2 = match history_state (page w) with
               | Some s => persistState (mkState (index s) y) (set_win_scrollY y (page w))
               | None => set_win_scrollY y (page w)
               end.
Proof.
  intros ((Hl & He & Hm) & Hv & Ht) w2.
  assert (E : w2 = next_fresh
                     (set_timers [reset_timer (fresh w) (now w + 300)]
                        (set_vars ((6%nat, VBool true) :: vars w)
                           (set_page
                              match history_state (page w) with
                              | Some s => persistState (mkState (index s) y)
                                            (set_win_scrollY y (page w))
                              | None => set_win_scrollY y (page w)
                              end w)))).
  { subst w2. cbn [step]. unfold fire.
    replace (listening TWindow "scroll" (set_page (set_win_scrollY y (page w)) w))
      with [scroll_listener] by (rewrite <- Hl; reflexivity).
    cbn [dispatch scroll_listener l_target l_name l_fun l_once l_cb listeners set_page].
    rewrite He. unfold task, throttled, scroll_callback. simpl run.
    cbn [vars set_page]. rewrite Hv. cbn [truthy]. simpl run.
    unfold history_state in *. cbn [page set_page history set_win_scrollY] in *.
    destruct (e_state (current (history (page w)))) as [s|]; simpl run;
      cbn [timers set_vars set_page fresh now]; rewrite Ht; cbn [app];
      apply drain_idle; cbn; exact Hm. }
  rewrite E. split; [|split; reflexivity].
  repeat split; cbn; try assumption. lia.
Qed.

Lemma install_on_fresh_page (p : Page) :
  run (install parseFromString) (idle p)
  = mkWorld p 0 8 [(6%nat, VBool false)] [] [] [] [] (installed parseFromString) [] [] [].
Proof. reflexivity. Qed.

Lemma main_on_fresh_page (p : Page) :
  run (main parseFromString) (idle p)
  = if installs p then run (install parseFromString) (idle (prelude p))
    else idle (prelude p).
Proof.
  destruct p as [d [pa [st url] fu] y0 v c i sv l].
  unfold main, installs, prelude, getFallback, history_state.
  destruct st as [s|];
    cbn [run idle page set_page history current e_state set_currentHistoryIndex
           persistState replaceState record set_history
           set_supportsViewTransitions supportsViewTransitions
           document has_startViewTransition];
    match goal with
    | |- context [is_mode "none" ?f] => destruct (v || negb (is_mode "none" f))
    end; reflexivity.
Qed.

(** When the script has run on a fresh page that installs the listeners,
    the throttle is open and the current entry has a state. *)
Lemma script_opens_throttle (fuel : nat) (p : Page) :
  installs p = true ->
  let w := task fuel (main parseFromString) (idle p) in
  throttle_open w /\ exists s, history_state (page w) = Some s.
Proof.
  intros H w.
  assert (E : w = mkWorld (prelude p) 0 8 [(6%nat, VBool false)] [] [] [] []
                    (installed parseFromString) [] [] []).
  { subst w. unfold task. rewrite main_on_fresh_page, H, install_on_fresh_page.
    apply drain_idle. reflexivity. }
  rewrite E. split; [repeat split|].
  destruct p as [d [pa [st url] fu] y0 v c i sv l]. unfold prelude, history_state.
  destruct st as [s|]; cbn; eexists; reflexivity.
Qed.

(** C9: when the throttle is open, a scroll event writes the history
    state at most once, in the call itself: once, with the offset of that
    event, when the current entry has a state, and not at all when it has
    none.  The throttle is then closed: any number of further scroll
    events within the next 300ms write nothing, and nothing is written on
    their behalf when the window is over and the timer of the throttle
    fires.  After that the throttle is open again, as it was. *)
Theorem scroll_persist_is_throttled (fuel : nat) (w : World) (y : Z)
  (ss : list Stimulus) :
  throttle_open w ->
  scrolling_only ss = true ->
  (elapsed ss < 300)%nat ->
  let w2 := step fuel (Scroll y) w in
  let w3 := steps fuel ss w2 in
  let w4 := steps fuel [Elapse (300 - elapsed ss); TimerFires (fresh w)] w3 in
  calls (page w2)
  = calls (page w)
    ++ match history_state (page w) with
       | Some s => [EReplaceState (mkState (index s) y)]
       | None => []
       end
  /\ history_state (page w2)
     = option_map (fun s => mkState (index s) y) (history_state (page w))
  /\ calls (page w3) = calls (page w2)
  /\ history_state (page w3) = history_state (page w2)
  /\ calls (page w4) = calls (page w2)
  /\ throttle_open w4.
Proof.
  intros Ho Hs He w2 w3 w4.
  destruct (leading_scroll fuel w y Ho) as (Hc & Hn & Hp). fold w2 in Hc, Hn, Hp.
  destruct (window_keeps_closed fuel (fresh w) (now w + 300) ss w2 Hc Hs)
    as (Kc & Kcalls & Kh & Kn).
  { rewrite Hn. lia. }
  fold w3 in Kc, Kcalls, Kh, Kn.
  split.
  { rewrite Hp. unfold history_state.
    destruct (e_state (current (history (page w)))); cbn; [reflexivity|].
    now rewrite app_nil_r. }
  split.
  { rewrite Hp. unfold history_state.
    destruct (e_state (current (history (page w)))) eqn:E; cbn; [reflexivity|].
    exact E. }
  split; [exact Kcalls|].
  split; [unfold history_state; now rewrite Kh|].
  destruct Kc as ((Hl & Hex & Hm) & Hv & Ht & Hd).
  assert (E : w4 = set_vars ((6%nat, VBool false) :: vars w3)
                     (set_timers [] (set_now (now w3 + (300 - elapsed ss)) w3))).
  { subst w4. cbn [steps step]. cbn [timers set_now]. rewrite Ht. unfold reset_timer.
    cbn [find t_id]. rewrite Nat.eqb_refl. cbn [t_due now set_now].
    destruct (Nat.leb_spec (now w + 300) (now w3 + (300 - elapsed ss))); [|lia].
    unfold task. cbn [t_cb run filter t_id]. rewrite Nat.eqb_refl. cbn [negb].
    apply drain_idle. cbn. exact Hm. }
  rewrite E. split; [rewrite <- Kcalls; reflexivity|].
  repeat split; assumption.
Qed.

End Throttle.

(** The script has run on page A; three scroll events and 299ms after the
    leading one. *)
Lemma scroll_persist_is_throttled_witness :
  let w := task 5 (main (Sample.parse "animate")) (idle (Sample.pageA "animate")) in
  let ss := [Scroll 10; Elapse 100; Scroll 20; TimerFires 8; Elapse 199; Scroll 30] in
  throttle_open w
  /\ calls (page (steps 5 ss (step 5 (Scroll 5) w)))
     = calls (page (step 5 (Scroll 5) w)).
Proof.
  split; [repeat split|].
  refine (proj1 (proj2 (proj2
    (scroll_persist_is_throttled 5
       (task 5 (main (Sample.parse "animate")) (idle (Sample.pageA "animate")))
       5
       [Scroll 10; Elapse 100; Scroll 20; TimerFires 8; Elapse 199; Scroll 30]
       _ _ _)))).
  - repeat split.
  - reflexivity.
  - cbn. lia.
Defined.

(** On page A the leading call writes index 0 with the offset 5 of the
    event, and the throttle opens again after the window. *)
Example scroll_persist_on_page_A :
  let w := task 5 (main (Sample.parse "animate")) (idle (Sample.pageA "animate")) in
  calls (page (steps 5 [Scroll 5; Scroll 10; Elapse 300; TimerFires 8; Scroll 20] w))
  = [EReplaceState (mkState 0 0); EReplaceState (mkState 0 5);
     EReplaceState (mkState 0 20)].
Proof. vm_compute. reflexivity. Qed.

(** ** The head merge *)

Section HeadMerge.

Lemma Node_forall_ind (P : Node -> Prop) :
  (forall s, P (Text s)) ->
  (forall t a cs, Forall P cs -> P (Elem t a cs)) ->
  forall n, P n.
Proof.
  intros HT HE. fix IH 1. intros [t a cs|s].
  - apply HE. induction cs as [|c cs IHcs]; constructor; [apply IH | exact IHcs].
  - apply HT.
Qed.

Lemma find_first_none (inside : Node -> option Path) (p : Node -> bool)
  (l : list Node) (i : nat) :
  find_first inside p i l = None
  <-> Forall (fun c => p c = false /\ inside c = None) l.
Proof.
  revert i. induction l as [|c r IH]; intros i; cbn [find_first].
  - split; [constructor | reflexivity].
  - destruct (p c) eqn:Ep.
    + split; [discriminate|]. intros H. inversion H as [|? ? Hc Hr]; subst.
      destruct Hc as [H1 _]. congruence.
    + destruct (inside c) eqn:Ei.
      * split; [discriminate|]. intros H. inversion H as [|? ? Hc Hr]; subst.
        destruct Hc as [_ H1]. congruence.
      * rewrite IH. split.
        -- intros H. constructor; [split; assumption | exact H].
        -- intros H. inversion H. assumption.
Qed.

Section Searching.

Variable p : Node -> bool.
Hypothesis p_text : forall s, p (Text s) = false.
(** [p] looks at the name and the attributes of an element only. *)
Hypothesis p_shallow : forall t a cs cs', p (Elem t a cs) = p (Elem t a cs').

Lemma find_in_none (n : Node) :
  find_in p n = None <-> existsb p (descendants n) = false.
Proof.
  induction n as [s|t a cs IH] using Node_forall_ind.
  - cbn. split; reflexivity.
  - cbn [find_in]. rewrite find_first_none. unfold descendants. cbn [children_of].
    induction cs as [|c cs IHcs].
    + cbn. split; [reflexivity | constructor].
    + inversion IH as [|? ? Hc Hcs]; subst. specialize (IHcs Hcs).
      cbn [flat_map]. rewrite existsb_app, orb_false_iff, <- IHcs.
      split.
      * intros H. inversion H as [|? ? H12 H3]; subst. destruct H12 as [H1 H2].
        split; [|exact H3].
        destruct c as [t' a' cs'|s'].
        -- cbn [subtree existsb]. rewrite H1. apply Hc in H2. exact H2.
        -- reflexivity.
      * intros [H1 H2]. constructor; [|exact H2].
        destruct c as [t' a' cs'|s'].
        -- cbn [subtree existsb] in H1. apply orb_false_iff in H1 as [H1 H1'].
           split; [exact H1 | apply Hc; exact H1'].
        -- split; [apply p_text | reflexivity].
Qed.

Lemma exists_after_remove_nth (i : nat) (l : list Node) :
  existsb p (flat_map subtree (remove_nth i l)) = true ->
  existsb p (flat_map subtree l) = true.
Proof.
  revert i. induction l as [|c l IH]; intros i; [destruct i; trivial|].
  destruct i as [|i]; cbn [remove_nth flat_map]; rewrite !existsb_app.
  - intros H. rewrite H. apply orb_true_r.
  - intros H. apply orb_true_iff in H as [H|H].
    + rewrite H. reflexivity.
    + rewrite (IH i H). apply orb_true_r.
Qed.

Lemma exists_after_update_nth (f : Node -> Node) (i : nat) (l : list Node) :
  (forall c, existsb p (subtree (f c)) = true -> existsb p (subtree c) = true) ->
  existsb p (flat_map subtree (update_nth i f l)) = true ->
  existsb p (flat_map subtree l) = true.
Proof.
  intros Hf. revert i. induction l as [|c l IH]; intros i; [destruct i; trivial|].
  destruct i as [|i]; cbn [update_nth flat_map]; rewrite !existsb_app.
  - intros H. apply orb_true_iff in H as [H|H].
    + rewrite (Hf c H). reflexivity.
    + rewrite H. apply orb_true_r.
  - intros H. apply orb_true_iff in H as [H|H].
    + rewrite H. reflexivity.
    + rewrite (IH i H). apply orb_true_r.
Qed.

Lemma remove_at_keeps_root (q : Path) (t : string) (a : list (string * string))
  (cs : list Node) :
  exists cs', remove_at q (Elem t a cs) = Elem t a cs'.
Proof.
  destruct q as [|i [|j q]]; eexists; reflexivity.
Qed.

(** Removing a node brings no new match among the descendants. *)
Lemma exists_after_remove_at (q : Path) (n : Node) :
  existsb p (descendants (remove_at q n)) = true ->
  existsb p (descendants n) = true.
Proof.
  revert n. induction q as [|i q IH]; intros n; [trivial|].
  destruct n as [t a cs|s]; [|destruct q; trivial].
  destruct q as [|j q].
  - cbn [remove_at with_children]. unfold descendants. cbn [children_of].
    apply exists_after_remove_nth.
  - change (remove_at (i :: j :: q) (Elem t a cs))
      with (Elem t a (update_nth i (remove_at (j :: q)) cs)).
    unfold descendants at 1 2. cbn [children_of].
    apply exists_after_update_nth.
    intros [t' a' cs'|s'].
    + destruct (remove_at_keeps_root (j :: q) t' a' cs') as [cs'' E].
      specialize (IH (Elem t' a' cs')). rewrite E in IH |- *.
      cbn [subtree existsb]. rewrite (p_shallow t' a' cs'' cs').
      intros H. apply orb_true_iff in H as [H|H].
      * rewrite H. reflexivity.
      * apply orb_true_iff. right. apply IH. exact H.
    + destruct q; trivial.
Qed.

Lemma find_in_after_remove_at (q x : Path) (n : Node) :
  find_in p (remove_at q n) = Some x -> exists y, find_in p n = Some y.
Proof.
  intros H. destruct (find_in p n) as [y|] eqn:E; [now exists y|].
  apply find_in_none in E.
  assert (K : existsb p (descendants (remove_at q n)) = true).
  { destruct (existsb p (descendants (remove_at q n))) eqn:E'; [reflexivity|].
    apply find_in_none in E'. congruence. }
  apply exists_after_remove_at in K. congruence.
Qed.

End Searching.

Lemma matches_text (sel : Selector) (s : string) : matches sel (Text s) = false.
Proof. reflexivity. Qed.

Lemma matches_shallow (sel : Selector) (t : string) (a : list (string * string))
  (cs cs' : list Node) :
  matches sel (Elem t a cs) = matches sel (Elem t a cs').
Proof. reflexivity. Qed.

Lemma querySelector_after_remove_at (sel : Selector) (q x : Path) (n : Node) :
  querySelector sel (remove_at q n) = Some x -> exists y, querySelector sel n = Some y.
Proof.
  apply find_in_after_remove_at; [apply matches_text | apply matches_shallow].
Qed.

(** What finds an equivalent after a removal found one before it. *)
Lemma equivalent_after_remove_at (q : Path) (doc_head el : Node) :
  has_equivalent (remove_at q doc_head) el = true ->
  has_equivalent doc_head el = true.
Proof.
  unfold has_equivalent, persistedHeadElement.
  set (byId := fun h =>
                 match getAttribute PERSIST_ATTR el with
                 | Some i => if nonempty i then querySelector [[SAttrEq PERSIST_ATTR i]] h
                             else None
                 | None => None
                 end).
  change (match
           match byId (remove_at q doc_head) with
           | Some q0 => Some q0
           | None =>
               if matches [stylesheet_link] el
               then querySelector
                      [stylesheet_link
                       ++ [SAttrEq "href" (interpolate (getAttribute "href" el))]]
                      (remove_at q doc_head)
               else None
           end
         with Some _ => true | None => false end = true ->
         match
           match byId doc_head with
           | Some q0 => Some q0
           | None =>
               if matches [stylesheet_link] el
               then querySelector
                      [stylesheet_link
                       ++ [SAttrEq "href" (interpolate (getAttribute "href" el))]]
                      doc_head
               else None
           end
         with Some _ => true | None => false end = true).
  assert (Hid : forall x, byId (remove_at q doc_head) = Some x ->
                          exists y, byId doc_head = Some y).
  { unfold byId. intros x. destruct (getAttribute PERSIST_ATTR el) as [i|]; [|discriminate].
    destruct (nonempty i); [|discriminate]. apply querySelector_after_remove_at. }
  destruct (byId (remove_at q doc_head)) as [x|] eqn:E1.
  - destruct (Hid x eq_refl) as [y ->]. reflexivity.
  - destruct (byId doc_head) as [y|]; [reflexivity|].
    destruct (matches [stylesheet_link] el); [|discriminate].
    match goal with
    | |- context [querySelector ?sel (remove_at q doc_head)] =>
        destruct (querySelector sel (remove_at q doc_head)) as [x|] eqn:E2;
        [ destruct (querySelector_after_remove_at sel q x doc_head E2) as [y ->];
          reflexivity
        | discriminate ]
    end.
Qed.

Lemma swap_head_app (pre post : list Node) (doc_head : Node) :
  swap_head (pre ++ post) doc_head
  = (fst (swap_head pre doc_head) ++ fst (swap_head post (snd (swap_head pre doc_head))),
      snd (swap_head post (snd (swap_head pre doc_head)))).
Proof.
  revert doc_head. induction pre as [|el pre IH]; intros doc_head.
  - cbn. destruct (swap_head post doc_head). reflexivity.
  - cbn [app swap_head]. destruct (is_element el).
    + destruct (persistedHeadElement doc_head el) as [q|].
      * rewrite IH. destruct (swap_head pre (remove_at q doc_head)). reflexivity.
      * apply IH.
    + rewrite IH. destruct (swap_head pre doc_head). reflexivity.
Qed.

(** What has no equivalent in the incoming head as it was parsed has
    none in the incoming head as the loop leaves it. *)
Lemma no_equivalent_later (pre : list Node) (doc_head el : Node) :
  has_equivalent doc_head el = false ->
  has_equivalent (snd (swap_head pre doc_head)) el = false.
Proof.
  revert doc_head. induction pre as [|x pre IH]; intros doc_head H; [exact H|].
  cbn [swap_head]. destruct (is_element x).
  - destruct (persistedHeadElement doc_head x) as [q|].
    + specialize (IH (remove_at q doc_head)).
      destruct (swap_head pre (remove_at q doc_head)) as [k h]. apply IH.
      destruct (has_equivalent (remove_at q doc_head) el) eqn:E; [|reflexivity].
      apply equivalent_after_remove_at in E. congruence.
    + apply IH. exact H.
  - specialize (IH doc_head H). destruct (swap_head pre doc_head). exact IH.
Qed.

(** C6 (amended): the head loop goes through the children of the live
    head in order.  When it reaches the element [el], after the children
    [pre], the incoming head is [h1], what [pre] left of it.  If [el]
    has an equivalent in [h1], [el] is kept and that equivalent is
    removed from the incoming head; if not, [el] is removed.  An element
    without equivalent in the incoming head as parsed has none in [h1],
    so it is removed.  Afterwards the element children that remain in
    the incoming head are appended after the children kept. *)
Theorem head_merge (pre post : list Node) (el : Node) (live_head doc_head : Node) :
  is_element el = true ->
  let k1 := fst (swap_head pre doc_head) in
  let h1 := snd (swap_head pre doc_head) in
  (forall newEl,
      persistedHeadElement h1 el = Some newEl ->
      swap_head (pre ++ el :: post) doc_head
      = (k1 ++ el :: fst (swap_head post (remove_at newEl h1)),
          snd (swap_head post (remove_at newEl h1))))
  /\ (persistedHeadElement h1 el = None ->
      swap_head (pre ++ el :: post) doc_head
      = (k1 ++ fst (swap_head post h1), snd (swap_head post h1)))
  /\ (has_equivalent doc_head el = false -> persistedHeadElement h1 el = None)
  /\ (is_element live_head = true ->
      children_of (merge_head live_head doc_head)
      = fst (swap_head (children_of live_head) doc_head)
        ++ element_children (snd (swap_head (children_of live_head) doc_head))).
Proof.
  intros Hel k1 h1. repeat split.
  - intros newEl H. rewrite swap_head_app. fold k1 h1.
    cbn [swap_head]. rewrite Hel, H.
    destruct (swap_head post (remove_at newEl h1)). reflexivity.
  - intros H. rewrite swap_head_app. fold k1 h1.
    cbn [swap_head]. rewrite Hel, H. reflexivity.
  - intros H. apply (no_equivalent_later pre) in H. fold h1 in H.
    unfold has_equivalent in H. destruct (persistedHeadElement h1 el); [discriminate|].
    reflexivity.
  - intros Hl. unfold merge_head.
    destruct (swap_head (children_of live_head) doc_head) as [kept h].
    destruct live_head; [reflexivity | discriminate].
Qed.

End HeadMerge.

(** The live head holds the same style sheet twice, the incoming head
    once: the second link has an equivalent in the incoming head and goes
    all the same. *)
Lemma head_merge_witness :
  let a := Sample.sheet "/a.css" in
  let b := Sample.sheet "/b.css" in
  is_element a = true
  /\ swap_head ([a] ++ a :: [b]) (Elem "head" [] [a; b])
     = ([a; b], Elem "head" [] []).
Proof.
  split; [reflexivity|].
  refine (eq_trans
            (proj1 (proj2
               (head_merge [Sample.sheet "/a.css"] [Sample.sheet "/b.css"]
                  (Sample.sheet "/a.css") (Elem "head" [] [])
                  (Elem "head" [] [Sample.sheet "/a.css"; Sample.sheet "/b.css"]) _)) _) _);
    reflexivity.
Defined.

Lemma duplicate_stylesheet_is_dropped :
  ~ keeps_exactly_the_equivalents
      [Sample.sheet "/a.css"; Sample.sheet "/a.css"]
      (Elem "head" [] [Sample.sheet "/a.css"]).
Proof.
  unfold keeps_exactly_the_equivalents. vm_compute. discriminate.
Qed.

(** ** The style sheet preload barrier *)

Lemma exists_in_doc_existsb (sel : Selector) (d : Document) :
  exists_in_doc sel d = existsb (matches sel) (subtree (documentElement d)).
Proof.
  unfold exists_in_doc, doc_querySelector, querySelector.
  change (subtree (documentElement d))
    with (documentElement d :: descendants (documentElement d)).
  cbn [existsb]. destruct (matches sel (documentElement d)); [reflexivity|].
  cbn [orb].
  destruct (find_in (matches sel) (documentElement d)) as [q|] eqn:E.
  - destruct (existsb (matches sel) (descendants (documentElement d))) eqn:E';
      [reflexivity|].
    apply (find_in_none (matches sel) (matches_text sel)) in E'. congruence.
  - apply (find_in_none (matches sel) (matches_text sel)) in E. now rewrite E.
Qed.

(** Whatever the incoming link is, a page with some style sheet link
    passes for one that has it already. *)
Lemma any_stylesheet_stands_for_all (el : Node) (p : Page) :
  exists_in_doc [stylesheet_link] (document p) = true ->
  already_on_page el p = true.
Proof.
  unfold already_on_page. rewrite !exists_in_doc_existsb.
  generalize (subtree (documentElement (document p))). intros l H.
  induction l as [|n l IH]; [discriminate|].
  cbn [existsb] in *. apply orb_true_iff in H as [H|H].
  - apply orb_true_iff. left. unfold matches in *. cbn [existsb] in *.
    apply andb_true_iff in H as [H1 H2]. rewrite H1. cbn [andb].
    rewrite orb_false_r in H2. rewrite H2. apply orb_true_r.
  - apply orb_true_iff. right. now apply IH.
Qed.

(** On such a page the preload loop creates nothing and adds no promise
    to wait for. *)
Lemma preload_skips_everything (els : list Node) (links : list nat)
  (k : list nat -> Prog) (w : World) :
  exists_in_doc [stylesheet_link] (document (page w)) = true ->
  run (preload els links k) w = run (k links) w.
Proof.
  intros H. induction els as [|el els IH]; [reflexivity|].
  cbn [preload run]. rewrite (any_stylesheet_stands_for_all el (page w) H).
  exact IH.
Qed.

(** C2, at a failing input: page A has the style sheet /a.css, page B the
    style sheet /b.css, which is nowhere on page A.  Because page A has
    some style sheet link, the test of the preload loop takes /b.css for a
    link that is on the page already: no preload link is created for it,
    nothing is awaited, and the swap takes place in the very task in which
    the response arrives. *)
Theorem new_stylesheet_is_not_preloaded :
  let p := Sample.pageA "swap" in
  let incoming := querySelectorAll [stylesheet_link] (head (Sample.docB "swap")) in
  let w := steps 20 [DocumentEvent "click" Sample.click_on_B;
                     FetchResponds 8 (mkResponse true "B")]
             (task 20 (main (Sample.parse "swap")) (idle p)) in
  incoming = [Sample.sheet "/b.css"]
  /\ exists_in_doc [stylesheet_link ++ [SAttrEq "href" "/b.css"]] (document p) = false
  /\ already_on_page (Sample.sheet "/b.css") p = true
  /\ (forall k, run (preload incoming [] k) (idle p) = run (k []) (idle p))
  /\ element_hooks w = []
  /\ calls (page w)
     = [EReplaceState (mkState 0 0); EPreventDefault; EFetch "https://site.test/b";
        EReplaceState (mkState 0 120); EPushState (mkState 1 120) "https://site.test/b";
        EBodyReplaced; EScrollTo 0; EDispatch "astro:beforeload";
        EScriptInserted (Sample.inline_script "b()"); EDispatch "astro:load"].
Proof.
  cbv zeta.
  split; [vm_compute; reflexivity|].
  split; [vm_compute; reflexivity|].
  split; [vm_compute; reflexivity|].
  split; [intros k; reflexivity|].
  split; vm_compute; reflexivity.
Qed.

(** ** The order of swap, scripts and load signal *)

(** With fallback 'animate' and no preload to wait for, the call of
    [updateDOM] returns with its promise settled and the swap still to
    come: no call has been made and the body is the one of the page being
    left. *)
Lemma animate_returns_before_swap (parseFromString : string -> Document)
  (dir : Direction) (html : string) (state : option State) (finished : nat)
  (w : World) :
  exists_in_doc [stylesheet_link] (document (page w)) = true ->
  let w' := run (updateDOM parseFromString dir html state (Some "animate") finished) w in
  mem finished (settled w') = true
  /\ calls (page w') = calls (page w)
  /\ body (document (page w')) = body (document (page w))
  /\ head (document (page w')) = head (document (page w)).
Proof.
  intros H w'.
  assert (E : exists w1, w' = resolve finished w1
                         /\ settled w1 = settled w
                         /\ calls (page w1) = calls (page w)
                         /\ body (document (page w1)) = body (document (page w))
                         /\ head (document (page w1)) = head (document (page w))).
  { subst w'. unfold updateDOM.
    rewrite (preload_skips_everything _ _ _ _ H).
    change (is_mode "animate" (Some "animate")) with true. cbv iota.
    cbn [run]. eexists. split; [reflexivity|].
    unfold add_listener. wsimpl. repeat split. }
  destruct E as (w1 & -> & Hs & Hc & Hb & Hh).
  rewrite page_resolve. split; [|repeat split; assumption].
  unfold resolve. destruct (mem finished (settled w1)) eqn:E; [exact E|].
  destruct (release finished (waiting w1)). wsimpl.
  rewrite mem_cons, Nat.eqb_refl. reflexivity.
Qed.

(** C3, at a failing input: no [document.startViewTransition], fallback
    'animate', and no animation on the page, so that the swap is made by
    the zero-delay timer (timer 14).  When the response has arrived and
    before that timer fires, the transition marker has been removed, the
    script of the page being left has been inserted anew and the load
    signal has been sent, while the body is still that of page A.  The
    swap comes afterwards, and the script of page B is never inserted. *)
Theorem load_signal_precedes_animated_swap :
  let w1 := steps 20 [DocumentEvent "click" Sample.click_on_B;
                      FetchResponds 8 (mkResponse true "B")]
              (task 20 (main (Sample.parse "animate")) (idle (Sample.pageA "animate"))) in
  let w2 := step 20 (TimerFires 14) w1 in
  calls (page w1)
  = [EReplaceState (mkState 0 0); EPreventDefault; EFetch "https://site.test/b";
     EReplaceState (mkState 0 120); EPushState (mkState 1 120) "https://site.test/b";
     EScriptInserted (Sample.inline_script "a()"); EDispatch "astro:load"]
  /\ body (document (page w1)) = body (Sample.docA "animate")
  /\ map t_id (timers w1) = [14%nat]
  /\ microtasks w1 = [] /\ waiting w1 = []
  /\ calls (page w2)
     = calls (page w1) ++ [EBodyReplaced; EScrollTo 0; EDispatch "astro:beforeload"]
  /\ body (document (page w2)) = body (Sample.docB "animate").
Proof.
  cbv zeta.
  split; [vm_compute; reflexivity|].
  split; [vm_compute; reflexivity|].
  split; [vm_compute; reflexivity|].
  split; [vm_compute; reflexivity|].
  split; [vm_compute; reflexivity|].
  split; vm_compute; reflexivity.
Qed.

(** With fallback 'swap' the same navigation swaps first. *)
Example swap_fallback_order :
  calls (page (steps 20 [DocumentEvent "click" Sample.click_on_B;
                         FetchResponds 8 (mkResponse true "B")]
                 (task 20 (main (Sample.parse "swap")) (idle (Sample.pageA "swap")))))
  = [EReplaceState (mkState 0 0); EPreventDefault; EFetch "https://site.test/b";
     EReplaceState (mkState 0 120); EPushState (mkState 1 120) "https://site.test/b";
     EBodyReplaced; EScrollTo 0; EDispatch "astro:beforeload";
     EScriptInserted (Sample.inline_script "b()"); EDispatch "astro:load"].
Proof. vm_compute. reflexivity. Qed.

(** ** Running the scripts again *)

Section RunScripts.

Lemma calls_insert_all (l : list Node) (p : Page) :
  calls (insert_all l p) = calls p ++ map EScriptInserted l.
Proof.
  revert p. induction l as [|s l IH]; intros p; cbn.
  - now rewrite app_nil_r.
  - unfold insert_all in IH. rewrite IH. cbn. now rewrite <- app_assoc.
Qed.

Lemma document_insert_all (l : list Node) (p : Page) :
  document (insert_all l p) = document p.
Proof.
  revert p. induction l as [|s l IH]; intros p; cbn; [reflexivity|].
  unfold insert_all in IH. now rewrite IH.
Qed.

(** The loop inserts every script before it hands over to [k]. *)
Lemma runScripts_loop_run (l : list Node) (wait : nat) (k : nat -> Prog) (w : World) :
  exists w' wait',
    run (runScripts_loop l wait k) w = run (k wait') w'
    /\ page w' = insert_all l (page w).
Proof.
  revert wait w. induction l as [|script rest IH]; intros wait w.
  - exists w, wait. split; reflexivity.
  - cbn [runScripts_loop run]. destruct (has_src script).
    + unfold then_. cbn [run].
      match goal with
      | |- exists _ _, run (runScripts_loop rest ?q k) ?w1 = _ /\ _ =>
          destruct (IH q w1) as (w' & wait' & E & Hp)
      end.
      exists w', wait'. split; [exact E|]. rewrite Hp.
      cbn [page set_page]. rewrite page_suspend. reflexivity.
    + cbn [run].
      match goal with
      | |- exists _ _, run (runScripts_loop rest ?q k) ?w1 = _ /\ _ =>
          destruct (IH q w1) as (w' & wait' & E & Hp)
      end.
      exists w', wait'. split; [exact E|]. rewrite Hp. reflexivity.
Qed.

(** [runScripts] goes through the scripts of the document in one run,
    without suspending. *)
Lemma runScripts_pass (w : World) (k : Prog) :
  let w' := run (runScripts (fun wait => Await [wait] k)) w in
  calls (page w')
  = calls (page w) ++ map EScriptInserted (scripts (document (page w)))
  /\ document (page w') = document (page w).
Proof.
  intros w'. subst w'. unfold runScripts. cbn [run].
  match goal with
  | |- context [run (runScripts_loop ?l ?q ?k') ?w1] =>
      destruct (runScripts_loop_run l q k' w1) as (w2 & wait' & E & Hp)
  end.
  rewrite page_resolve in Hp. cbn [page next_fresh] in Hp.
  rewrite page_resolve in E |- *. cbn [page next_fresh] in E |- *.
  rewrite E. cbn [run]. rewrite page_suspend, Hp.
  split; [apply calls_insert_all | apply document_insert_all].
Qed.

End RunScripts.

Local Close Scope Z_scope.

(** ** The promise that [runScripts] returns *)

Section LoadBarrier.

Lemma ascending_weaken (f f' : nat) (c : list (nat * nat * nat)) :
  (f' <= f)%nat -> ascending f c -> ascending f' c.
Proof.
  intros Hle H. destruct H; constructor; [lia | assumption].
Qed.

Lemma chain_ascending (l : list Node) (f : nat) : ascending f (chain l f).
Proof.
  revert f. induction l as [|s l IH]; intros f; cbn [chain]; [constructor|].
  destruct (has_src s).
  - constructor; [lia | apply IH].
  - apply ascending_weaken with (S f); [lia | apply IH].
Qed.

Lemma ascending_In (f : nat) (c : list (nat * nat * nat)) (e p q : nat) :
  ascending f c -> In (e, p, q) c -> (f <= e)%nat /\ p = S e /\ q = S (S e).
Proof.
  induction 1 as [f|f e0 c Hle Hc IH]; intros Hin; [destruct Hin|].
  destruct Hin as [E|Hin].
  - inversion E; subst. lia.
  - destruct (IH Hin) as (H1 & H2 & H3). lia.
Qed.

Lemma mem_false_unsettled (w : World) (q : nat) :
  mem q (settled w) = false -> unsettled w [q] = [q].
Proof. intros H. unfold unsettled. cbn. now rewrite H. Qed.

Lemma mem_true_unsettled (w : World) (q : nat) :
  mem q (settled w) = true -> unsettled w [q] = [].
Proof. intros H. unfold unsettled. cbn. now rewrite H. Qed.

(** The loop, started with a pending [wait]. *)
Lemma loop_pending (l : list Node) (k : nat -> Prog) :
  forall (wait : nat) (w : World),
    mem wait (settled w) = false ->
    (forall x, (fresh w <= x)%nat -> mem x (settled w) = false) ->
    run (runScripts_loop l wait k) w
    = run (k (last_wait wait (chain l (fresh w))))
        (after_loop l w (mids wait (chain l (fresh w))) []).
Proof.
  induction l as [|s l IH]; intros wait w Hw Hf.
  - cbn. unfold after_loop. cbn. rewrite !app_nil_r. destruct w; reflexivity.
  - cbn [runScripts_loop run chain fresh_after]. destruct (has_src s) eqn:Es.
    + unfold then_. cbn [run]. unfold suspend.
      cbn [fresh next_fresh set_element_hooks settled].
      rewrite mem_false_unsettled by (wsimpl; exact Hw).
      rewrite IH.
      * cbn [fresh set_page set_waiting next_fresh set_element_hooks page waiting].
        cbn [last_wait mids]. f_equal.
        unfold after_loop. cbn. unfold insert_all. cbn. rewrite Es.
        rewrite <- !app_assoc. reflexivity.
      * wsimpl. apply Hf. lia.
      * wsimpl. intros x Hx. apply Hf. lia.
    + cbn [run]. rewrite IH.
      * cbn [fresh set_page next_fresh]. f_equal.
        unfold after_loop. cbn. unfold insert_all. cbn. rewrite Es. reflexivity.
      * wsimpl. exact Hw.
      * wsimpl. intros x Hx. apply Hf. lia.
Qed.

(** The loop, started with a settled [wait]: the first chained reaction
    is queued, the others are parked one behind the other. *)
Lemma loop_settled (l : list Node) (k : nat -> Prog) :
  forall (wait : nat) (w : World),
    mem wait (settled w) = true ->
    (forall x, (fresh w <= x)%nat -> mem x (settled w) = false) ->
    run (runScripts_loop l wait k) w
    = run (k (last_wait wait (chain l (fresh w))))
        (after_loop l w
           (match chain l (fresh w) with
            | [] => []
            | (_, _, q) :: c => mids q c
            end)
           (match chain l (fresh w) with
            | [] => []
            | (_, p, q) :: _ => [chained p q]
            end)).
Proof.
  induction l as [|s l IH]; intros wait w Hw Hf.
  - cbn. unfold after_loop. cbn. rewrite !app_nil_r. destruct w; reflexivity.
  - cbn [runScripts_loop run chain fresh_after]. destruct (has_src s) eqn:Es.
    + unfold then_. cbn [run]. unfold suspend.
      cbn [fresh next_fresh set_element_hooks settled].
      rewrite mem_true_unsettled by (wsimpl; exact Hw).
      rewrite loop_pending.
      * wsimpl. cbn [last_wait]. f_equal.
        unfold after_loop. cbn. unfold insert_all. cbn. rewrite Es.
        rewrite <- !app_assoc. reflexivity.
      * wsimpl. apply Hf. lia.
      * wsimpl. intros x Hx. apply Hf. lia.
    + cbn [run]. rewrite IH.
      * wsimpl. f_equal.
        unfold after_loop. cbn. unfold insert_all. cbn. rewrite Es. reflexivity.
      * wsimpl. exact Hw.
      * wsimpl. intros x Hx. apply Hf. lia.
Qed.

(** The world when [runScripts] returns and [navigate] awaits. *)
Lemma runScripts_run (w : World) :
  waiting w = [] ->
  (forall x, (fresh w <= x)%nat -> mem x (settled w) = false) ->
  let l := scripts (document (page w)) in
  let c := chain l (S (fresh w)) in
  run (runScripts (fun wait => Await [wait] load_signal)) w
  = mkWorld (insert_all l (page w)) (now w) (fresh_after l (S (fresh w))) (vars w)
      (fresh w :: settled w)
      (match c with
       | [] => []
       | (_, _, q) :: c' => links q c'
       end)
      (microtasks w ++ match c with
                       | [] => [load_signal]
                       | (_, p, q) :: _ => [chained p q]
                       end)
      (timers w) (listeners w) (element_hooks w ++ hooks_of c) (fetches w)
      (transitions w).
Proof.
  intros Hwait Hf l c. unfold runScripts. cbn [run].
  unfold resolve. wsimpl. rewrite (Hf (fresh w)) by lia. rewrite Hwait.
  cbn [release]. wsimpl. rewrite app_nil_r.
  rewrite loop_settled.
  - wsimpl. fold l. cbn [run]. unfold suspend, unsettled, after_loop. wsimpl.
    fold l. subst c. generalize (chain_ascending l (S (fresh w))).
    generalize (chain l (S (fresh w))). intros c Hc.
    destruct c as [|[[e p] q] c'].
    + cbn [last_wait filter mem existsb]. rewrite Nat.eqb_refl. cbn [orb negb].
      wsimpl. rewrite !app_nil_r. reflexivity.
    + cbn [last_wait].
      assert (Hq : mem (last_wait q c') (fresh w :: settled w) = false).
      { assert (Hlast : forall f q0 c0, ascending f c0 -> (q0 < f)%nat ->
                                        (q0 <= last_wait q0 c0)%nat).
        { clear. intros f q0 c0 H. revert q0.
          induction H as [f|f e c Hle Hc IH]; intros q0 Hq0; cbn [last_wait]; [lia|].
          specialize (IH (S (S e))). lia. }
        inversion Hc as [|f e' c'' Hle Hc']; subst.
        specialize (Hlast _ (S (S e)) _ Hc' ltac:(lia)).
        cbn [mem existsb]. destruct (Nat.eqb_spec (last_wait (S (S e)) c') (fresh w)); [lia|].
        apply Hf. lia. }
      cbn [filter]. rewrite Hq. cbn [negb]. wsimpl. cbn [app].
      unfold links. reflexivity.
  - wsimpl. cbn [mem existsb]. now rewrite Nat.eqb_refl.
  - wsimpl. intros x Hx. cbn [mem existsb].
    destruct (Nat.eqb_spec x (fresh w)); [lia|]. apply Hf. lia.
Qed.

(** ** Settling a promise that nothing parked waits for *)

Lemma release_untouched (q : nat) (ws : list (list nat * Prog)) :
  (forall ps k, In (ps, k) ws -> exists x, ps = [x] /\ x <> q) ->
  release q ws = (ws, []).
Proof.
  induction ws as [|[ps k] ws IH]; intros H; [reflexivity|].
  cbn [release]. rewrite IH by (intros ps' k' Hin; apply (H ps' k'); now right).
  destruct (H ps k (or_introl eq_refl)) as (x & -> & Hx).
  cbn [filter]. destruct (Nat.eqb_spec x q); [contradiction|]. reflexivity.
Qed.

Lemma release_app (q : nat) (a b : list (list nat * Prog)) :
  release q (a ++ b)
  = (fst (release q a) ++ fst (release q b), snd (release q a) ++ snd (release q b)).
Proof.
  induction a as [|[ps k] a IH]; cbn [app release].
  - destruct (release q b). reflexivity.
  - rewrite IH. destruct (release q a) as [ka ga], (release q b) as [kb gb].
    cbn [fst snd]. destruct (filter (fun x => negb (x =? q)%nat) ps); reflexivity.
Qed.

Lemma last_wait_bound (f q : nat) (c : list (nat * nat * nat)) :
  ascending f c -> (q < f)%nat -> (q <= last_wait q c)%nat.
Proof.
  intros H. revert q.
  induction H as [f|f e c Hle Hc IH]; intros q Hq; cbn [last_wait]; [lia|].
  specialize (IH (S (S e))). lia.
Qed.

(** Everything parked behind [q] waits for one promise, [q] or a later
    one. *)
Lemma links_wait (f q : nat) (c : list (nat * nat * nat)) :
  ascending f c -> (q < f)%nat ->
  forall ps k, In (ps, k) (links q c) -> exists x, ps = [x] /\ (q <= x)%nat.
Proof.
  intros H. revert q. unfold links.
  induction H as [f|f e c Hle Hc IH]; intros q Hq ps k Hin.
  - cbn in Hin. destruct Hin as [E|[]]. inversion E; subst. exists q. split; [reflexivity|lia].
  - cbn [mids last_wait app] in Hin. destruct Hin as [E|Hin].
    + inversion E; subst. exists q. split; [reflexivity|lia].
    + destruct (IH (S (S e)) ltac:(lia) ps k Hin) as (x & -> & Hx).
      exists x. split; [reflexivity|lia].
Qed.

Lemma release_links_other (f q x : nat) (c : list (nat * nat * nat)) :
  ascending f c -> (q < f)%nat -> (x < q)%nat ->
  release x (links q c) = (links q c, []).
Proof.
  intros H Hq Hx. apply release_untouched. intros ps k Hin.
  destruct (links_wait f q c H Hq ps k Hin) as (y & -> & Hy).
  exists y. split; [reflexivity|lia].
Qed.

(** ** The chain of reactions *)

Lemma drain_one (fuel : nat) (w : World) (j : Prog) (r : list Prog) :
  microtasks w = j :: r ->
  drain (S fuel) w = drain fuel (run j (set_microtasks r w)).
Proof. intros H. cbn [drain]. now rewrite H. Qed.

(** Settling [q] lets the reactions run one after the other, up to the
    first script whose load event is still outstanding; the load signal
    is sent when there is none. *)
Lemma cascade (got : list nat) (c : list (nat * nat * nat)) :
  forall (q f : nat) (w : World) (fuel : nat),
    ascending f c -> (q < f)%nat ->
    waiting w = links q c ->
    microtasks w = [Resolve q Done] ->
    mem q (settled w) = false ->
    (forall e p q', In (e, p, q') c -> mem p (settled w) = mem e got) ->
    (forall e p q', In (e, p, q') c -> mem q' (settled w) = false) ->
    (2 * List.length c + 2 <= fuel)%nat ->
    drain fuel w
    = set_page (match skip got c with [] => onload (page w) | _ => page w end)
        (set_settled (cascade_settled got q c (settled w))
           (set_waiting (parked (skip got c)) (set_microtasks [] w))).
Proof.
  induction c as [|[[e p] q'] c IH]; intros q f w fuel Hasc Hq Hwait Hmicro Hsettled Hp Hq' Hfuel.
  - destruct fuel as [|[|fuel]]; [cbn in Hfuel; lia | cbn in Hfuel; lia|].
    rewrite (drain_one _ _ _ _ Hmicro). cbn [run]. unfold resolve. wsimpl.
    rewrite Hsettled, Hwait. unfold links. cbn [mids last_wait app release filter].
    rewrite Nat.eqb_refl. cbn [negb]. wsimpl. cbn [app].
    rewrite (drain_one _ _ load_signal []) by reflexivity.
    unfold load_signal at 1. cbn [run]. wsimpl.
    rewrite drain_idle by reflexivity.
    cbn [skip parked cascade_settled]. destruct w; reflexivity.
  - inversion Hasc as [|f0 e0 c0 Hle Hc]; subst.
    destruct fuel as [|[|fuel]]; [cbn in Hfuel; lia | cbn in Hfuel; lia|].
    rewrite (drain_one _ _ _ _ Hmicro). cbn [run]. unfold resolve. wsimpl.
    rewrite Hsettled, Hwait.
    change (links q ((e, S e, S (S e)) :: c))
      with (([q], chained (S e) (S (S e))) :: links (S (S e)) c).
    cbn [release filter]. rewrite Nat.eqb_refl. cbn [negb].
    rewrite (release_links_other (3 + e) (S (S e)) q c Hc) by lia.
    wsimpl. cbn [app].
    rewrite (drain_one _ _ (chained (S e) (S (S e))) []) by reflexivity.
    unfold chained at 1. cbn [run]. unfold suspend, unsettled. wsimpl.
    cbn [filter mem existsb].
    destruct (Nat.eqb_spec (S e) q) as [E|_]; [lia|]. cbn [orb].
    change (existsb (Nat.eqb (S e)) (settled w)) with (mem (S e) (settled w)).
    rewrite (Hp e (S e) (S (S e)) (or_introl eq_refl)).
    cbn [skip cascade_settled]. destruct (mem e got) eqn:Eg; cbn [negb].
    + wsimpl. cbn [app].
      match goal with
      | |- drain ?fu ?W = _ => rewrite (IH (S (S e)) (3 + e) W fu Hc)
      end.
      * wsimpl. destruct w; reflexivity.
      * lia.
      * reflexivity.
      * reflexivity.
      * wsimpl. cbn [mem existsb].
        destruct (Nat.eqb_spec (S (S e)) q) as [E|_]; [lia|]. cbn [orb].
        apply (Hq' e (S e) (S (S e))). now left.
      * wsimpl. intros e1 p1 q1 Hin. cbn [mem existsb].
        destruct (ascending_In _ _ _ _ _ Hc Hin) as (H1 & H2 & H3).
        destruct (Nat.eqb_spec p1 q) as [E|_]; [lia|]. cbn [orb].
        apply (Hp e1 p1 q1). now right.
      * wsimpl. intros e1 p1 q1 Hin. cbn [mem existsb].
        destruct (ascending_In _ _ _ _ _ Hc Hin) as (H1 & H2 & H3).
        destruct (Nat.eqb_spec q1 q) as [E|_]; [lia|]. cbn [orb].
        apply (Hq' e1 p1 q1). now right.
      * cbn [List.length] in Hfuel. lia.
    + wsimpl. rewrite drain_idle by reflexivity.
      unfold parked. destruct w; reflexivity.
Qed.

(** ** Facts about chains *)

Lemma skip_ascending (got : list nat) (f : nat) (c : list (nat * nat * nat)) :
  ascending f c -> ascending f (skip got c).
Proof.
  induction 1 as [f|f e c Hle Hc IH]; cbn [skip]; [constructor|].
  destruct (mem e got).
  - apply ascending_weaken with (3 + e); [lia | exact IH].
  - constructor; assumption.
Qed.

Lemma skip_In (got : list nat) (c : list (nat * nat * nat)) (x : nat * nat * nat) :
  In x (skip got c) -> In x c.
Proof.
  induction c as [|[[e p] q] c IH]; cbn [skip]; [trivial|].
  destruct (mem e got); [|trivial]. intros H. right. now apply IH.
Qed.

Lemma In_skip (got : list nat) (c : list (nat * nat * nat)) (e p q : nat) :
  In (e, p, q) c -> mem e got = false -> In (e, p, q) (skip got c).
Proof.
  induction c as [|[[e1 p1] q1] c IH]; cbn [skip]; [trivial|].
  intros [E|Hin] Hm.
  - inversion E; subst. rewrite Hm. now left.
  - destruct (mem e1 got); [now apply IH | now right].
Qed.

Lemma skip_skip (got got' : list nat) (c : list (nat * nat * nat)) :
  (forall e, mem e got = true -> mem e got' = true) ->
  skip got' (skip got c) = skip got' c.
Proof.
  intros H. induction c as [|[[e p] q] c IH]; cbn [skip]; [reflexivity|].
  destruct (mem e got) eqn:E.
  - rewrite (H e E). exact IH.
  - reflexivity.
Qed.

(** Two scripts of the chain are the same one, or their elements are
    three identities apart. *)
Lemma ascending_gap (f : nat) (c : list (nat * nat * nat))
  (e1 p1 q1 e2 p2 q2 : nat) :
  ascending f c -> In (e1, p1, q1) c -> In (e2, p2, q2) c ->
  e1 = e2 \/ (e1 + 3 <= e2)%nat \/ (e2 + 3 <= e1)%nat.
Proof.
  induction 1 as [f|f e c Hle Hc IH]; intros H1 H2; [destruct H1|].
  destruct H1 as [E1|H1], H2 as [E2|H2].
  - inversion E1; inversion E2; subst. now left.
  - inversion E1; subst. destruct (ascending_In _ _ _ _ _ Hc H2) as (K & _). lia.
  - inversion E2; subst. destruct (ascending_In _ _ _ _ _ Hc H1) as (K & _). lia.
  - now apply IH.
Qed.

(** What is parked behind [q] waits for [q] or for one of the chained
    promises of [c]. *)
Lemma links_wait_in (q : nat) (c : list (nat * nat * nat)) :
  forall ps k, In (ps, k) (links q c) ->
               exists x, ps = [x] /\ (x = q \/ exists e p, In (e, p, x) c).
Proof.
  revert q. unfold links. induction c as [|[[e p] q'] c IH]; intros q ps k Hin.
  - cbn in Hin. destruct Hin as [E|[]]. inversion E; subst. exists q. now split; [|left].
  - cbn [mids last_wait app] in Hin. destruct Hin as [E|Hin].
    + inversion E; subst. exists q. now split; [|left].
    + destruct (IH q' ps k Hin) as (x & -> & [Hx|(e1 & p1 & Hx)]).
      * exists x. split; [reflexivity|]. right. exists e, p. left. now subst.
      * exists x. split; [reflexivity|]. right. exists e1, p1. now right.
Qed.

Lemma parked_wait_in (c : list (nat * nat * nat)) :
  forall ps k, In (ps, k) (parked c) ->
               exists x, ps = [x] /\ exists e p q, In (e, p, q) c /\ (x = p \/ x = q).
Proof.
  destruct c as [|[[e p] q] c]; intros ps k Hin; [destruct Hin|].
  cbn [parked] in Hin. apply in_app_or in Hin as [Hin|[E|[]]].
  - destruct (links_wait_in q c ps k Hin) as (x & -> & [Hx|(e1 & p1 & Hx)]).
    + exists x. split; [reflexivity|]. exists e, p, q. split; [now left | now right].
    + exists x. split; [reflexivity|]. exists e1, p1, x. split; [now right | now right].
  - inversion E; subst. exists p. split; [reflexivity|]. exists e, p, q.
    split; [now left | now left].
Qed.

(** ** Load events *)

Lemma step_element_event (fuel : nat) (el : nat) (name : string) (w : World) :
  step fuel (ElementEvent el name) w
  = drain fuel (fold_left (deliver el name) (element_hooks w) w).
Proof. reflexivity. Qed.

Section Barrier.

Variable f0 : nat.
Variable c : list (nat * nat * nat).
Variable old : list (nat * string * nat).
Variable base : list Effect.
Hypothesis c_ascending : ascending f0 c.
Hypothesis old_below : forall e n q, In (e, n, q) old -> (e < f0)%nat /\ (q < f0)%nat.

Local Abbreviation barrier_here := (barrier c old base).

Lemma barrier_resolve_old (got : list nat) (q0 : nat) (w : World) :
  barrier_here got w -> (q0 < f0)%nat -> barrier_here got (resolve q0 w).
Proof.
  intros (Hw & Hm & Hh & Hp & Hq & Hc) Hq0. unfold resolve.
  destruct (mem q0 (settled w)) eqn:E; [repeat split; assumption|].
  rewrite Hw, release_untouched.
  - unfold barrier. wsimpl. rewrite Hm. cbn [app].
    split; [reflexivity|]. split; [reflexivity|]. split; [exact Hh|].
    split; [|split; [|exact Hc]].
    + intros e p q Hin. rewrite mem_cons, (Hp e p q Hin).
      destruct (ascending_In _ _ _ _ _ c_ascending Hin) as (K1 & K2 & K3).
      destruct (Nat.eqb_spec p q0); [lia | reflexivity].
    + intros e p q Hin. rewrite mem_cons, (Hq e p q Hin).
      destruct (ascending_In _ _ _ _ _ c_ascending (skip_In _ _ _ Hin)) as (K1 & K2 & K3).
      destruct (Nat.eqb_spec q q0); [lia | reflexivity].
  - intros ps k Hin.
    destruct (parked_wait_in _ ps k Hin) as (x & -> & e & p & q & Hin' & Hx).
    exists x. split; [reflexivity|].
    destruct (ascending_In _ _ _ _ _ c_ascending (skip_In _ _ _ Hin')) as (K1 & K2 & K3).
    destruct Hx; lia.
Qed.

Lemma barrier_deliver_old (got : list nat) (el : nat) (name : string)
  (hs : list (nat * string * nat)) (w : World) :
  (forall e n q, In (e, n, q) hs -> (q < f0)%nat) ->
  barrier_here got w -> barrier_here got (fold_left (deliver el name) hs w).
Proof.
  revert w. induction hs as [|[[e n] q] hs IH]; intros w Hhs Hb; [exact Hb|].
  cbn [fold_left]. apply IH.
  - intros e' n' q' Hin. apply (Hhs e' n' q'). now right.
  - unfold deliver. destruct (_ && _); [|exact Hb].
    apply barrier_resolve_old; [exact Hb|]. apply (Hhs e n q). now left.
Qed.

(** Handlers that the event does not concern. *)
Lemma deliver_none (el : nat) (name : string) (c' : list (nat * nat * nat))
  (w : World) :
  (forall e p q, In (e, p, q) c' -> e <> el \/ name <> "load") ->
  fold_left (deliver el name) (hooks_of c') w = w.
Proof.
  induction c' as [|[[e p] q] c' IH]; intros H; [reflexivity|].
  cbn [hooks_of map fold_left]. unfold deliver at 2.
  destruct (H e p q (or_introl eq_refl)) as [Hne|Hne].
  - destruct (Nat.eqb_spec e el); [contradiction|]. cbn [andb].
    apply IH. intros e' p' q' Hin. apply (H e' p' q'). now right.
  - destruct (String.eqb_spec "load" name) as [E|_]; [now subst|].
    rewrite andb_false_r.
    apply IH. intros e' p' q' Hin. apply (H e' p' q'). now right.
Qed.

(** The load event of the element of one script of the chain settles
    the promise of that script and nothing else. *)
Lemma deliver_load (f : nat) (c' : list (nat * nat * nat)) (e p q : nat) (w : World) :
  ascending f c' -> In (e, p, q) c' ->
  fold_left (deliver e "load") (hooks_of c') w = resolve p w.
Proof.
  intros Hasc. revert w. induction Hasc as [f|f e1 c' Hle Hc IH]; intros w Hin;
    [destruct Hin|].
  cbn [hooks_of map fold_left]. unfold deliver at 2.
  destruct Hin as [E|Hin].
  - inversion E; subst. rewrite Nat.eqb_refl. cbn [andb String.eqb].
    change (hooks_of c') with (hooks_of c').
    apply deliver_none. intros e' p' q' Hin'. left.
    destruct (ascending_In _ _ _ _ _ Hc Hin') as (K & _). lia.
  - destruct (ascending_In _ _ _ _ _ Hc Hin) as (K & _).
    destruct (Nat.eqb_spec e1 e); [lia|]. cbn [andb].
    now apply IH.
Qed.

Lemma skip_ext (got got' : list nat) (c' : list (nat * nat * nat)) :
  (forall e p q, In (e, p, q) c' -> mem e got' = mem e got) ->
  skip got' c' = skip got c'.
Proof.
  induction c' as [|[[e p] q] c' IH]; intros H; cbn [skip]; [reflexivity|].
  rewrite (H e p q (or_introl eq_refl)).
  rewrite IH by (intros e' p' q' Hin; apply (H e' p' q'); now right).
  reflexivity.
Qed.

Lemma skip_head (got : list nat) (c' rest : list (nat * nat * nat)) (e p q : nat) :
  skip got c' = (e, p, q) :: rest -> mem e got = false.
Proof.
  induction c' as [|[[e1 p1] q1] c' IH]; cbn [skip]; [discriminate|].
  destruct (mem e1 got) eqn:E; [exact IH|].
  intros H. inversion H; subst. exact E.
Qed.

Lemma skip_length (got : list nat) (c' : list (nat * nat * nat)) :
  (List.length (skip got c') <= List.length c')%nat.
Proof.
  induction c' as [|[[e p] q] c' IH]; cbn [skip]; [lia|].
  destruct (mem e got); cbn [List.length] in *; lia.
Qed.

Lemma cascade_settled_other (got : list nat) (x : nat) (c' : list (nat * nat * nat)) :
  forall q s,
    x <> q -> (forall e p q', In (e, p, q') c' -> x <> q') ->
    mem x (cascade_settled got q c' s) = mem x s.
Proof.
  induction c' as [|[[e p] q'] c' IH]; intros q s Hq Hc; cbn [cascade_settled].
  - rewrite mem_cons. destruct (Nat.eqb_spec x q); [contradiction | reflexivity].
  - destruct (mem e got).
    + rewrite IH.
      * rewrite mem_cons. destruct (Nat.eqb_spec x q); [contradiction | reflexivity].
      * apply (Hc e p q'). now left.
      * intros e1 p1 q1 Hin. apply (Hc e1 p1 q1). now right.
    + rewrite mem_cons. destruct (Nat.eqb_spec x q); [contradiction | reflexivity].
Qed.

Lemma cascade_settled_skip (got : list nat) (f : nat) (c' : list (nat * nat * nat)) :
  ascending f c' ->
  forall q s,
    (q < f)%nat ->
    (forall e p q', In (e, p, q') c' -> mem q' s = false) ->
    forall e p q', In (e, p, q') (skip got c') ->
                   mem q' (cascade_settled got q c' s) = false.
Proof.
  induction 1 as [f|f e c' Hle Hc IH]; intros q s Hq Hs e1 p1 q1 Hin; [destruct Hin|].
  cbn [skip cascade_settled] in *. destruct (mem e got).
  - apply (IH (S (S e)) (q :: s)) with e1 p1; [lia | | exact Hin].
    intros e2 p2 q2 Hin2. rewrite mem_cons, (Hs e2 p2 q2) by now right.
    destruct (ascending_In _ _ _ _ _ Hc Hin2) as (K1 & K2 & K3).
    destruct (Nat.eqb_spec q2 q); [lia | reflexivity].
  - rewrite mem_cons, (Hs e1 p1 q1 Hin).
    assert (K : (f <= e1)%nat /\ q1 = S (S e1)).
    { destruct Hin as [E|Hin]; [inversion E; subst; lia|].
      destruct (ascending_In _ _ _ _ _ Hc Hin) as (K1 & K2 & K3). lia. }
    destruct (Nat.eqb_spec q1 q); [lia | reflexivity].
Qed.

Lemma chain_member_dec (el : nat) (c' : list (nat * nat * nat)) :
  (exists p q, In (el, p, q) c') \/ (forall e p q, In (e, p, q) c' -> e <> el).
Proof.
  induction c' as [|[[e p] q] c' IH].
  - right. intros e p q [].
  - destruct (Nat.eq_dec e el) as [->|Hne].
    + left. exists p, q. now left.
    + destruct IH as [(p' & q' & Hin)|Hno].
      * left. exists p', q'. now right.
      * right. intros e1 p1 q1 [E|Hin]; [inversion E; now subst|].
        now apply (Hno e1 p1 q1).
Qed.

(** One event on a created element keeps the barrier. *)
Lemma barrier_step (fuel : nat) (got : list nat) (el : nat) (name : string)
  (w : World) :
  barrier_here got w ->
  (2 * List.length c + 2 <= fuel)%nat ->
  barrier_here (if String.eqb name "load" then el :: got else got)
    (step fuel (ElementEvent el name) w).
Proof.
  intros Hb Hfuel. rewrite step_element_event.
  destruct Hb as (Hw & Hm & Hh & Hp & Hq & Hc) eqn:Eb. clear Eb.
  rewrite Hh, fold_left_app.
  assert (Hb1 : barrier_here got (fold_left (deliver el name) old w)).
  { apply barrier_deliver_old; [|repeat split; assumption].
    intros e n q Hin. apply (old_below e n q Hin). }
  set (w1 := fold_left (deliver el name) old w) in *.
  clear Hw Hm Hh Hp Hq Hc. destruct Hb1 as (Hw & Hm & Hh & Hp & Hq & Hc).
  destruct (String.eqb_spec name "load") as [->|Hname].
  2:{ rewrite deliver_none by (intros; right; exact Hname).
      rewrite drain_idle by exact Hm. repeat split; assumption. }
  destruct (chain_member_dec el c) as [(p & q & Hin)|Hno].
  2:{ rewrite deliver_none by (intros e p q Hin; left; now apply (Hno e p q)).
      rewrite drain_idle by exact Hm.
      assert (Hext : forall e p q, In (e, p, q) c -> mem e (el :: got) = mem e got).
      { intros e p q Hin. rewrite mem_cons.
        destruct (Nat.eqb_spec e el) as [E|_]; [|reflexivity].
        now apply (Hno e p q) in Hin. }
      unfold barrier. rewrite (skip_ext got (el :: got) c Hext).
      split; [exact Hw|]. split; [exact Hm|]. split; [exact Hh|].
      split; [|split; assumption].
      intros e p q Hin. rewrite (Hext e p q Hin). now apply (Hp e p q). }
  rewrite (deliver_load f0 c el p q w1 c_ascending Hin).
  destruct (ascending_In _ _ _ _ _ c_ascending Hin) as (K1 & K2 & K3).
  assert (Hmem : forall e1 p1 q1, In (e1, p1, q1) c ->
                   mem p1 (p :: settled w1) = mem e1 (el :: got)).
  { intros e1 p1 q1 Hin1. rewrite !mem_cons, (Hp e1 p1 q1 Hin1).
    destruct (ascending_In _ _ _ _ _ c_ascending Hin1) as (L1 & L2 & L3).
    destruct (Nat.eqb_spec p1 p), (Nat.eqb_spec e1 el); try reflexivity; lia. }
  assert (Hqp : forall e1 p1 q1, In (e1, p1, q1) c -> q1 <> p).
  { intros e1 p1 q1 Hin1.
    destruct (ascending_In _ _ _ _ _ c_ascending Hin1) as (L1 & L2 & L3).
    destruct (ascending_gap _ _ _ _ _ _ _ _ c_ascending Hin Hin1) as [G|[G|G]]; lia. }
  unfold resolve. destruct (mem p (settled w1)) eqn:Es.
  - (* the load event had been there already *)
    rewrite drain_idle by exact Hm.
    assert (Eg : mem el got = true) by (rewrite <- (Hp el p q Hin); exact Es).
    assert (Hext : forall e p q, In (e, p, q) c -> mem e (el :: got) = mem e got).
    { intros e1 p1 q1 _. rewrite mem_cons.
      destruct (Nat.eqb_spec e1 el) as [->|_]; [now rewrite Eg | reflexivity]. }
    unfold barrier. rewrite (skip_ext got (el :: got) c Hext).
    split; [exact Hw|]. split; [exact Hm|]. split; [exact Hh|].
    split; [|split; assumption].
    intros e1 p1 q1 Hin1. rewrite (Hext e1 p1 q1 Hin1). now apply (Hp e1 p1 q1).
  - assert (Eg : mem el got = false) by (rewrite <- (Hp el p q Hin); exact Es).
    pose proof (In_skip got c el p q Hin Eg) as Hins.
    pose proof (skip_ascending got f0 c c_ascending) as Hsasc.
    assert (Hsk : skip (el :: got) (skip got c) = skip (el :: got) c).
    { apply skip_skip. intros e He. rewrite mem_cons, He. apply orb_true_r. }
    destruct (skip got c) as [|[[eh ph] qh] rest] eqn:Esk; [destruct Hins|].
    pose proof (skip_head got c rest eh ph qh Esk) as Eh.
    inversion Hsasc as [|f1 e1 c1 Hle Hrest]; subst.
    rewrite Hw. cbn [parked]. rewrite release_app.
    destruct Hins as [E|Hinr].
    + (* the script the chain was waiting for *)
      inversion E; subst. clear E.
      rewrite (release_links_other (3 + el) (S (S el)) (S el) rest Hrest) by lia.
      cbn [release filter fst snd]. rewrite Nat.eqb_refl. cbn [negb app].
      rewrite app_nil_r, Hm. cbn [app].
      match goal with
      | |- barrier_here _ (drain fuel ?W) =>
          rewrite (cascade (el :: got) rest (S (S el)) (3 + el) W fuel Hrest)
      end.
      * unfold barrier. wsimpl. rewrite <- Hsk. cbn [skip]. rewrite mem_cons.
        rewrite Nat.eqb_refl. cbn [orb].
        split; [reflexivity|]. split; [reflexivity|]. split; [exact Hh|].
        split; [|split].
        -- intros e1 p1 q1 Hin1.
           rewrite cascade_settled_other.
           ++ now apply (Hmem e1 p1 q1).
           ++ destruct (ascending_In _ _ _ _ _ c_ascending Hin1) as (L1 & L2 & L3).
              destruct (ascending_gap _ _ _ _ _ _ _ _ c_ascending Hin Hin1)
                as [G|[G|G]]; lia.
           ++ intros e2 p2 q2 Hin2.
              assert (Hin2' : In (e2, p2, q2) c).
              { apply (skip_In got). rewrite Esk. now right. }
              destruct (ascending_In _ _ _ _ _ c_ascending Hin1) as (L1 & L2 & L3).
              destruct (ascending_In _ _ _ _ _ c_ascending Hin2') as (M1 & M2 & M3).
              destruct (ascending_gap _ _ _ _ _ _ _ _ c_ascending Hin1 Hin2')
                as [G|[G|G]]; lia.
        -- intros e1 p1 q1 Hin1.
           apply (cascade_settled_skip (el :: got) (3 + el) rest Hrest) with e1 p1;
             [lia | | exact Hin1].
           intros e2 p2 q2 Hin2. rewrite mem_cons, (Hq e2 p2 q2) by now right.
           destruct (ascending_In _ _ _ _ _ Hrest Hin2) as (M1 & M2 & M3).
           destruct (Nat.eqb_spec q2 (S el)); [lia | reflexivity].
        -- destruct (skip (el :: got) rest); wsimpl.
           ++ unfold onload, triggerEvent, dispatchEvent, record. cbn [calls].
              rewrite Hc, app_nil_r. reflexivity.
           ++ exact Hc.
      * lia.
      * reflexivity.
      * reflexivity.
      * wsimpl. rewrite mem_cons, (Hq el (S el) (S (S el))) by now left.
        destruct (Nat.eqb_spec (S (S el)) (S el)); [lia | reflexivity].
      * wsimpl. intros e1 p1 q1 Hin1. apply (Hmem e1 p1 q1).
        apply (skip_In got). rewrite Esk. now right.
      * wsimpl. intros e1 p1 q1 Hin1. rewrite mem_cons, (Hq e1 p1 q1) by now right.
        destruct (ascending_In _ _ _ _ _ Hrest Hin1) as (M1 & M2 & M3).
        destruct (Nat.eqb_spec q1 (S el)); [lia | reflexivity].
      * pose proof (skip_length got c) as Hl. rewrite Esk in Hl.
        cbn [List.length] in Hl. lia.
    + (* a script further down the chain *)
      destruct (ascending_In _ _ _ _ _ Hrest Hinr) as (M1 & M2 & M3).
      rewrite (release_untouched (S el) (links (S (S eh)) rest)).
      2:{ intros ps k Hin1.
          destruct (links_wait_in _ _ ps k Hin1) as (x & -> & [Hx|(e2 & p2 & Hx)]).
          - exists x. split; [reflexivity | lia].
          - exists x. split; [reflexivity|].
            apply (Hqp e2 p2 x). apply (skip_In got). rewrite Esk. now right. }
      cbn [release filter fst snd].
      destruct (Nat.eqb_spec (S eh) (S el)) as [E|_]; [lia|]. cbn [negb app].
      rewrite !app_nil_r. rewrite drain_idle by (wsimpl; exact Hm).
      unfold barrier. wsimpl. rewrite <- Hsk. cbn [skip]. rewrite mem_cons, Eh.
      destruct (Nat.eqb_spec eh el) as [E|_]; [lia|]. cbn [orb].
      split; [reflexivity|]. split; [exact Hm|]. split; [exact Hh|].
      split; [|split].
      * exact Hmem.
      * intros e1 p1 q1 Hin1. rewrite mem_cons, (Hq e1 p1 q1 Hin1).
        assert (Hin1' : In (e1, p1, q1) c) by (apply (skip_In got); now rewrite Esk).
        destruct (Nat.eqb_spec q1 (S el)) as [E|_]; [|reflexivity].
        now apply (Hqp e1 p1 q1) in Hin1'.
      * exact Hc.
Qed.

End Barrier.

(** ** From the call of [runScripts] to the load signal *)

Lemma mem_seen (e : nat) (ss : list Stimulus) (got : list nat) :
  mem e (seen ss got) = load_delivered e ss || mem e got.
Proof.
  revert got. induction ss as [|s ss IH]; intros got; [reflexivity|].
  cbn [seen load_delivered existsb].
  destruct s; try (rewrite IH; reflexivity).
  rewrite IH. fold (load_delivered e ss).
  destruct (String.eqb name "load"); [|now rewrite andb_false_r].
  rewrite mem_cons, andb_true_r, (Nat.eqb_sym el e).
  destruct (e =? el)%nat, (load_delivered e ss); reflexivity.
Qed.

Lemma skip_all_loaded (c : list (nat * nat * nat)) (ss : list Stimulus) :
  match skip (seen ss []) c with
  | [] => [EDispatch "astro:load"]
  | _ => []
  end
  = if all_loaded c ss then [EDispatch "astro:load"] else [].
Proof.
  induction c as [|[[e p] q] c IH]; [reflexivity|].
  cbn [skip all_loaded forallb fst]. rewrite mem_seen. cbn [mem existsb].
  rewrite orb_false_r. destruct (load_delivered e ss); [exact IH | reflexivity].
Qed.

Lemma barrier_steps (f0 : nat) (c : list (nat * nat * nat))
  (old : list (nat * string * nat)) (base : list Effect) (fuel : nat) :
  ascending f0 c ->
  (forall e n q, In (e, n, q) old -> (e < f0)%nat /\ (q < f0)%nat) ->
  (2 * List.length c + 2 <= fuel)%nat ->
  forall ss got w,
    element_events_only ss = true ->
    barrier c old base got w ->
    barrier c old base (seen ss got) (steps fuel ss w).
Proof.
  intros Hasc Hold Hfuel ss. induction ss as [|s ss IH]; intros got w Hss Hb; [exact Hb|].
  cbn [element_events_only forallb] in Hss. apply andb_prop in Hss as [Hs Hss].
  destruct s; try discriminate Hs. cbn [steps seen].
  apply IH; [exact Hss|].
  apply (barrier_step f0 c old base Hasc Hold); assumption.
Qed.

Lemma chain_length (l : list Node) (f : nat) :
  (List.length (chain l f) <= List.length l)%nat.
Proof.
  revert f. induction l as [|s l IH]; intros f; cbn [chain]; [cbn; lia|].
  destruct (has_src s); cbn [List.length].
  - specialize (IH (3 + f)). lia.
  - specialize (IH (S f)). lia.
Qed.

(** The task in which [runScripts] runs sets the barrier up. *)
Lemma barrier_set_up (fuel : nat) (w : World) :
  microtasks w = [] ->
  waiting w = [] ->
  (forall x, (fresh w <= x)%nat -> mem x (settled w) = false) ->
  (1 <= fuel)%nat ->
  let l := scripts (document (page w)) in
  barrier (chain l (S (fresh w))) (element_hooks w)
    (calls (page w) ++ map EScriptInserted l) []
    (task fuel (runScripts (fun wait => Await [wait] load_signal)) w).
Proof.
  intros Hm Hwait Hf Hfuel l. unfold task.
  rewrite (runScripts_run w Hwait Hf). fold l. rewrite Hm. cbn [app].
  pose proof (chain_ascending l (S (fresh w))) as Hasc.
  destruct fuel as [|fuel]; [lia|].
  destruct (chain l (S (fresh w))) as [|[[e p] q] c'].
  - rewrite (drain_one _ _ load_signal []) by reflexivity.
    unfold load_signal at 1. cbn [run]. wsimpl. rewrite drain_idle by reflexivity.
    unfold barrier. wsimpl. cbn [skip parked hooks_of map].
    split; [reflexivity|]. split; [reflexivity|]. split; [reflexivity|].
    split; [intros e p q []|]. split; [intros e p q []|].
    unfold onload, triggerEvent, dispatchEvent, record. cbn [calls].
    rewrite calls_insert_all. reflexivity.
  - inversion Hasc as [|f e0 c0 Hle Hc]; subst.
    rewrite (drain_one _ _ (chained (S e) (S (S e))) []) by reflexivity.
    unfold chained at 1. cbn [run]. unfold suspend, unsettled. wsimpl.
    cbn [filter]. rewrite mem_cons.
    destruct (Nat.eqb_spec (S e) (fresh w)); [lia|]. cbn [orb].
    rewrite (Hf (S e)) by lia. cbn [negb]. wsimpl.
    rewrite drain_idle by reflexivity.
    unfold barrier. wsimpl.
    change (skip [] ((e, S e, S (S e)) :: c')) with ((e, S e, S (S e)) :: c').
    split; [reflexivity|]. split; [reflexivity|]. split; [reflexivity|].
    split; [|split].
    + intros e1 p1 q1 Hin. change (mem e1 []) with false. rewrite mem_cons.
      destruct (ascending_In _ _ _ _ _ Hasc Hin) as (K1 & K2 & K3).
      destruct (Nat.eqb_spec p1 (fresh w)); [lia|]. cbn [orb]. apply Hf. lia.
    + intros e1 p1 q1 Hin. rewrite mem_cons.
      destruct (ascending_In _ _ _ _ _ Hasc Hin) as (K1 & K2 & K3).
      destruct (Nat.eqb_spec q1 (fresh w)); [lia|]. cbn [orb]. apply Hf. lia.
    + rewrite calls_insert_all, app_nil_r. reflexivity.
Qed.


(** C4 (amended): [runScripts] goes through the scripts of the document
    in one run, without suspending: when it returns, every script has
    been inserted anew, in document order, whether or not a script
    before it bears [src], and the document is the same tree.  What
    waits for the load events is the promise it returns: whatever
    events arrive afterwards on created elements, the load signal has
    been sent exactly when the load event of every script bearing [src]
    is among them. *)
Theorem scripts_rerun_in_one_pass (fuel : nat) (w : World) (ss : list Stimulus) :
  microtasks w = [] ->
  waiting w = [] ->
  (forall x, (fresh w <= x)%nat -> mem x (settled w) = false) ->
  (forall e n q, In (e, n, q) (element_hooks w) ->
                 (e < fresh w)%nat /\ (q < fresh w)%nat) ->
  element_events_only ss = true ->
  (2 * List.length (scripts (document (page w))) + 2 <= fuel)%nat ->
  let l := scripts (document (page w)) in
  let go := runScripts (fun wait => Await [wait] load_signal) in
  calls (page (run go w)) = calls (page w) ++ map EScriptInserted l
  /\ document (page (run go w)) = document (page w)
  /\ calls (page (steps fuel ss (task fuel go w)))
     = calls (page w) ++ map EScriptInserted l
       ++ (if all_loaded (chain l (S (fresh w))) ss
           then [EDispatch "astro:load"] else []).
Proof.
  intros Hm Hwait Hf Hold Hss Hfuel l go.
  destruct (runScripts_pass w load_signal) as [H1 H2].
  split; [exact H1|]. split; [exact H2|].
  pose proof (chain_length l (S (fresh w))) as Hlen.
  assert (Hb : barrier (chain l (S (fresh w))) (element_hooks w)
                 (calls (page w) ++ map EScriptInserted l) (seen ss [])
                 (steps fuel ss (task fuel go w))).
  { apply (barrier_steps (S (fresh w))).
    - apply chain_ascending.
    - intros e n q Hin. destruct (Hold e n q Hin). lia.
    - fold l in Hfuel. lia.
    - exact Hss.
    - apply barrier_set_up; try assumption. lia. }
  destruct Hb as (_ & _ & _ & _ & _ & Hc).
  rewrite Hc, skip_all_loaded, <- app_assoc. reflexivity.
Qed.

End LoadBarrier.

(** The external script of the sample page is created element 1: the
    load signal is sent in the task of its load event. *)
Lemma scripts_rerun_in_one_pass_witness :
  let w := idle Sample.pageS in
  microtasks w = []
  /\ calls (page (steps 20 [ElementEvent 1 "error"; ElementEvent 1 "load"]
                    (task 20 (runScripts (fun wait => Await [wait] load_signal)) w)))
     = calls (page w)
       ++ map EScriptInserted (scripts (document (page w)))
       ++ (if all_loaded (chain (scripts (document (page w))) (S (fresh w)))
                [ElementEvent 1 "error"; ElementEvent 1 "load"]
           then [EDispatch "astro:load"] else []).
Proof.
  split; [reflexivity|].
  refine (proj2 (proj2
    (scripts_rerun_in_one_pass 20 (idle Sample.pageS)
       [ElementEvent 1 "error"; ElementEvent 1 "load"] _ _ _ _ _ _))).
  - reflexivity.
  - reflexivity.
  - intros x _. reflexivity.
  - intros e n q [].
  - reflexivity.
  - cbn. lia.
Defined.

Local Open Scope Z_scope.

(** The external script /x.js is followed by an inline script: the
    inline script is inserted in the task in which [runScripts] runs, when
    no load event of /x.js can have been delivered. *)
Lemma inline_script_does_not_wait :
  ~ successors_wait_for_load (idle Sample.pageS).
Proof.
  intros H.
  apply (H [] (Sample.external_script "/x.js") [Sample.inline_script "y()"]
           (Sample.inline_script "y()")).
  - reflexivity.
  - reflexivity.
  - now left.
  - vm_compute. right. now left.
Qed.

(** The load signal is what waits: on the same page it is sent in the
    task of the load event of /x.js (created element 1), not before. *)
Example load_signal_waits_for_scripts :
  let w1 := task 20 (runScripts (fun wait => Await [wait] (Modify onload Done)))
              (idle Sample.pageS) in
  calls (page w1)
  = [EScriptInserted (Sample.external_script "/x.js");
     EScriptInserted (Sample.inline_script "y()")]
  /\ calls (page (step 20 (ElementEvent 1 "load") w1))
     = calls (page w1) ++ [EDispatch "astro:load"].
Proof.
  cbv zeta. split; vm_compute; reflexivity.
Qed.

(* ================================================================== *)
(** * Further properties of the script *)
(* ================================================================== *)

Section References.

Variable p : Node -> bool.

Lemma find_first_sound (inside : Node -> option Path) (l : list Node) :
  (forall c q, In c l -> inside c = Some q ->
     exists x, node_at q c = Some x /\ p x = true) ->
  forall i q, find_first inside p i l = Some q ->
  exists j q' c, q = (i + j)%nat :: q' /\ nth_error l j = Some c
                 /\ exists x, node_at q' c = Some x /\ p x = true.
Proof.
  induction l as [|c l IH]; intros Hin i q H; cbn [find_first] in H; [discriminate|].
  destruct (p c) eqn:Ep.
  - injection H as <-. exists 0%nat, [], c. rewrite Nat.add_0_r.
    repeat split. exists c. split; [reflexivity | exact Ep].
  - destruct (inside c) as [q0|] eqn:Ei.
    + injection H as <-. exists 0%nat, q0, c. rewrite Nat.add_0_r.
      repeat split. apply (Hin c q0); [now left | exact Ei].
    + destruct (IH (fun c' q' Hc => Hin c' q' (or_intror Hc)) (S i) q H)
        as (j & q' & c' & -> & Hn & Hx).
      exists (S j), q', c'. rewrite Nat.add_succ_r. repeat split; assumption.
Qed.

Lemma find_in_sound (n : Node) (q : Path) :
  find_in p n = Some q ->
  q <> [] /\ exists x, node_at q n = Some x /\ p x = true.
Proof.
  revert q. induction n as [s|t a cs IH] using Node_forall_ind; intros q H;
    [discriminate|].
  cbn [find_in] in H.
  destruct (find_first_sound (find_in p) cs) with (i := 0%nat) (q := q)
    as (j & q' & c & -> & Hn & Hx); [|exact H|].
  - intros c q0 Hc Hq. rewrite Forall_forall in IH. apply (IH c Hc q0 Hq).
  - split; [discriminate|]. cbn [node_at children_of Nat.add]. now rewrite Hn.
Qed.

End References.


Lemma querySelector_sound (sel : Selector) (n : Node) (q : Path) :
  querySelector sel n = Some q ->
  q <> [] /\ exists x, node_at q n = Some x /\ matches sel x = true.
Proof. apply find_in_sound. Qed.

Lemma matches_attr (x : Node) (k v : string) (c : Compound) :
  forallb (matches_simple x) c = true ->
  In (SAttrEq k v) c ->
  getAttribute k x = Some v.
Proof.
  intros H Hin. rewrite forallb_forall in H. specialize (H _ Hin).
  destruct x as [t a cs|s]; [|discriminate]. cbn in *.
  destruct (lookup_attr k a) as [v'|]; [|discriminate].
  apply String.eqb_eq in H. now subst.
Qed.

Lemma matches_one (x : Node) (c : Compound) :
  matches [c] x = true -> forallb (matches_simple x) c = true.
Proof.
  unfold matches. cbn [existsb]. rewrite orb_false_r.
  intros H. apply andb_true_iff in H. apply H.
Qed.

Lemma matches_fewer (x : Node) (c c' : Compound) :
  matches [c ++ c'] x = true -> matches [c] x = true.
Proof.
  unfold matches. cbn [existsb]. rewrite !orb_false_r, forallb_app.
  intros H. apply andb_true_iff in H as [H1 H2]. apply andb_true_iff in H2 as [H2 _].
  now rewrite H1, H2.
Qed.

(** X12: the element that [persistedHeadElement] returns for a live head
    element [el] is an element of the incoming head, and it is an
    equivalent of [el] in one of two ways: [el] has a non-empty
    persistence identifier and the element found carries the same one, or
    [el] is a style sheet link and the element found is a style sheet link
    whose [href] is the [href] of [el] as the template literal prints it
    (the text "null" when [el] has none). *)
Theorem persistedHeadElement_sound (doc_head el : Node) (q : Path) :
  persistedHeadElement doc_head el = Some q ->
  q <> []
  /\ exists newEl,
       node_at q doc_head = Some newEl
       /\ ((exists id, id <> "" /\ getAttribute PERSIST_ATTR el = Some id
                       /\ getAttribute PERSIST_ATTR newEl = Some id)
           \/ (matches [stylesheet_link] el = true
               /\ matches [stylesheet_link] newEl = true
               /\ getAttribute "href" newEl
                  = Some (interpolate (getAttribute "href" el)))).
Proof.
  unfold persistedHeadElement. intros H.
  assert (Hsheet :
    (if matches [stylesheet_link] el
     then querySelector
            [stylesheet_link ++ [SAttrEq "href" (interpolate (getAttribute "href" el))]]
            doc_head
     else None) = Some q ->
    q <> []
    /\ exists newEl,
         node_at q doc_head = Some newEl
         /\ ((exists id, id <> "" /\ getAttribute PERSIST_ATTR el = Some id
                         /\ getAttribute PERSIST_ATTR newEl = Some id)
             \/ (matches [stylesheet_link] el = true
                 /\ matches [stylesheet_link] newEl = true
                 /\ getAttribute "href" newEl
                    = Some (interpolate (getAttribute "href" el))))).
  { destruct (matches [stylesheet_link] el) eqn:Em; [|discriminate].
    intros K. apply querySelector_sound in K as (Hq & x & Hx & Hm).
    split; [exact Hq|]. exists x. split; [exact Hx|]. right.
    split; [reflexivity|]. split; [exact (matches_fewer _ _ _ Hm)|].
    apply matches_one in Hm.
    apply (matches_attr x "href" _ _ Hm). apply in_or_app. right. now left. }
  destruct (getAttribute PERSIST_ATTR el) as [id|] eqn:Eid; [|exact (Hsheet H)].
  destruct (nonempty id) eqn:En; [|exact (Hsheet H)].
  destruct (querySelector [[SAttrEq PERSIST_ATTR id]] doc_head) as [q0|] eqn:E0;
    [|exact (Hsheet H)].
  injection H as <-.
  apply querySelector_sound in E0 as (Hq & x & Hx & Hm).
  split; [exact Hq|]. exists x. split; [exact Hx|]. left. exists id.
  split.
  - intros ->. discriminate En.
  - split; [reflexivity|].
    apply matches_one in Hm. apply (matches_attr x PERSIST_ATTR id _ Hm). now left.
Qed.

(** A style sheet link of the live head and the incoming head with the
    same link in second place. *)
Lemma persistedHeadElement_sound_witness :
  persistedHeadElement
    (Elem "head" [] [Sample.enabled; Sample.sheet "/a.css"]) (Sample.sheet "/a.css")
  = Some [1%nat]
  /\ [1%nat] <> [].
Proof.
  split; [reflexivity|].
  refine (proj1 (persistedHeadElement_sound
                   (Elem "head" [] [Sample.enabled; Sample.sheet "/a.css"])
                   (Sample.sheet "/a.css") [1%nat] _)).
  reflexivity.
Defined.

(** ** Persisted elements of the body *)

Lemma nth_error_update_nth {A} (f : A -> A) (i : nat) (l : list A) (x : A) :
  nth_error l i = Some x -> nth_error (update_nth i f l) i = Some (f x).
Proof.
  revert i. induction l as [|y l IH]; intros [|i] H; try discriminate; cbn in *.
  - now injection H as ->.
  - now apply IH.
Qed.

Lemma node_at_replace_at (q : Path) (y n x : Node) :
  node_at q n = Some x -> node_at q (replace_at q y n) = Some y.
Proof.
  revert n. induction q as [|i q IH]; intros n H; [reflexivity|].
  cbn [node_at replace_at] in *.
  destruct n as [t a cs|s]; [|destruct i; discriminate].
  cbn [children_of with_children] in *.
  destruct (nth_error cs i) as [c|] eqn:E; [|discriminate].
  rewrite (nth_error_update_nth _ _ _ _ E). now apply IH.
Qed.

(** X13: when the body being left has one persisted element [el], that
    element takes the place of the first element of the new document
    that carries its identifier, as it is, with its attributes and its
    children; when the new document has no such element, the document is
    left as it is and [el] is gone with the old body. *)
Theorem persisted_element_is_carried_over (oldBody el : Node) (d : Document) :
  querySelectorAll [[SHasAttr PERSIST_ATTR]] oldBody = [el] ->
  let sel := [[SAttrEq PERSIST_ATTR (interpolate (getAttribute PERSIST_ATTR el))]] in
  (forall q, doc_querySelector sel d = Some q -> q <> [] ->
             doc_node_at q d <> None
             /\ doc_node_at q (persist_body oldBody d) = Some el)
  /\ (doc_querySelector sel d = None -> persist_body oldBody d = d).
Proof.
  intros Hl sel. unfold persist_body. rewrite Hl. cbn [fold_left]. fold sel.
  split; [|intros ->; reflexivity].
  intros q E Hq. rewrite E.
  destruct q as [|i q]; [now elim Hq|].
  unfold doc_querySelector in E.
  destruct (matches sel (documentElement d)); [discriminate|].
  apply querySelector_sound in E as (_ & x & Hx & _).
  unfold doc_node_at. rewrite Hx. split; [discriminate|].
  cbn [node_at documentElement children_of] in Hx |- *.
  destruct i as [|[|i]]; cbn [nth_error] in Hx.
  - cbn [doc_replace_at documentElement set_head head children_of nth_error].
    now apply node_at_replace_at with (x := x).
  - cbn [doc_replace_at documentElement set_body body children_of nth_error].
    now apply node_at_replace_at with (x := x).
  - destruct i; discriminate.
Qed.

(** The old body holds a player with a child of its own; the new page
    has an empty placeholder with the same identifier. *)
Lemma persisted_element_is_carried_over_witness :
  let player := Elem "video" [(PERSIST_ATTR, "player")] [Text "playing"] in
  let d := mkDocument [] (Elem "head" [] [])
             (Elem "body" [] [Elem "p" [] []; Elem "video" [(PERSIST_ATTR, "player")] []]) in
  querySelectorAll [[SHasAttr PERSIST_ATTR]] (Elem "body" [] [player]) = [player]
  /\ doc_node_at [1%nat; 1%nat] (persist_body (Elem "body" [] [player]) d) = Some player.
Proof.
  split; [reflexivity|].
  refine (proj2 (proj1 (persisted_element_is_carried_over
                   (Elem "body" [] [Elem "video" [(PERSIST_ATTR, "player")] [Text "playing"]])
                   (Elem "video" [(PERSIST_ATTR, "player")] [Text "playing"])
                   (mkDocument [] (Elem "head" [] [])
                      (Elem "body" [] [Elem "p" [] [];
                                       Elem "video" [(PERSIST_ATTR, "player")] []]))
                   _) [1%nat; 1%nat] _ _)).
  - reflexivity.
  - reflexivity.
  - discriminate.
Defined.

(** ** Prefetching *)

Lemma prefix_app (pat s : string) : String.prefix pat (pat ++ s)%string = true.
Proof.
  induction pat as [|c pat IH]; cbn.
  - now destruct s.
  - destruct (ascii_dec c c) as [_|N]; [exact IH | now elim N].
Qed.

Lemma prefix_inv (pat s : string) :
  String.prefix pat s = true -> exists post, s = (pat ++ post)%string.
Proof.
  revert s. induction pat as [|c pat IH]; intros s H.
  - exists s. reflexivity.
  - destruct s as [|c' s]; [discriminate|]. cbn in H.
    destruct (ascii_dec c c') as [->|_]; [|discriminate].
    destruct (IH s H) as (post & ->). exists post. reflexivity.
Qed.

(** [has_infix pat s] is the test [/pat/.test(s)] for a pattern without
    special characters: [pat] occurs somewhere in [s]. *)
Lemma has_infix_spec (pat s : string) :
  has_infix pat s = true <-> exists pre post, s = (pre ++ pat ++ post)%string.
Proof.
  split.
  - induction s as [|c s IH]; cbn [has_infix]; intros H.
    + rewrite orb_false_r in H. apply prefix_inv in H as (post & H).
      exists "", post. exact H.
    + apply orb_true_iff in H as [H|H].
      * apply prefix_inv in H as (post & H). exists "", post. exact H.
      * destruct (IH H) as (pre & post & ->). exists (String c pre), post. reflexivity.
  - intros (pre & post & ->). induction pre as [|c pre IH].
    + cbn [String.append]. destruct (pat ++ post)%string eqn:E; cbn [has_infix].
      * rewrite <- E, prefix_app. reflexivity.
      * rewrite <- E, prefix_app. reflexivity.
    + cbn [String.append has_infix]. rewrite IH. apply orb_true_r.
Qed.

Lemma existsb_subtree_child (f : Node -> bool) (t : string) (a : list (string * string))
  (cs : list Node) (c : Node) :
  In c cs -> existsb f (subtree c) = true -> existsb f (subtree (Elem t a cs)) = true.
Proof.
  intros Hin H. cbn [subtree existsb]. apply orb_true_iff. right.
  apply existsb_exists in H as (x & Hx & Hf). apply existsb_exists. exists x.
  split; [|exact Hf]. apply in_flat_map. exists c. split; assumption.
Qed.

Lemma prefetched_after_append (u : string) (p : Page) (t : string)
  (a : list (string * string)) (cs : list Node) :
  head (document p) = Elem t a cs ->
  prefetched u
    (set_document
       (set_head (append_children [prefetch_link u] (head (document p))) (document p)) p)
  = true.
Proof.
  intros H. unfold prefetched. rewrite exists_in_doc_existsb. rewrite H.
  cbn [document set_document set_head head documentElement append_children with_children
         html_attrs body].
  apply existsb_subtree_child with (c := Elem t a (cs ++ [prefetch_link u])); [now left|].
  apply existsb_subtree_child with (c := prefetch_link u).
  - apply in_or_app. right. now left.
  - unfold prefetch_link. cbn. now rewrite String.eqb_refl.
Qed.

(** X15: [maybePrefetch] is idempotent: once it has been called for a
    path, calling it again for the same path changes nothing, so a path
    gets at most one prefetch link however often its anchors are hovered
    or focused.  A call that does add a link adds it for that path. *)
Theorem maybePrefetch_idempotent (u : string) (p : Page) :
  maybePrefetch u (maybePrefetch u p) = maybePrefetch u p
  /\ (maybePrefetch u p <> p -> prefetched u (maybePrefetch u p) = true).
Proof.
  assert (E : maybePrefetch u p = p
              \/ (prefetched u (maybePrefetch u p) = true)).
  { unfold maybePrefetch. fold (prefetched u p).
    destruct (prefetched u p) eqn:E1; [now left|].
    match goal with |- context [if ?c then p else _] => destruct c eqn:E2 end;
      [now left|].
    destruct (head (document p)) as [t a cs|s0] eqn:Eh.
    - right. rewrite <- Eh. apply (prefetched_after_append u p t a cs Eh).
    - left. destruct p as [[ha h b] hi y v c i sv l]. cbn in Eh. subst h. reflexivity. }
  split.
  - destruct E as [E|E]; [now rewrite !E|].
    unfold maybePrefetch at 1. fold (prefetched u (maybePrefetch u p)). now rewrite E.
  - intros N. destruct E as [E|E]; [now elim N | exact E].
Qed.

(** X16: on a connection that asks to save data, or whose effective type
    contains "2g" or "3g" ("slow-2g", "2g", "3g"), [maybePrefetch] adds
    nothing. *)
Theorem maybePrefetch_on_slow_connection (u : string) (p : Page) (c : Connection) :
  connection p = Some c ->
  saveData c = true
  \/ (exists pre post, effectiveType c = Some (pre ++ "2g" ++ post)%string)
  \/ (exists pre post, effectiveType c = Some (pre ++ "3g" ++ post)%string) ->
  maybePrefetch u p = p.
Proof.
  intros Hc H. unfold maybePrefetch. rewrite Hc.
  destruct (exists_in_doc _ (document p)); [reflexivity|].
  assert (S : saveData c
              || (let t := match effectiveType c with Some t => t | None => "" end in
                  has_infix "2g" t || has_infix "3g" t) = true).
  { destruct H as [H|[(pre & post & H)|(pre & post & H)]].
    - now rewrite H.
    - rewrite H. cbv zeta.
      replace (has_infix "2g" (pre ++ "2g" ++ post)%string) with true
        by (symmetry; apply has_infix_spec; now exists pre, post).
      apply orb_true_r.
    - rewrite H. cbv zeta.
      replace (has_infix "3g" (pre ++ "3g" ++ post)%string) with true
        by (symmetry; apply has_infix_spec; now exists pre, post).
      rewrite !orb_true_r. reflexivity. }
  cbv zeta in S |- *. now rewrite S.
Qed.

Lemma maybePrefetch_on_slow_connection_witness :
  let p := mkPage (Sample.docA "animate") (mkHistory [] (mkEntry None Sample.urlA) [])
             0 false (Some (mkConnection false (Some "slow-2g"))) 0 false [] in
  maybePrefetch "/b" p = p.
Proof.
  apply (maybePrefetch_on_slow_connection "/b"
           (mkPage (Sample.docA "animate") (mkHistory [] (mkEntry None Sample.urlA) [])
              0 false (Some (mkConnection false (Some "slow-2g"))) 0 false [])
           (mkConnection false (Some "slow-2g"))).
  - reflexivity.
  - right. left. exists "slow-", "". reflexivity.
Defined.

(** X17: an event of the prefetch listener never fetches, never writes
    the history and never touches the body, the scroll offset or
    anything waiting in the event loop.  It changes the page only when
    its target is itself an anchor of the page's origin with another
    path, on a page with the enabling marker and without a prefetch link
    for that path: then that link is appended to the head. *)
Theorem prefetch_listener_effect (ev : Event) (w : World) :
  let p := page w in
  let w' := run (prefetch_listener ev) w in
  w' = set_page (page w') w
  /\ calls (page w') = calls p
  /\ history (page w') = history p
  /\ currentHistoryIndex (page w') = currentHistoryIndex p
  /\ win_scrollY (page w') = win_scrollY p
  /\ body (document (page w')) = body (document p)
  /\ html_attrs (document (page w')) = html_attrs (document p)
  /\ (page w' = p
      \/ exists el,
           target ev = OnAnchor el
           /\ origin (a_url el) = origin (location p)
           /\ pathname (a_url el) <> pathname (location p)
           /\ transitionEnabledOnThisPage p = true
           /\ prefetched (pathname (a_url el)) p = false
           /\ head (document (page w'))
              = append_children [prefetch_link (pathname (a_url el))] (head (document p))).
Proof.
  intros p w'. subst w' p. unfold prefetch_listener. cbn [run].
  assert (Same : w = set_page (page w) w) by (destruct w; reflexivity).
  destruct (target ev) as [el| |]; cbn [run];
    try (repeat split; try exact Same; now left).
  destruct (String.eqb (origin (a_url el)) (origin (location (page w)))) eqn:Eo;
    cbn [andb run]; [|repeat split; try exact Same; now left].
  destruct (String.eqb (pathname (a_url el)) (pathname (location (page w)))) eqn:Ep;
    cbn [andb negb run]; [repeat split; try exact Same; now left|].
  destruct (transitionEnabledOnThisPage (page w)) eqn:Et;
    cbn [run]; [|repeat split; try exact Same; now left].
  cbn [page set_page]. unfold maybePrefetch. fold (prefetched (pathname (a_url el)) (page w)).
  destruct (prefetched (pathname (a_url el)) (page w)) eqn:E1;
    [repeat split; try (destruct w; reflexivity); now left|].
  match goal with |- context [if ?c then page w else _] => destruct c end;
    [repeat split; try (destruct w; reflexivity); now left|].
  repeat split. right. exists el.
  apply String.eqb_eq in Eo. apply String.eqb_neq in Ep.
  repeat split; assumption.
Qed.

(** ** Clicks that are not taken over *)

Section Clicks.

Variable parseFromString : string -> Document.

Lemma intercepted_or_left (ev : Event) (p : Page) :
  (exists link, intercepted ev p = Some link /\ ~ left_to_browser ev p) \/
  (intercepted ev p = None /\ left_to_browser ev p).
Proof.
  unfold intercepted, left_to_browser, same_origin_click, nonempty.
  destruct (click_link (target ev)) as [link|]; [|right; split; [reflexivity | exact I]].
  destruct (String.eqb_spec (href (a_url link)) "") as [E1|E1];
    [right; split; [reflexivity | tauto]|].
  destruct (String.eqb_spec (a_target link) "") as [E2|E2];
    destruct (String.eqb_spec (a_target link) "_self") as [E2'|E2'];
    cbn [negb orb andb]; try (right; split; [reflexivity | tauto]);
    (destruct (String.eqb_spec (origin (a_url link)) (origin (location p))) as [E3|E3];
       [|right; split; [reflexivity | tauto]]);
    (destruct (String.eqb_spec (hash (a_url link)) "") as [E4|E4];
       [|right; split; [reflexivity | tauto]]);
    (destruct (Z.eqb_spec (button ev) 0) as [E5|E5];
       [|right; split; [reflexivity | tauto]]);
    (destruct (metaKey ev); [right; split; [reflexivity | tauto]|]);
    (destruct (ctrlKey ev); [right; split; [reflexivity | tauto]|]);
    (destruct (altKey ev); [right; split; [reflexivity | tauto]|]);
    (destruct (shiftKey ev); [right; split; [reflexivity | tauto]|]);
    (destruct (defaultPrevented ev); [right; split; [reflexivity | tauto]|]);
    (destruct (transitionEnabledOnThisPage p); [|right; split; [reflexivity | tauto]]);
    left; exists link; (split; [reflexivity|]); intuition (congruence || discriminate).
Qed.

Lemma left_not_intercepted (ev : Event) (p : Page) :
  left_to_browser ev p -> intercepted ev p = None.
Proof.
  intros H. destruct (intercepted_or_left ev p) as [(link & _ & N)|[E _]];
    [now elim N | exact E].
Qed.

(** X4: the click listener leaves a click alone, doing nothing at all,
    exactly when the click is not on or inside an anchor, or the anchor
    has no [href], has a [target] other than [_self], points to another
    origin or carries a hash, or the click is not a plain left click
    (another button, or meta, ctrl, alt or shift held), or its default
    was prevented already, or the page lacks the enabling marker.  Every
    other click is taken over: its default is prevented. *)
Theorem click_left_to_browser (ev : Event) (w : World) :
  (left_to_browser ev (page w) <-> run (click_listener parseFromString ev) w = w)
  /\ (left_to_browser ev (page w)
      \/ In EPreventDefault (calls (page (run (click_listener parseFromString ev) w)))).
Proof.
  assert (Taken : forall link, intercepted ev (page w) = Some link ->
            calls (page (run (click_listener parseFromString ev) w))
            = calls (page w)
              ++ [EPreventDefault; EFetch (href (a_url link));
                  EReplaceState (mkState (currentHistoryIndex (page w)) (win_scrollY (page w)));
                  EPushState (mkState (currentHistoryIndex (page w) + 1) (win_scrollY (page w)))
                    (href (a_url link))]).
  { intros link E. rewrite (click_listener_run parseFromString w ev link E).
    cbn. repeat rewrite <- app_assoc. reflexivity. }
  split; [split|].
  - intros H. apply left_not_intercepted in H.
    unfold click_listener. cbn [run]. now rewrite H.
  - intros H. destruct (intercepted_or_left ev (page w)) as [(link & E & _)|[_ L]];
      [|exact L].
    exfalso. apply Taken in E. rewrite H in E.
    apply (f_equal (@List.length Effect)) in E. rewrite length_app in E. cbn in E. lia.
  - destruct (intercepted_or_left ev (page w)) as [(link & E & _)|[_ L]]; [|now left].
    right. rewrite (Taken link E). apply in_or_app. right. now left.
Qed.

End Clicks.

(** ** A popstate without state *)

Section HashChange.

Variable parseFromString : string -> Document.

(** X5: a [popstate] whose state is [null] (a change of hash) on a page
    with the enabling marker starts no navigation: the listener writes
    the in-memory index and the current scroll offset into the current
    entry, prevents the default and does nothing else.  Nothing is
    fetched, the index and the document stay as they are. *)
Theorem popstate_without_state_persists (w : World) (ev : Event) :
  transitionEnabledOnThisPage (page w) = true ->
  ev_state ev = None ->
  let p := page w in
  let w' := run (popstate_listener parseFromString ev) w in
  w' = set_page
         (record EPreventDefault
            (persistState (mkState (currentHistoryIndex p) (win_scrollY p)) p)) w
  /\ calls (page w')
     = calls p ++ [EReplaceState (mkState (currentHistoryIndex p) (win_scrollY p));
                   EPreventDefault]
  /\ history (page w')
     = mkHistory (past (history p))
         (mkEntry (Some (mkState (currentHistoryIndex p) (win_scrollY p))) (location p))
         (future (history p))
  /\ currentHistoryIndex (page w') = currentHistoryIndex p
  /\ document (page w') = document p
  /\ fetches w' = fetches w.
Proof.
  intros He Hs p w'. subst w' p. unfold popstate_listener. cbn [run].
  rewrite He, Hs. cbn. rewrite <- app_assoc. repeat split; reflexivity.
Qed.

End HashChange.

Lemma popstate_without_state_persists_witness :
  let w := idle (Sample.pageA "animate") in
  transitionEnabledOnThisPage (page w) = true
  /\ history_state
       (page (run (popstate_listener (Sample.parse "animate") (Sample.popstate_with None)) w))
     = Some (mkState 0 120).
Proof.
  split; [reflexivity|].
  refine (f_equal (fun h => e_state (current h))
            (proj1 (proj2 (proj2
               (popstate_without_state_persists (Sample.parse "animate")
                  (idle (Sample.pageA "animate")) (Sample.popstate_with None) _ _))))).
  - reflexivity.
  - reflexivity.
Defined.

(** ** The start of the script *)

Section Start.

Variable parseFromString : string -> Document.

(** X1: what running the script on a freshly loaded page comes to.  When
    the current entry has a state (a reload, or a return from another
    site), the in-memory index is taken from it and nothing is written;
    otherwise the index is 0 and the state (index 0, scrollY 0) is
    written into the entry.  The seven listeners are registered unless
    the platform lacks [document.startViewTransition] and the fallback
    marker reads 'none'; a page without fallback marker counts as
    'animate', so it gets them.  The document and the scroll offset are
    untouched and nothing is fetched. *)
Theorem script_start (fuel : nat) (p : Page) :
  let w := task fuel (main parseFromString) (idle p) in
  listeners w = (if installs p then installed parseFromString else [])
  /\ currentHistoryIndex (page w)
     = match history_state p with Some s => index s | None => 0 end
  /\ history_state (page w)
     = match history_state p with Some s => Some s | None => Some (mkState 0 0) end
  /\ calls (page w)
     = calls p ++ match history_state p with
                  | Some _ => []
                  | None => [EReplaceState (mkState 0 0)]
                  end
  /\ supportsViewTransitions (page w) = has_startViewTransition p
  /\ document (page w) = document p
  /\ win_scrollY (page w) = win_scrollY p
  /\ timers w = [] /\ fetches w = [] /\ microtasks w = []
  /\ (installs p = false
      <-> has_startViewTransition p = false /\ getFallback p = Some "none")
  /\ (exists_in_doc [[SAttrEq "name" "astro-view-transitions-fallback"]] (document p) = false
      -> installs p = true).
Proof.
  intros w.
  assert (E : w = if installs p
                  then mkWorld (prelude p) 0 8 [(6%nat, VBool false)] [] [] [] []
                         (installed parseFromString) [] [] []
                  else idle (prelude p)).
  { subst w. unfold task. rewrite main_on_fresh_page.
    destruct (installs p).
    - rewrite install_on_fresh_page. apply drain_idle. reflexivity.
    - apply drain_idle. reflexivity. }
  assert (P : page w = prelude p) by (rewrite E; destruct (installs p); reflexivity).
  rewrite P.
  split; [rewrite E; destruct (installs p); reflexivity|].
  unfold prelude, history_state.
  destruct p as [d [pa [st url] fu] y0 v c i sv l]. cbn.
  split; [destruct st; reflexivity|].
  split; [destruct st; reflexivity|].
  split; [destruct st; cbn; [now rewrite app_nil_r | reflexivity]|].
  split; [destruct st; reflexivity|].
  split; [destruct st; reflexivity|].
  split; [destruct st; reflexivity|].
  split; [rewrite E; now destruct (installs _)|].
  split; [rewrite E; now destruct (installs _)|].
  split; [rewrite E; now destruct (installs _)|].
  unfold installs, getFallback, exists_in_doc. cbn [has_startViewTransition document].
  split.
  - split.
    + intros H. apply orb_false_iff in H as [H1 H2]. split; [exact H1|].
      apply negb_false_iff in H2. unfold is_mode in H2.
      match type of H2 with
      | match ?f with _ => _ end = true => destruct f as [m|]; [|discriminate]
      end.
      apply String.eqb_eq in H2. now subst.
    + intros [H1 H2]. rewrite H1, H2. reflexivity.
  - destruct (doc_querySelector _ d); [discriminate|]. intros _.
    apply orb_true_r.
Qed.

End Start.

(** ** The 'animate' fallback: one swap *)

Section ListFacts.

Context {A : Type}.






End ListFacts.



Lemma listener_present (t : Target) (name : string) (l : Listener) (r : list Listener)
  (w : World) :
  listening t name w = l :: r ->
  existsb (same_listener (l_target l) (l_name l) (l_fun l)) (listeners w) = true.
Proof.
  intros H. apply existsb_exists. exists l. split.
  - assert (K : In l (listening t name w)) by (rewrite H; now left).
    unfold listening in K. apply filter_In in K. apply K.
  - unfold same_listener. destruct (l_target l);
      now rewrite String.eqb_refl, Nat.eqb_refl.
Qed.

Lemma preload_nothing (els : list Node) (links : list nat) (k : list nat -> Prog)
  (w : World) :
  forallb (fun el => already_on_page el (page w)) els = true ->
  run (preload els links k) w = run (k links) w.
Proof.
  induction els as [|el els IH]; [reflexivity|]. cbn [forallb preload run].
  intros H. apply andb_true_iff in H as [H1 H2]. rewrite H1. cbn [negb].
  now apply IH.
Qed.



Section AnimateFallback.

Variable fuel : nat.
Variable doc : Document.
Variable state : option State.
Variable f0 : nat.
Variable p : Page.















End AnimateFallback.

Section AnimateBranch.

Variable parseFromString : string -> Document.



End AnimateBranch.


(** ** Code that leaves part of the page alone: the event loop *)

Lemma Forall_filter' {A} (P : A -> Prop) (f : A -> bool) (l : list A) :
  Forall P l -> Forall P (filter f l).
Proof.
  induction 1 as [|x l Hx _ IH]; cbn; [constructor|].
  destruct (f x); [constructor; assumption | assumption].
Qed.

Section CodeFacts.

Variable parseFromString : string -> Document.
Variable R : Page -> Page -> Prop.

Local Abbreviation quiet' := (quiet R).
Local Abbreviation core' := (core R).
Local Abbreviation rest' := (rest parseFromString R).

Lemma release_quiet (q : nat) (ws : list (list nat * Prog)) :
  Forall (fun x => quiet' (snd x)) ws ->
  Forall (fun x => quiet' (snd x)) (fst (release q ws))
  /\ Forall quiet' (snd (release q ws)).
Proof.
  induction 1 as [|[ps k] ws Hx _ IH]; cbn [release]; [split; constructor|].
  destruct (release q ws) as [keep go]. cbn [fst snd] in *. destruct IH as [IH1 IH2].
  destruct (filter _ ps); cbn [fst snd]; split;
    try assumption; constructor; assumption.
Qed.

Lemma core_resolve (q : nat) (w : World) : core' w -> core' (resolve q w).
Proof.
  intros [Hm Hw]. unfold resolve. destruct (mem q (settled w)); [split; assumption|].
  pose proof (release_quiet q (waiting w) Hw) as [K1 K2].
  destruct (release q (waiting w)) as [keep go]. cbn [fst snd] in *.
  unfold core. wsimpl. split; [|exact K1].
  apply Forall_app. split; assumption.
Qed.

Lemma rest_resolve (q : nat) (w : World) : rest' w -> rest' (resolve q w).
Proof.
  intros H. unfold resolve. destruct (mem q (settled w)); [exact H|].
  destruct (release q (waiting w)). exact H.
Qed.

Lemma core_suspend (ps : list nat) (k : Prog) (w : World) :
  quiet' k -> core' w -> core' (suspend ps k w).
Proof.
  intros Hk [Hm Hw]. unfold suspend. destruct (unsettled w ps); unfold core; wsimpl.
  - split; [|exact Hw]. apply Forall_app. split; [exact Hm|]. now constructor.
  - split; [exact Hm|]. apply Forall_app. split; [exact Hw|]. now constructor.
Qed.

Lemma rest_suspend (ps : list nat) (k : Prog) (w : World) :
  rest' w -> rest' (suspend ps k w).
Proof. intros H. unfold suspend. destruct (unsettled w ps); exact H. Qed.

Lemma animation_not_popstate (name : string) :
  is_animation_event name = true -> name <> "popstate".
Proof. intros H ->. discriminate H. Qed.

(** Running code keeps the event loop within [R] and changes the page
    within [R0]. *)
Lemma run_code (R0 : Page -> Page -> Prop) (k : Prog) :
  code R R0 k ->
  (forall p, R0 p p) ->
  (forall a b c, R0 a b -> R0 b c -> R0 a c) ->
  forall w, core' w ->
  core' (run k w)
  /\ R0 (page w) (page (run k w))
  /\ (rest' w -> rest' (run k w)).
Proof.
  induction 1 as
    [R0
    |R0 k Hk IH
    |R0 f k Hf Hk IH
    |R0 q k Hq IHq Hk IHk
    |R0 k Hk IH
    |R0 q k Hk IH
    |R0 ps k Hk IH
    |R0 v k Hk IH
    |R0 c k Hk IH
    |R0 c v k Hk IH
    |R0 u k Hu Hk IH
    |R0 cb delay k Hcb IHcb Hk IH
    |R0 t k Hk IH
    |R0 k Hk IH
    |R0 t name once f cb k Hcb IHcb Hname Hk IH
    |R0 t name f k Hname Hk IH
    |R0 k Hk IH
    |R0 el names q k Hk IH
    |R0 update k Hu IHu Hk IH];
    intros Hrefl Htrans w Hc; cbn [run].
  - split; [exact Hc|]. split; [apply Hrefl | tauto].
  - apply (IH (page w) Hrefl Htrans w Hc).
  - destruct (IH Hrefl Htrans (set_page (f (page w)) w) Hc) as (K1 & K2 & K3).
    split; [exact K1|]. split; [|exact K3].
    eapply Htrans; [apply Hf | exact K2].
  - destruct (IHq Hrefl Htrans w Hc) as (K1 & K2 & K3).
    destruct (IHk Hrefl Htrans (run q w) K1) as (L1 & L2 & L3).
    split; [exact L1|]. split; [eapply Htrans; eassumption | tauto].
  - apply (IH (fresh w) Hrefl Htrans (next_fresh w) Hc).
  - destruct (IH Hrefl Htrans (resolve q w) (core_resolve q w Hc)) as (K1 & K2 & K3).
    split; [exact K1|]. split; [now rewrite page_resolve in K2|].
    intros Hr. apply K3. now apply rest_resolve.
  - split; [now apply core_suspend|]. split; [rewrite page_suspend; apply Hrefl|].
    apply rest_suspend.
  - apply (IH (fresh w) Hrefl Htrans
             (next_fresh (set_vars ((fresh w, v) :: vars w) w)) Hc).
  - apply (IH (read_var c (vars w)) Hrefl Htrans w Hc).
  - apply (IH Hrefl Htrans (set_vars ((c, v) :: vars w) w) Hc).
  - split; [exact Hc|]. split; [apply Hu|].
    intros (Ht & Hf & Hv & Hl). unfold rest. wsimpl.
    split; [exact Ht|]. split; [|split; assumption].
    apply Forall_app. split; [exact Hf|]. constructor; [exact Hk | constructor].
  - destruct (IH (fresh w) Hrefl Htrans
                (next_fresh
                   (set_timers (timers w ++ [mkTimer (fresh w) (now w + delay) cb]) w)) Hc)
      as (K1 & K2 & K3).
    split; [exact K1|]. split; [exact K2|].
    intros (Ht & Hf & Hv & Hl). apply K3. unfold rest. wsimpl.
    split; [|split; [|split]; assumption].
    apply Forall_app. split; [exact Ht|]. constructor; [exact Hcb | constructor].
  - destruct (IH Hrefl Htrans
                (set_timers (filter (fun x => negb (timer_of t x)) (timers w)) w) Hc)
      as (K1 & K2 & K3).
    split; [exact K1|]. split; [exact K2|].
    intros (Ht & Hf & Hv & Hl). apply K3. unfold rest. wsimpl.
    split; [|split; [|split]; assumption]. now apply Forall_filter'.
  - apply (IH (fresh w) Hrefl Htrans (next_fresh w) Hc).
  - destruct (IH Hrefl Htrans (add_listener (mkListener t name once f cb) w) Hc)
      as (K1 & K2 & K3).
    split; [exact K1|]. split; [exact K2|].
    intros (Ht & Hf & Hv & Hl). apply K3. unfold rest, add_listener. wsimpl.
    split; [exact Ht|]. split; [exact Hf|]. split; [exact Hv|].
    destruct (existsb _ (listeners w)); [exact Hl|].
    apply Forall_app. split; [exact Hl|]. constructor; [|constructor].
    apply kind_quiet; [exact Hcb | now apply animation_not_popstate].
  - destruct (IH Hrefl Htrans
                (set_listeners
                   (filter (fun l => negb (same_listener t name f l)) (listeners w)) w) Hc)
      as (K1 & K2 & K3).
    split; [exact K1|]. split; [exact K2|].
    intros (Ht & Hf & Hv & Hl). apply K3. unfold rest. wsimpl.
    split; [exact Ht|]. split; [exact Hf|]. split; [exact Hv|]. now apply Forall_filter'.
  - apply (IH (fresh w) Hrefl Htrans (next_fresh w) Hc).
  - apply (IH Hrefl Htrans
             (set_element_hooks (element_hooks w ++ map (fun n => (el, n, q)) names) w) Hc).
  - destruct (IH (S (fresh w)) Hrefl Htrans
                (next_fresh
                   (next_fresh
                      (set_transitions
                         (transitions w
                          ++ [mkTransition (Some update) (fresh w) (S (fresh w))]) w))) Hc)
      as (K1 & K2 & K3).
    split; [exact K1|]. split; [exact K2|].
    intros (Ht & Hf & Hv & Hl). apply K3. unfold rest. wsimpl.
    split; [exact Ht|]. split; [exact Hf|]. split; [|exact Hl].
    apply Forall_app. split; [exact Hv|]. constructor; [|constructor].
    intros u E n. cbn in E. injection E as <-. apply Hu.
Qed.

Lemma listeners_resolve (q : nat) (w : World) : listeners (resolve q w) = listeners w.
Proof.
  unfold resolve. destruct (mem q (settled w)); [reflexivity|].
  destruct (release q (waiting w)). reflexivity.
Qed.

Lemma listeners_suspend (ps : list nat) (k : Prog) (w : World) :
  listeners (suspend ps k w) = listeners w.
Proof. unfold suspend. destruct (unsettled w ps); reflexivity. Qed.

Lemma survives_removal (t : Target) (name : string) (f : nat) (l : Listener)
  (ls : list Listener) :
  name <> "popstate" -> l_name l = "popstate" -> In l ls ->
  In l (filter (fun x => negb (same_listener t name f x)) ls).
Proof.
  intros Hn Hl Hin. apply filter_In. split; [exact Hin|].
  unfold same_listener. rewrite Hl.
  destruct (String.eqb_spec name "popstate") as [E|_]; [now elim Hn|].
  destruct t, (l_target l); reflexivity.
Qed.

(** Code never removes a [popstate] listener. *)
Lemma run_code_hears (R0 : Page -> Page -> Prop) (k : Prog) :
  code R R0 k ->
  forall w l, In l (listeners w) -> l_name l = "popstate" -> In l (listeners (run k w)).
Proof.
  induction 1 as
    [R0
    |R0 k Hk IH
    |R0 f k Hf Hk IH
    |R0 q k Hq IHq Hk IHk
    |R0 k Hk IH
    |R0 q k Hk IH
    |R0 ps k Hk IH
    |R0 v k Hk IH
    |R0 c k Hk IH
    |R0 c v k Hk IH
    |R0 u k Hu Hk IH
    |R0 cb delay k Hcb IHcb Hk IH
    |R0 t k Hk IH
    |R0 k Hk IH
    |R0 t name once f cb k Hcb IHcb Hname Hk IH
    |R0 t name f k Hname Hk IH
    |R0 k Hk IH
    |R0 el names q k Hk IH
    |R0 update k Hu IHu Hk IH];
    intros w l Hin Hl; cbn [run].
  - exact Hin.
  - now apply IH.
  - now apply IH.
  - apply IHk; [|exact Hl]. now apply IHq.
  - now apply IH.
  - apply IH; [|exact Hl]. now rewrite listeners_resolve.
  - now rewrite listeners_suspend.
  - now apply IH.
  - now apply IH.
  - now apply IH.
  - exact Hin.
  - now apply IH.
  - now apply IH.
  - now apply IH.
  - apply IH; [|exact Hl]. unfold add_listener. cbn [listeners set_listeners].
    destruct (existsb _ (listeners w)); [exact Hin|]. apply in_or_app. now left.
  - apply IH; [|exact Hl]. cbn [listeners set_listeners].
    apply survives_removal; [now apply animation_not_popstate | exact Hl | exact Hin].
  - now apply IH.
  - now apply IH.
  - now apply IH.
Qed.

Lemma lasting_removal (t : Target) (name : string) (f : nat) (ls : list Listener) :
  is_animation_event name = true ->
  lasting (filter (fun x => negb (same_listener t name f x)) ls) = lasting ls.
Proof.
  intros Hn. induction ls as [|x ls IH]; [reflexivity|]. cbn [filter].
  destruct (same_listener t name f x) eqn:E; cbn [negb].
  - rewrite IH. unfold lasting at 2. cbn [filter].
    assert (Ex : l_name x = name).
    { unfold same_listener in E.
      destruct t, (l_target x); try discriminate E;
        apply andb_prop in E as [E _]; apply String.eqb_eq in E; now symmetry. }
    rewrite Ex, Hn. reflexivity.
  - unfold lasting in *. cbn [filter]. now rewrite IH.
Qed.

(** Code registers and removes listeners of the 'animate' fallback
    only. *)
Lemma run_code_lasting (R0 : Page -> Page -> Prop) (k : Prog) :
  code R R0 k ->
  forall w, lasting (listeners (run k w)) = lasting (listeners w).
Proof.
  induction 1 as
    [R0
    |R0 k Hk IH
    |R0 f k Hf Hk IH
    |R0 q k Hq IHq Hk IHk
    |R0 k Hk IH
    |R0 q k Hk IH
    |R0 ps k Hk IH
    |R0 v k Hk IH
    |R0 c k Hk IH
    |R0 c v k Hk IH
    |R0 u k Hu Hk IH
    |R0 cb delay k Hcb IHcb Hk IH
    |R0 t k Hk IH
    |R0 k Hk IH
    |R0 t name once f cb k Hcb IHcb Hname Hk IH
    |R0 t name f k Hname Hk IH
    |R0 k Hk IH
    |R0 el names q k Hk IH
    |R0 update k Hu IHu Hk IH];
    intros w; cbn [run]; try reflexivity; try (now rewrite IH).
  - now rewrite IHk, IHq.
  - now rewrite IH, listeners_resolve.
  - now rewrite listeners_suspend.
  - rewrite IH. unfold add_listener. cbn [listeners set_listeners l_target l_name l_fun].
    destruct (existsb _ (listeners w)); [reflexivity|].
    unfold lasting. rewrite filter_app. cbn [filter l_name]. rewrite Hname.
    apply app_nil_r.
  - rewrite IH. cbn [listeners set_listeners]. now apply lasting_removal.
Qed.

End CodeFacts.

Section ScriptCode.

Variable parseFromString : string -> Document.
Variable R : Page -> Page -> Prop.

Hypothesis R_refl : forall p, R p p.
Hypothesis R_trans : forall a b c, R a b -> R b c -> R a c.
Hypothesis R_document : forall d p, R p (set_document d p).
Hypothesis R_record : forall e p, is_write_or_fetch e = false -> R p (record e p).

Lemma drain_quiet (fuel : nat) (w : World) :
  core R w ->
  core R (drain fuel w)
  /\ R (page w) (page (drain fuel w))
  /\ (rest parseFromString R w -> rest parseFromString R (drain fuel w)).
Proof.
  revert w. induction fuel as [|fuel IH]; intros w Hc; cbn [drain].
  - split; [exact Hc|]. split; [apply R_refl | tauto].
  - destruct (microtasks w) as [|j r] eqn:E.
    + split; [exact Hc|]. split; [apply R_refl | tauto].
    + destruct Hc as [Hm Hw]. rewrite E in Hm. inversion Hm as [|? ? Hj Hr]. subst.
      destruct (run_code parseFromString R R j Hj R_refl R_trans (set_microtasks r w))
        as (K1 & K2 & K3); [split; assumption|].
      destruct (IH _ K1) as (L1 & L2 & L3).
      split; [exact L1|]. split; [eapply R_trans; [exact K2 | exact L2]|].
      intros Hr'. apply L3, K3. exact Hr'.
Qed.

Lemma drain_hears (fuel : nat) (w : World) (l : Listener) :
  core R w -> In l (listeners w) -> l_name l = "popstate" ->
  In l (listeners (drain fuel w)).
Proof.
  revert w. induction fuel as [|fuel IH]; intros w Hc Hin Hl; cbn [drain]; [exact Hin|].
  destruct (microtasks w) as [|j r] eqn:E; [exact Hin|].
  destruct Hc as [Hm Hw]. rewrite E in Hm. inversion Hm as [|? ? Hj Hr]. subst.
  destruct (run_code parseFromString R R j Hj R_refl R_trans (set_microtasks r w))
    as (K1 & _ & _); [split; assumption|].
  apply IH; [exact K1| |exact Hl].
  now apply (run_code_hears R R j Hj).
Qed.

Lemma drain_lasting (fuel : nat) (w : World) :
  core R w -> lasting (listeners (drain fuel w)) = lasting (listeners w).
Proof.
  revert w. induction fuel as [|fuel IH]; intros w Hc; cbn [drain]; [reflexivity|].
  destruct (microtasks w) as [|j r] eqn:E; [reflexivity|].
  destruct Hc as [Hm Hw]. rewrite E in Hm. inversion Hm as [|? ? Hj Hr]. subst.
  destruct (run_code parseFromString R R j Hj R_refl R_trans (set_microtasks r w))
    as (K1 & _ & _); [split; assumption|].
  rewrite (IH _ K1). exact (run_code_lasting R R j Hj (set_microtasks r w)).
Qed.

Lemma code_then_ (R0 : Page -> Page -> Prop) (wait p : nat) (k : nat -> Prog) :
  (forall q, code R R0 (k q)) -> code R R0 (then_ wait p k).
Proof.
  intros Hk. unfold then_. apply code_NewPromise. intros q.
  apply code_Call; [|apply Hk].
  apply code_Await, code_Await, code_Resolve, code_Done.
Qed.

Lemma code_runScripts_loop (R0 : Page -> Page -> Prop) (l : list Node) (wait : nat)
  (k : nat -> Prog) :
  (forall e p, is_write_or_fetch e = false -> R0 p (record e p)) ->
  (forall wait', code R R0 (k wait')) ->
  code R R0 (runScripts_loop l wait k).
Proof.
  intros Hrec Hk. revert wait. induction l as [|script l IH]; intros wait;
    cbn [runScripts_loop]; [apply Hk|].
  apply code_CreateElement. intros s.
  destruct (has_src script).
  - apply code_NewPromise. intros p. apply code_OnElementEvent, code_then_.
    intros q. apply code_Modify; [intros p0; now apply Hrec | apply IH].
  - apply code_Modify; [intros p0; now apply Hrec | apply IH].
Qed.

Lemma code_runScripts (R0 : Page -> Page -> Prop) (k : nat -> Prog) :
  (forall e p, is_write_or_fetch e = false -> R0 p (record e p)) ->
  (forall wait, code R R0 (k wait)) ->
  code R R0 (runScripts k).
Proof.
  intros Hrec Hk. unfold runScripts. apply code_NewPromise. intros wait.
  apply code_Resolve, code_Get. intros p. now apply code_runScripts_loop.
Qed.

(** What [navigate] does once the transition is over. *)
Lemma quiet_finally :
  quiet R
    (Modify (remove_root_attr "data-astro-transition")
       (runScripts (fun wait => Await [wait] (Modify onload Done)))).
Proof.
  apply code_Modify; [intros p; apply R_document|].
  apply code_runScripts; [exact R_record|]. intros wait.
  apply code_Await, code_Modify; [|apply code_Done].
  intros p. now apply R_record.
Qed.

Hypothesis R_scroll : forall y p, R p (set_win_scrollY y p).

Lemma R_swap (doc : Document) (state : option State) (p : Page) : R p (swap doc state p).
Proof.
  unfold swap, triggerEvent, dispatchEvent, scrollTo.
  destruct state as [s|].
  - eapply R_trans; [|now apply R_record].
    eapply R_trans; [|now apply R_record].
    eapply R_trans; [|apply R_scroll].
    eapply R_trans; [|now apply R_record].
    apply R_document.
  - eapply R_trans; [|now apply R_record].
    eapply R_trans; [|now apply R_record].
    apply R_document.
Qed.

Lemma quiet_preload (els : list Node) (links : list nat) (k : list nat -> Prog) :
  (forall links', quiet R (k links')) -> quiet R (preload els links k).
Proof.
  intros Hk. revert links. induction els as [|el els IH]; intros links;
    cbn [preload]; [apply Hk|].
  apply code_Get. intros p. destruct (negb (already_on_page el p)); [|apply IH].
  apply code_CreateElement. intros c. apply code_NewPromise. intros q.
  apply code_OnElementEvent, code_Modify; [intros p0; apply R_document | apply IH].
Qed.

Lemma quiet_fallbackSwap (doc : Document) (state : option State) (fs : nat)
  (timeout : nat) :
  quiet R
    (RemoveEventListener TWindow "animationend" fs
       (ReadVar timeout (fun t =>
        ClearTimeout t
        (Modify (swap doc state)
        (Modify (set_root_attr "data-astro-transition-fallback" "new") Done))))).
Proof.
  apply code_RemoveEventListener; [reflexivity|].
  apply code_ReadVar. intros t. apply code_ClearTimeout.
  apply code_Modify; [intros p; apply R_swap|].
  apply code_Modify; [intros p; apply R_document | apply code_Done].
Qed.

Lemma quiet_updateDOM (dir : Direction) (html : string) (state : option State)
  (fallback : option string) (finished : nat) :
  quiet R (updateDOM parseFromString dir html state fallback finished).
Proof.
  unfold updateDOM. apply quiet_preload. intros links.
  assert (B : quiet R
    (if is_mode "animate" fallback then
       NewVar (VBool false) (fun isAnimating =>
       NewFunction (fun f =>
       AddEventListener TWindow "animationstart" true f
         (fun _ => WriteVar isAnimating (VBool true) Done)
       (Modify (set_root_attr "data-astro-transition-fallback" "old")
       (NewVar VUndefined (fun timeout =>
        NewFunction (fun fs =>
        let fallbackSwap :=
          RemoveEventListener TWindow "animationend" fs
          (ReadVar timeout (fun t =>
           ClearTimeout t
           (Modify (swap (incoming parseFromString dir html) state)
           (Modify (set_root_attr "data-astro-transition-fallback" "new")
            Done)))) in
        AddEventListener TWindow "animationend" true fs (fun _ => fallbackSwap)
        (SetTimeout
           (ReadVar isAnimating (fun a => if truthy a then Done else fallbackSwap))
           0%nat (fun t =>
         WriteVar timeout (VNum t)
         (Resolve finished Done)))))))))
     else
       Modify (swap (incoming parseFromString dir html) state)
       (Resolve finished Done))).
  { destruct (is_mode "animate" fallback).
    - apply code_NewVar. intros isAnimating. apply code_NewFunction. intros f.
      apply code_AddEventListener; [|reflexivity|].
      { intros _. apply code_WriteVar, code_Done. }
      apply code_Modify; [intros p; apply R_document|].
      apply code_NewVar. intros timeout. apply code_NewFunction. intros fs. cbv zeta.
      apply code_AddEventListener; [|reflexivity|].
      { intros _. apply quiet_fallbackSwap. }
      apply code_SetTimeout.
      + apply code_ReadVar. intros a. destruct (truthy a);
          [apply code_Done | apply quiet_fallbackSwap].
      + intros t. apply code_WriteVar, code_Resolve, code_Done.
    - apply code_Modify; [intros p; apply R_swap|]. apply code_Resolve, code_Done. }
  destruct links; [exact B | apply code_Await; exact B].
Qed.

(** [navigate]: the fetch is made at once, the rest is left behind. *)
Lemma code_navigate (R0 : Page -> Page -> Prop) (dir : Direction) (u : string)
  (state : option State) :
  (forall p, R0 p (record (EFetch u) p)) ->
  code R R0 (navigate parseFromString dir u state).
Proof.
  intros Hf. unfold navigate, getHTML. apply code_Fetch; [exact Hf|]. intros r.
  destruct (negb (ok r)).
  - apply code_Modify; [intros p; now apply R_record | apply code_Done].
  - apply code_Get. intros p.
    assert (K : forall finished,
               quiet R
                 (Await [finished]
                    (Modify (remove_root_attr "data-astro-transition")
                       (runScripts (fun wait => Await [wait] (Modify onload Done)))))).
    { intros finished. apply code_Await, quiet_finally. }
    destruct (supportsViewTransitions p).
    + apply code_StartViewTransition; [|exact K].
      intros finished. apply quiet_updateDOM.
    + apply code_NewPromise. intros finished.
      apply code_Call; [apply quiet_updateDOM | apply K].
Qed.

Lemma R_maybePrefetch (u : string) (p : Page) : R p (maybePrefetch u p).
Proof.
  unfold maybePrefetch. destruct (exists_in_doc _ (document p)); [apply R_refl|].
  match goal with |- context [if ?c then p else _] => destruct c end;
    [apply R_refl | apply R_document].
Qed.

Lemma quiet_prefetch_listener (ev : Event) : quiet R (prefetch_listener ev).
Proof.
  unfold prefetch_listener. apply code_Get. intros p.
  destruct (target ev); try apply code_Done.
  destruct (_ && transitionEnabledOnThisPage p); [|apply code_Done].
  apply code_Modify; [intros p0; apply R_maybePrefetch | apply code_Done].
Qed.

Lemma code_click_listener (ev : Event) :
  code R anything (click_listener parseFromString ev).
Proof.
  unfold click_listener. apply code_Get. intros p.
  destruct (intercepted ev p); [|apply code_Done].
  apply code_Modify; [exact (fun _ => I)|].
  apply code_Call; [apply code_navigate; exact (fun _ => I)|].
  apply code_Modify; [exact (fun _ => I)|]. apply code_Get. intros p'. cbv zeta.
  apply code_Modify; [exact (fun _ => I)|].
  apply code_Modify; [exact (fun _ => I) | apply code_Done].
Qed.

Lemma code_popstate_listener (ev : Event) :
  code R anything (popstate_listener parseFromString ev).
Proof.
  unfold popstate_listener. apply code_Get. intros p.
  destruct (negb (transitionEnabledOnThisPage p)).
  - apply code_Modify; [exact (fun _ => I) | apply code_Done].
  - destruct (ev_state ev).
    + cbv zeta. apply code_Call; [apply code_navigate; exact (fun _ => I)|].
      apply code_Modify; [exact (fun _ => I) | apply code_Done].
    + apply code_Modify; [exact (fun _ => I)|].
      apply code_Modify; [exact (fun _ => I) | apply code_Done].
Qed.

Lemma code_scroll_listener (wait : nat) (ev : Event) :
  code R anything (throttled scroll_callback 300 wait ev).
Proof.
  unfold throttled. apply code_ReadVar. intros v.
  destruct (truthy v); [apply code_Done|].
  apply code_Call.
  - unfold scroll_callback. apply code_Get. intros p.
    destruct (history_state p); [|apply code_Done].
    apply code_Modify; [exact (fun _ => I) | apply code_Done].
  - apply code_WriteVar, code_SetTimeout.
    + apply code_WriteVar, code_Done.
    + intros _. apply code_Done.
Qed.

End ScriptCode.

(** ** The history index *)

Lemma same_history_refl (p : Page) : same_history p p.
Proof. repeat split. exists []. now rewrite app_nil_r. Qed.

Lemma same_history_trans (a b c : Page) :
  same_history a b -> same_history b c -> same_history a c.
Proof.
  intros (H1 & H2 & l1 & H3 & H4) (K1 & K2 & l2 & K3 & K4).
  split; [congruence|]. split; [congruence|]. exists (l1 ++ l2).
  split; [rewrite K3, H3; now rewrite app_assoc|].
  rewrite existsb_app, H4, K4. reflexivity.
Qed.

Lemma same_history_document (d : Document) (p : Page) : same_history p (set_document d p).
Proof. repeat split. exists []. cbn. now rewrite app_nil_r. Qed.

Lemma same_history_scroll (y : Z) (p : Page) : same_history p (set_win_scrollY y p).
Proof. repeat split. exists []. cbn. now rewrite app_nil_r. Qed.

Lemma same_history_record (e : Effect) (p : Page) :
  is_write_or_fetch e = false -> same_history p (record e p).
Proof. intros H. repeat split. exists [e]. cbn. now rewrite H. Qed.

Lemma same_position_refl (p : Page) : same_position p p.
Proof. split; [apply same_history_refl | reflexivity]. Qed.

Lemma same_position_trans (a b c : Page) :
  same_position a b -> same_position b c -> same_position a c.
Proof.
  intros [H1 H2] [K1 K2]. split; [eapply same_history_trans; eassumption | congruence].
Qed.

Lemma same_position_document (d : Document) (p : Page) : same_position p (set_document d p).
Proof. split; [apply same_history_document | reflexivity]. Qed.

Lemma same_position_record (e : Effect) (p : Page) :
  is_write_or_fetch e = false -> same_position p (record e p).
Proof. intros H. split; [now apply same_history_record | reflexivity]. Qed.

Lemma sync_same_history (p p' : Page) :
  same_history p p' -> index_in_sync p -> index_in_sync p'.
Proof.
  intros (H1 & H2 & l & H3 & _) [L|(s & S1 & S2)].
  - left. unfold leaving in *. rewrite H3, existsb_app, L. reflexivity.
  - right. exists s. unfold history_state in *. rewrite H1, H2. split; assumption.
Qed.

Lemma sync_ready (ev : Event) (p : Page) : index_in_sync p -> popstate_ready ev p.
Proof.
  intros [L|(s & S1 & _)]; [right; right; exact L|].
  right. left. rewrite S1. discriminate.
Qed.

Lemma leaving_record (e : Effect) (p : Page) : leaving p -> leaving (record e p).
Proof. unfold leaving. cbn. intros H. rewrite existsb_app, H. reflexivity. Qed.

Section Sync.

Variable parseFromString : string -> Document.
Variable fuel : nat.

Local Abbreviation calm' := (calm parseFromString same_history).
Local Abbreviation kind' := (listener_kind parseFromString same_history).
Local Abbreviation hears' := (hears_popstate parseFromString).

Lemma sync_click (ev : Event) (w : World) :
  index_in_sync (page w) ->
  index_in_sync (page (run (click_listener parseFromString ev) w)).
Proof.
  intros H. destruct (intercepted ev (page w)) as [link|] eqn:E.
  - rewrite (click_listener_run parseFromString w ev link E). right.
    eexists. split; reflexivity.
  - unfold click_listener. cbn [run]. rewrite E. exact H.
Qed.

Lemma sync_scroll (wait : nat) (ev : Event) (w : World) :
  index_in_sync (page w) ->
  index_in_sync (page (run (throttled scroll_callback 300 wait ev) w)).
Proof.
  intros H. unfold throttled. cbn [run]. destruct (truthy _); [exact H|].
  unfold scroll_callback. cbn [run].
  destruct (history_state (page w)) as [s|] eqn:E; cbn [run]; wsimpl; [|exact H].
  destruct H as [L|(s' & S1 & S2)].
  - left. now apply leaving_record.
  - right. exists (mkState (index s) (win_scrollY (page w))).
    split; [reflexivity|]. cbn. congruence.
Qed.

Lemma sync_popstate (ev : Event) (w : World) :
  popstate_ready ev (page w) ->
  index_in_sync (page (run (popstate_listener parseFromString ev) w)).
Proof.
  intros H. unfold popstate_listener. cbn [run].
  destruct (transitionEnabledOnThisPage (page w)); cbn [negb run]; wsimpl.
  - destruct (ev_state ev) as [s0|] eqn:E; cbn [run]; wsimpl.
    + unfold navigate, getHTML. cbn [run]. wsimpl.
      destruct H as [H|[H|L]]; [congruence| |].
      * destruct (history_state (page w)) as [s|] eqn:Es; [|now elim H].
        right. exists s. split; [exact Es | reflexivity].
      * left. now apply leaving_record.
    + right. eexists. split; reflexivity.
  - left. unfold leaving. cbn. rewrite existsb_app. cbn. apply orb_true_r.
Qed.

Lemma task_code (R0 : Page -> Page -> Prop) (k : Prog) (w : World) :
  code same_history R0 k ->
  (forall p, R0 p p) -> (forall a b c, R0 a b -> R0 b c -> R0 a c) ->
  calm' w ->
  calm' (task fuel k w)
  /\ same_history (page (run k w)) (page (task fuel k w))
  /\ (forall l, In l (listeners w) -> l_name l = "popstate" ->
                In l (listeners (task fuel k w))).
Proof.
  intros Hk Hrefl Htrans [Hc Hr]. unfold task.
  destruct (run_code parseFromString same_history R0 k Hk Hrefl Htrans w Hc)
    as (K1 & _ & K3).
  destruct (drain_quiet parseFromString same_history same_history_refl
              same_history_trans fuel (run k w) K1) as (L1 & L2 & L3).
  split; [split; [exact L1 | apply L3, K3, Hr]|]. split; [exact L2|].
  intros l Hin Hl.
  apply (drain_hears parseFromString same_history same_history_refl same_history_trans);
    [exact K1| |exact Hl].
  now apply (run_code_hears same_history R0 k Hk).
Qed.

Lemma anything_refl (p : Page) : anything p p.
Proof. exact I. Qed.

Lemma anything_trans (a b c : Page) : anything a b -> anything b c -> anything a c.
Proof. intros _ _. exact I. Qed.

(** One listener called in a task of its own. *)
Lemma task_listener (l : Listener) (ev : Event) (w : World) :
  kind' l -> calm' w ->
  let w' := task fuel (l_cb l ev) w in
  calm' w'
  /\ (forall x, In x (listeners w) -> l_name x = "popstate" -> In x (listeners w'))
  /\ (index_in_sync (page w) -> index_in_sync (page w'))
  /\ (is_popstate_listener parseFromString l -> popstate_ready ev (page w) ->
      index_in_sync (page w')).
Proof.
  intros Hk Hc w'. subst w'.
  destruct Hk as [Hq Hn|Hcb Hn|wait Hcb Hn|Ht Hn Ho Hcb].
  - destruct (task_code same_history (l_cb l ev) w (Hq ev) same_history_refl
                same_history_trans Hc) as (K1 & K2 & K3).
    destruct (run_code parseFromString same_history same_history (l_cb l ev) (Hq ev)
                same_history_refl same_history_trans w (proj1 Hc)) as (_ & L2 & _).
    split; [exact K1|]. split; [exact K3|]. split.
    + intros H. eapply sync_same_history; [exact K2|].
      eapply sync_same_history; [exact L2 | exact H].
    + intros (_ & E & _). now elim Hn.
  - rewrite Hcb.
    destruct (task_code anything (click_listener parseFromString ev) w
                (code_click_listener parseFromString same_history
                   same_history_trans same_history_document same_history_record
                   same_history_scroll ev)
                anything_refl anything_trans Hc) as (K1 & K2 & K3).
    split; [exact K1|]. split; [exact K3|]. split.
    + intros H. eapply sync_same_history; [exact K2|]. now apply sync_click.
    + intros (_ & E & _). now elim Hn.
  - rewrite Hcb.
    destruct (task_code anything (throttled scroll_callback 300 wait ev) w
                (code_scroll_listener same_history wait ev)
                anything_refl anything_trans Hc) as (K1 & K2 & K3).
    split; [exact K1|]. split; [exact K3|]. split.
    + intros H. eapply sync_same_history; [exact K2|]. now apply sync_scroll.
    + intros (_ & E & _). now elim Hn.
  - rewrite Hcb.
    destruct (task_code anything (popstate_listener parseFromString ev) w
                (code_popstate_listener parseFromString same_history
                   same_history_trans same_history_document same_history_record
                   same_history_scroll ev)
                anything_refl anything_trans Hc) as (K1 & K2 & K3).
    split; [exact K1|]. split; [exact K3|]. split.
    + intros H. eapply sync_same_history; [exact K2|].
      apply sync_popstate. now apply sync_ready.
    + intros _ H. eapply sync_same_history; [exact K2|]. now apply sync_popstate.
Qed.

Lemma calm_once_removed (l : Listener) (w : World) :
  calm' w ->
  calm' (set_listeners
           (filter (fun x => negb (same_listener (l_target l) (l_name l) (l_fun l) x))
              (listeners w)) w).
Proof.
  intros [Hc (Ht & Hf & Hv & Hl)]. split; [exact Hc|].
  unfold rest. wsimpl. repeat split; try assumption. now apply Forall_filter'.
Qed.

(** The world in which [dispatch] calls the listener [l]. *)
Lemma dispatch_one (l : Listener) (ev : Event) (w : World) :
  kind' l -> calm' w ->
  let w0 := if l_once l
            then set_listeners
                   (filter (fun x => negb (same_listener (l_target l) (l_name l) (l_fun l) x))
                      (listeners w)) w
            else w in
  let w' := task fuel (l_cb l ev) w0 in
  calm' w'
  /\ (forall x, In x (listeners w) -> l_name x = "popstate" -> In x (listeners w'))
  /\ (index_in_sync (page w) -> index_in_sync (page w'))
  /\ (is_popstate_listener parseFromString l -> popstate_ready ev (page w) ->
      index_in_sync (page w')).
Proof.
  intros Hk Hc w0 w'.
  assert (C0 : calm' w0) by (subst w0; destruct (l_once l);
                             [now apply calm_once_removed | exact Hc]).
  assert (P0 : page w0 = page w) by (subst w0; now destruct (l_once l)).
  assert (L0 : forall x, In x (listeners w) -> l_name x = "popstate" ->
                         In x (listeners w0)).
  { intros x Hin Hx. subst w0. destruct (l_once l) eqn:Eo; [|exact Hin].
    cbn [listeners set_listeners].
    destruct Hk as [_ Hn|_ Hn|? _ Hn|_ _ Ho _]; try (now apply survives_removal).
    congruence. }
  destruct (task_listener l ev w0 Hk C0) as (K1 & K2 & K3 & K4). fold w' in K1, K2, K3, K4.
  rewrite P0 in K3, K4.
  split; [exact K1|]. split; [|split; assumption].
  intros x Hin Hx. apply K2; [|exact Hx]. now apply L0.
Qed.

Lemma dispatch_sync (ev : Event) (ls : list Listener) (w : World) :
  Forall kind' ls -> calm' w ->
  calm' (dispatch fuel ev ls w)
  /\ (forall x, In x (listeners w) -> l_name x = "popstate" ->
                In x (listeners (dispatch fuel ev ls w)))
  /\ (index_in_sync (page w) -> index_in_sync (page (dispatch fuel ev ls w))).
Proof.
  intros Hls. revert w. induction Hls as [|l ls Hl _ IH]; intros w Hc; cbn [dispatch].
  - split; [exact Hc|]. split; [intros x Hin _; exact Hin | exact (fun H => H)].
  - destruct (existsb _ (listeners w)).
    + destruct (dispatch_one l ev w Hl Hc) as (K1 & K2 & K3 & _). cbv zeta in K1, K2, K3.
      destruct (IH _ K1) as (L1 & L2 & L3).
      split; [exact L1|]. split; [|intros H; apply L3, K3, H].
      intros x Hin Hx. apply L2; [|exact Hx]. now apply K2.
    + apply IH. exact Hc.
Qed.

Lemma listening_kinds (t : Target) (name : string) (w : World) :
  calm' w -> Forall kind' (listening t name w).
Proof. intros (_ & _ & _ & _ & H). unfold listening. now apply Forall_filter'. Qed.

(** A traversal of the session history: the entry has changed when the
    [popstate] listener is called, and it brings the index in step. *)
Lemma traverse_sync (h : History) (w : World) :
  calm' w -> hears' w ->
  let ev := mkEvent NoAnchor 0 false false false false false (e_state (current h)) in
  let w0 := set_page (set_history h (page w)) w in
  index_in_sync (page (fire fuel TWindow "popstate" ev w0)).
Proof.
  intros Hc (x & Hin & Hx) ev w0.
  assert (C0 : calm' w0) by exact Hc.
  pose proof (listening_kinds TWindow "popstate" w0 C0) as Hk.
  assert (Hx' : In x (listening TWindow "popstate" w0)).
  { unfold listening. apply filter_In. split; [exact Hin|].
    destruct Hx as (E1 & E2 & _). now rewrite E1, E2. }
  unfold fire. destruct (listening TWindow "popstate" w0) as [|l r] eqn:El; [now elim Hx'|].
  inversion Hk as [|? ? Hl Hr]. subst.
  assert (Pl : is_popstate_listener parseFromString l).
  { assert (K : In l (listening TWindow "popstate" w0)) by (rewrite El; now left).
    unfold listening in K. apply filter_In in K as [_ K].
    destruct (l_target l) eqn:Et; [|discriminate]. apply String.eqb_eq in K.
    destruct Hl as [_ Hn|_ Hn|? _ Hn|_ _ Ho Hcb]; try (now elim Hn).
    repeat split; congruence. }
  cbn [dispatch]. rewrite (listener_present _ _ _ _ _ El).
  destruct (dispatch_one l ev w0 Hl C0) as (K1 & _ & _ & K4). cbv zeta in K1, K4.
  apply dispatch_sync; [exact Hr | exact K1|].
  apply K4; [exact Pl|].
  unfold popstate_ready, history_state. subst ev w0. cbn.
  destruct (e_state (current h)); [right; left; discriminate | now left].
Qed.

End Sync.

Lemma find_fetch_In (f : nat) (l : list (nat * (Response -> Prog))) (k : Response -> Prog) :
  find_fetch f l = Some k -> exists f', In (f', k) l.
Proof.
  induction l as [|[f' k'] l IH]; cbn; [discriminate|].
  destruct (Nat.eqb f' f).
  - intros [= <-]. exists f'. now left.
  - intros H. destruct (IH H) as (f'' & Hin). exists f''. now right.
Qed.

Lemma Forall_update_nth {A} (P : A -> Prop) (f : A -> A) (i : nat) (l : list A) :
  Forall P l -> (forall x, P x -> P (f x)) -> Forall P (update_nth i f l).
Proof.
  intros H Hf. revert i. induction H as [|x l Hx Hl IH]; intros [|i]; cbn;
    try constructor; auto.
Qed.

Section SyncSteps.

Variable parseFromString : string -> Document.
Variable fuel : nat.

Local Abbreviation calm' := (calm parseFromString same_history).
Local Abbreviation hears' := (hears_popstate parseFromString).

Lemma task_quiet (k : Prog) (w : World) :
  quiet same_history k -> calm' w ->
  calm' (task fuel k w)
  /\ same_history (page w) (page (task fuel k w))
  /\ (forall l, In l (listeners w) -> l_name l = "popstate" ->
                In l (listeners (task fuel k w))).
Proof.
  intros Hk Hc.
  destruct (task_code parseFromString fuel same_history k w Hk same_history_refl
              same_history_trans Hc) as (K1 & K2 & K3).
  destruct (run_code parseFromString same_history same_history k Hk
              same_history_refl same_history_trans w (proj1 Hc)) as (_ & L2 & _).
  split; [exact K1|]. split; [eapply same_history_trans; eassumption | exact K3].
Qed.

Lemma hears_kept (w w' : World) :
  (forall l, In l (listeners w) -> l_name l = "popstate" -> In l (listeners w')) ->
  hears' w -> hears' w'.
Proof.
  intros H (x & Hin & Hx). exists x. split; [|exact Hx].
  apply H; [exact Hin | apply Hx].
Qed.

Lemma deliver_all (el : nat) (name : string) (hooks : list (nat * string * nat))
  (w : World) :
  calm' w ->
  let w' := fold_left
              (fun w' h =>
                 match h with
                 | (el', name', q) =>
                     if Nat.eqb el' el && String.eqb name' name then resolve q w' else w'
                 end) hooks w in
  calm' w' /\ page w' = page w /\ listeners w' = listeners w.
Proof.
  revert w. induction hooks as [|[[el' name'] q] hooks IH]; intros w Hc; cbn [fold_left].
  - split; [exact Hc | split; reflexivity].
  - destruct (Nat.eqb el' el && String.eqb name' name).
    + destruct (IH (resolve q w)) as (K1 & K2 & K3).
      { split; [apply core_resolve, Hc | apply rest_resolve, Hc]. }
      split; [exact K1|]. rewrite K2, K3, page_resolve, listeners_resolve. split; reflexivity.
    + now apply IH.
Qed.

(** One stimulus: the event loop stays calm; with the [popstate]
    listener in place the index stays in step; and what the browser does
    on its own leaves the history alone. *)
Lemma step_sync (s : Stimulus) (w : World) :
  calm' w ->
  calm' (step fuel s w)
  /\ (hears' w -> hears' (step fuel s w))
  /\ (hears' w -> index_in_sync (page w) -> index_in_sync (page (step fuel s w)))
  /\ (machine_driven s = true -> same_history (page w) (page (step fuel s w))).
Proof.
  intros Hc.
  assert (Quiet : forall k w0,
             quiet same_history k -> calm' w0 -> page w0 = page w ->
             (forall l, In l (listeners w) -> l_name l = "popstate" -> In l (listeners w0)) ->
             calm' (task fuel k w0)
             /\ (hears' w -> hears' (task fuel k w0))
             /\ (hears' w -> index_in_sync (page w) -> index_in_sync (page (task fuel k w0)))
             /\ (true = true -> same_history (page w) (page (task fuel k w0)))).
  { intros k w0 Hk C0 P0 L0.
    destruct (task_quiet k w0 Hk C0) as (K1 & K2 & K3). rewrite P0 in K2.
    split; [exact K1|]. split; [|split].
    - apply hears_kept. intros l Hin Hl. apply K3; [|exact Hl]. now apply L0.
    - intros _ H. eapply sync_same_history; eassumption.
    - intros _. exact K2. }
  assert (Same : calm' w /\ (hears' w -> hears' w)
                 /\ (hears' w -> index_in_sync (page w) -> index_in_sync (page w))
                 /\ (true = true -> same_history (page w) (page w))).
  { split; [exact Hc|]. split; [tauto|]. split; [tauto|].
    intros _. apply same_history_refl. }
  assert (Fire : forall t name ev w0,
             calm' w0 -> listeners w0 = listeners w ->
             same_history (page w) (page w0) ->
             calm' (fire fuel t name ev w0)
             /\ (hears' w -> hears' (fire fuel t name ev w0))
             /\ (hears' w -> index_in_sync (page w) ->
                 index_in_sync (page (fire fuel t name ev w0)))
             /\ (false = true -> same_history (page w) (page (fire fuel t name ev w0)))).
  { intros t name ev w0 C0 L0 P0. unfold fire.
    destruct (dispatch_sync parseFromString fuel ev (listening t name w0) w0
                (listening_kinds parseFromString t name w0 C0) C0) as (K1 & K2 & K3).
    split; [exact K1|]. split; [|split; [|discriminate]].
    - apply hears_kept. intros l Hin Hl. apply K2; [|exact Hl]. now rewrite L0.
    - intros _ H. apply K3. eapply sync_same_history; eassumption. }
  destruct s as [name ev|name|y|d|dt|t|f r|el name|i|i]; cbn [step machine_driven].
  - apply Fire; [exact Hc | reflexivity | apply same_history_refl].
  - apply Fire; [exact Hc | reflexivity | apply same_history_refl].
  - apply Fire; [exact Hc | reflexivity | apply same_history_scroll].
  - destruct (traverse d (history (page w))) as [h|];
      [|split; [exact Hc|]; split; [tauto|]; split; [tauto|]; intros H; discriminate H].
    unfold fire.
    destruct (dispatch_sync parseFromString fuel
                (mkEvent NoAnchor 0 false false false false false (e_state (current h)))
                (listening TWindow "popstate" (set_page (set_history h (page w)) w))
                (set_page (set_history h (page w)) w)
                (listening_kinds parseFromString TWindow "popstate" _ Hc) Hc)
      as (K1 & K2 & _).
    split; [exact K1|]. split; [|split; [|discriminate]].
    + apply hears_kept. exact K2.
    + intros Hh _. apply (traverse_sync parseFromString fuel h w Hc Hh).
  - split; [exact Hc|]. split; [tauto|]. split; [tauto|].
    intros _. apply same_history_refl.
  - destruct (find _ (timers w)) as [x|] eqn:E; [|exact Same].
    destruct (Nat.leb (t_due x) (now w)); [|exact Same].
    apply find_some in E as [Hin _].
    destruct Hc as [Hco (Ht & Hf & Hv & Hl)].
    apply Quiet; [|split; [exact Hco|]|reflexivity|tauto].
    + rewrite Forall_forall in Ht. now apply Ht.
    + unfold rest. wsimpl. repeat split; try assumption. now apply Forall_filter'.
  - destruct (find_fetch f (fetches w)) as [k|] eqn:E; [|exact Same].
    apply find_fetch_In in E as (f' & Hin).
    destruct Hc as [Hco (Ht & Hf & Hv & Hl)].
    apply Quiet; [|split; [exact Hco|]|reflexivity|tauto].
    + rewrite Forall_forall in Hf. apply (Hf (f', k) Hin).
    + unfold rest. wsimpl. repeat split; try assumption. now apply Forall_filter'.
  - destruct (deliver_all el name (element_hooks w) w Hc) as (K1 & K2 & K3).
    cbv zeta in K1, K2, K3.
    destruct (drain_quiet parseFromString same_history same_history_refl
                same_history_trans fuel _ (proj1 K1)) as (L1 & L2 & L3).
    rewrite K2 in L2.
    split; [split; [exact L1 | apply L3, K1]|]. split; [|split].
    + apply hears_kept. intros l Hin Hl.
      apply (drain_hears parseFromString same_history same_history_refl
               same_history_trans); [apply K1| |exact Hl].
      now rewrite K3.
    + intros _ H. eapply sync_same_history; eassumption.
    + intros _. exact L2.
  - destruct (nth_error (transitions w) i) as [[[update|] u f]|] eqn:E; try exact Same.
    apply nth_error_In in E.
    destruct Hc as [Hco (Ht & Hf & Hv & Hl)].
    apply Quiet; [|split; [exact Hco|]|reflexivity|tauto].
    + rewrite Forall_forall in Hv. apply (Hv _ E update eq_refl).
    + unfold rest. wsimpl. repeat split; try assumption.
      apply Forall_update_nth; [exact Hv|]. intros x _ u0 E0. discriminate E0.
  - destruct (nth_error (transitions w) i) as [[[update|] u f]|] eqn:E; try exact Same.
    destruct (mem u (settled w)); [|exact Same].
    apply Quiet; [|exact Hc|reflexivity|tauto].
    apply code_Resolve, code_Done.
Qed.

Lemma steps_sync (ss : list Stimulus) (w : World) :
  calm' w ->
  calm' (steps fuel ss w)
  /\ (hears' w -> index_in_sync (page w) -> index_in_sync (page (steps fuel ss w))).
Proof.
  revert w. induction ss as [|s ss IH]; intros w Hc; cbn [steps]; [tauto|].
  destruct (step_sync s w Hc) as (K1 & K2 & K3 & _).
  destruct (IH _ K1) as (L1 & L2). split; [exact L1|]. intros Hh Hi.
  apply L2; [now apply K2 | now apply K3].
Qed.

(** The world that the script leaves when it has run on a freshly
    loaded page. *)
Lemma start_calm (p : Page) :
  let w := task fuel (main parseFromString) (idle p) in
  calm' w /\ index_in_sync (page w) /\ (installs p = true -> hears' w).
Proof.
  intros w.
  assert (E : w = if installs p
                  then mkWorld (prelude p) 0 8 [(6%nat, VBool false)] [] [] [] []
                         (installed parseFromString) [] [] []
                  else idle (prelude p)).
  { subst w. unfold task. rewrite main_on_fresh_page.
    destruct (installs p).
    - rewrite install_on_fresh_page. apply drain_idle. reflexivity.
    - apply drain_idle. reflexivity. }
  assert (P : page w = prelude p) by (rewrite E; destruct (installs p); reflexivity).
  split; [|split].
  - rewrite E. destruct (installs p).
    + split; [split; constructor|]. unfold rest. wsimpl.
      split; [constructor|]. split; [constructor|]. split; [constructor|].
      unfold installed.
      apply Forall_cons; [now apply kind_click|].
      apply Forall_cons; [now apply kind_popstate|].
      apply Forall_cons.
      { apply kind_quiet; [|discriminate]. intros ev.
        apply (quiet_prefetch_listener same_history same_history_refl
                 same_history_document). }
      apply Forall_cons.
      { apply kind_quiet; [|discriminate]. intros ev.
        apply (quiet_prefetch_listener same_history same_history_refl
                 same_history_document). }
      apply Forall_cons.
      { apply kind_quiet; [|discriminate]. intros ev.
        apply (quiet_prefetch_listener same_history same_history_refl
                 same_history_document). }
      apply Forall_cons.
      { apply kind_quiet; [|discriminate]. intros ev. cbn [l_cb].
        apply code_Modify; [|apply code_Done]. intros p0.
        now apply same_history_record. }
      apply Forall_cons; [|apply Forall_nil].
      apply (kind_scroll _ _ _ 6%nat); [reflexivity | discriminate].
    + split; [split; constructor|]. repeat split; constructor.
  - rewrite P. right. unfold prelude, in_sync, history_state.
    destruct p as [d [pa [st url] fu] y0 v c i sv l]. cbn.
    destruct st as [s|]; cbn; eexists; split; reflexivity.
  - intros Hi. rewrite E, Hi.
    exists (mkListener TWindow "popstate" false 1 (popstate_listener parseFromString)).
    split; [right; now left | repeat split].
Qed.

(** X2: the in-memory index never falls out of step.  On a page where
    the script installs its listeners, after any sequence of clicks,
    other events, scrolling, history traversals, timers, responses,
    load events and view-transition callbacks, either the script has
    handed the page over to the browser (a reload or an assignment to
    [location.href]), or the current history entry has a state and its
    index is the in-memory index. *)
Theorem history_index_stays_in_sync (p : Page) (ss : list Stimulus) :
  installs p = true ->
  let w := steps fuel ss (task fuel (main parseFromString) (idle p)) in
  leaving (page w)
  \/ exists s, history_state (page w) = Some s /\ index s = currentHistoryIndex (page w).
Proof.
  intros Hi w. destruct (start_calm p) as (Hc & Hs & Hh). cbv zeta in *.
  apply (steps_sync ss _ Hc); [now apply Hh | exact Hs].
Qed.

(** X3: what the browser does on its own never writes the history and
    never starts a fetch.  At any point reached from the start of the
    script, a timer coming due, a response arriving, a load or error
    event of a created element, a view-transition callback or the
    passing of time leaves the session history and the in-memory index
    as they are, and calls none of [replaceState], [pushState] and
    [fetch]: the history is written in the listeners of clicks,
    [popstate] and scrolling only, and no response leads to another
    request. *)
Theorem machine_never_writes_history (p : Page) (ss : list Stimulus) (s : Stimulus) :
  machine_driven s = true ->
  let w := steps fuel ss (task fuel (main parseFromString) (idle p)) in
  history (page (step fuel s w)) = history (page w)
  /\ currentHistoryIndex (page (step fuel s w)) = currentHistoryIndex (page w)
  /\ exists l, calls (page (step fuel s w)) = calls (page w) ++ l
               /\ existsb is_write_or_fetch l = false.
Proof.
  intros Hs w. destruct (start_calm p) as (Hc & _ & _). cbv zeta in *.
  destruct (steps_sync ss _ Hc) as (K1 & _). fold w in K1.
  destruct (step_sync s w K1) as (_ & _ & _ & K4). exact (K4 Hs).
Qed.

(** *** The listeners stay *)

Lemma task_lasting (R0 : Page -> Page -> Prop) (k : Prog) (w : World) :
  code same_history R0 k ->
  (forall p, R0 p p) -> (forall a b c, R0 a b -> R0 b c -> R0 a c) ->
  calm' w ->
  lasting (listeners (task fuel k w)) = lasting (listeners w).
Proof.
  intros Hk Hrefl Htrans [Hc _]. unfold task.
  destruct (run_code parseFromString same_history R0 k Hk Hrefl Htrans w Hc)
    as (K1 & _ & _).
  rewrite (drain_lasting parseFromString same_history same_history_refl
             same_history_trans fuel _ K1).
  apply (run_code_lasting same_history R0 k Hk).
Qed.

Lemma listener_lasting (l : Listener) (ev : Event) (w : World) :
  listener_kind parseFromString same_history l -> calm' w ->
  lasting (listeners (task fuel (l_cb l ev) w)) = lasting (listeners w).
Proof.
  intros [Hq _|Hcb _|wait Hcb _|_ _ _ Hcb] Hc; try rewrite Hcb.
  - apply (task_lasting same_history); [apply Hq | apply same_history_refl
                                       | apply same_history_trans | exact Hc].
  - apply (task_lasting anything);
      [|apply anything_refl | apply anything_trans | exact Hc].
    apply (code_click_listener parseFromString same_history same_history_trans
             same_history_document same_history_record same_history_scroll).
  - apply (task_lasting anything);
      [|apply anything_refl | apply anything_trans | exact Hc].
    apply code_scroll_listener.
  - apply (task_lasting anything);
      [|apply anything_refl | apply anything_trans | exact Hc].
    apply (code_popstate_listener parseFromString same_history same_history_trans
             same_history_document same_history_record same_history_scroll).
Qed.

Lemma dispatch_lasting (ev : Event) (ls : list Listener) (w : World) :
  Forall (listener_kind parseFromString same_history) ls ->
  Forall once_is_animation ls ->
  calm' w ->
  lasting (listeners (dispatch fuel ev ls w)) = lasting (listeners w).
Proof.
  intros Hls. revert w. induction Hls as [|l ls Hl _ IH]; intros w Ho Hc; cbn [dispatch];
    [reflexivity|].
  inversion Ho as [|? ? Ho1 Ho2]. subst.
  destruct (existsb _ (listeners w)); [|now apply IH].
  destruct (dispatch_one parseFromString fuel l ev w Hl Hc) as (K1 & _). cbv zeta in K1.
  rewrite (IH _ Ho2 K1).
  destruct (l_once l) eqn:Eo.
  - rewrite listener_lasting; [|exact Hl | now apply calm_once_removed].
    cbn [listeners set_listeners]. apply lasting_removal. now apply Ho1.
  - now apply listener_lasting.
Qed.

Lemma fire_lasting (t : Target) (name : string) (ev : Event) (w : World) :
  calm' w ->
  Forall (fun l => l_once l = false) (lasting (listeners w)) ->
  lasting (listeners (fire fuel t name ev w)) = lasting (listeners w).
Proof.
  intros Hc Ho. unfold fire.
  apply dispatch_lasting; [now apply listening_kinds| |exact Hc].
  unfold listening. apply Forall_forall. intros l Hin Hl.
  apply filter_In in Hin as [Hin _].
  destruct (is_animation_event (l_name l)) eqn:E; [reflexivity|].
  rewrite Forall_forall in Ho. rewrite (Ho l) in Hl; [discriminate|].
  apply filter_In. split; [exact Hin | now rewrite E].
Qed.

Lemma step_lasting (s : Stimulus) (w : World) :
  calm' w ->
  Forall (fun l => l_once l = false) (lasting (listeners w)) ->
  lasting (listeners (step fuel s w)) = lasting (listeners w).
Proof.
  intros Hc Ho.
  assert (Quiet : forall k w0,
             quiet same_history k -> calm' w0 -> listeners w0 = listeners w ->
             lasting (listeners (task fuel k w0)) = lasting (listeners w)).
  { intros k w0 Hk C0 L0. rewrite <- L0.
    apply (task_lasting same_history);
      [exact Hk | apply same_history_refl | apply same_history_trans | exact C0]. }
  destruct s as [name ev|name|y|d|dt|t|f r|el name|i|i]; cbn [step].
  - now apply fire_lasting.
  - now apply fire_lasting.
  - now apply (fire_lasting TWindow "scroll" plain_event
                 (set_page (set_win_scrollY y (page w)) w)).
  - destruct (traverse d (history (page w))) as [h|]; [|reflexivity].
    now apply (fire_lasting TWindow "popstate" _ (set_page (set_history h (page w)) w)).
  - reflexivity.
  - destruct (find _ (timers w)) as [x|] eqn:E; [|reflexivity].
    destruct (Nat.leb (t_due x) (now w)); [|reflexivity].
    apply find_some in E as [Hin _].
    destruct Hc as [Hco (Ht & Hf & Hv & Hl)].
    apply Quiet; [|split; [exact Hco|]|reflexivity].
    + rewrite Forall_forall in Ht. now apply Ht.
    + unfold rest. wsimpl. repeat split; try assumption. now apply Forall_filter'.
  - destruct (find_fetch f (fetches w)) as [k|] eqn:E; [|reflexivity].
    apply find_fetch_In in E as (f' & Hin).
    destruct Hc as [Hco (Ht & Hf & Hv & Hl)].
    apply Quiet; [|split; [exact Hco|]|reflexivity].
    + rewrite Forall_forall in Hf. apply (Hf (f', k) Hin).
    + unfold rest. wsimpl. repeat split; try assumption. now apply Forall_filter'.
  - destruct (deliver_all el name (element_hooks w) w Hc) as (K1 & K2 & K3).
    cbv zeta in K1, K2, K3.
    rewrite (drain_lasting parseFromString same_history same_history_refl
               same_history_trans fuel _ (proj1 K1)).
    now rewrite K3.
  - destruct (nth_error (transitions w) i) as [[[update|] u f]|] eqn:E; try reflexivity.
    apply nth_error_In in E.
    destruct Hc as [Hco (Ht & Hf & Hv & Hl)].
    apply Quiet; [|split; [exact Hco|]|reflexivity].
    + rewrite Forall_forall in Hv. apply (Hv _ E update eq_refl).
    + unfold rest. wsimpl. repeat split; try assumption.
      apply Forall_update_nth; [exact Hv|]. intros x _ u0 E0. discriminate E0.
  - destruct (nth_error (transitions w) i) as [[[update|] u f]|] eqn:E; try reflexivity.
    destruct (mem u (settled w)); [|reflexivity].
    apply Quiet; [|exact Hc|reflexivity].
    apply code_Resolve, code_Done.
Qed.

Lemma steps_lasting (ss : list Stimulus) (w : World) :
  calm' w ->
  Forall (fun l => l_once l = false) (lasting (listeners w)) ->
  lasting (listeners (steps fuel ss w)) = lasting (listeners w).
Proof.
  revert w. induction ss as [|s ss IH]; intros w Hc Ho; cbn [steps]; [reflexivity|].
  destruct (step_sync s w Hc) as (K1 & _).
  rewrite IH; [now apply step_lasting | exact K1|].
  now rewrite step_lasting.
Qed.

(** X19: the listeners are registered once and stay.  At any point
    reached from the start of the script, whatever clicks, other events,
    scrolling, history traversals, timers, responses, load events and
    view-transition callbacks have come, the registered listeners other
    than those of [animationstart] and [animationend] (which the
    'animate' fallback registers for the time of a swap) are exactly the
    seven that the script registered at the start, in the order of
    registration, or none where the guard kept the script from
    registering any: no navigation registers a listener again and none
    removes one. *)
Theorem listeners_stay (p : Page) (ss : list Stimulus) :
  lasting (listeners (steps fuel ss (task fuel (main parseFromString) (idle p))))
  = if installs p then installed parseFromString else [].
Proof.
  destruct (start_calm p) as (Hc & _ & _). cbv zeta in Hc.
  assert (E : listeners (task fuel (main parseFromString) (idle p))
              = if installs p then installed parseFromString else []).
  { unfold task. rewrite main_on_fresh_page. destruct (installs p).
    - rewrite install_on_fresh_page. now rewrite drain_idle.
    - now rewrite drain_idle. }
  assert (L : lasting (listeners (task fuel (main parseFromString) (idle p)))
              = if installs p then installed parseFromString else []).
  { rewrite E. destruct (installs p); reflexivity. }
  rewrite steps_lasting; [exact L | exact Hc|].
  rewrite L. destruct (installs p); repeat constructor.
Qed.

End SyncSteps.

(** ** Back and forward: the scroll offset of the entry *)

Lemma resolve_at_rest (q : nat) (w : World) :
  microtasks w = [] -> waiting w = [] ->
  page (resolve q w) = page w
  /\ microtasks (resolve q w) = []
  /\ waiting (resolve q w) = []
  /\ mem q (settled (resolve q w)) = true
  /\ fresh (resolve q w) = fresh w
  /\ element_hooks (resolve q w) = element_hooks w
  /\ (forall x, x <> q -> mem x (settled (resolve q w)) = mem x (settled w)).
Proof.
  intros Hm Hw. unfold resolve. destruct (mem q (settled w)) eqn:E.
  - repeat split; assumption.
  - rewrite Hw. cbn [release]. wsimpl. rewrite Hm, mem_cons, Nat.eqb_refl.
    repeat split. intros x Hx. rewrite mem_cons.
    destruct (Nat.eqb_spec x q) as [->|_]; [now elim Hx | reflexivity].
Qed.

Lemma suspend_settled (q : nat) (k : Prog) (w : World) :
  mem q (settled w) = true ->
  suspend [q] k w = set_microtasks (microtasks w ++ [k]) w.
Proof. intros H. unfold suspend, unsettled. cbn [filter]. now rewrite H. Qed.

Lemma nothing_to_preload_document (doc : Document) (p p' : Page) :
  document p' = document p ->
  nothing_to_preload doc p' = nothing_to_preload doc p.
Proof. intros H. unfold nothing_to_preload, already_on_page. now rewrite H. Qed.

(** ** The end of a navigation *)


Lemma scripts_html_attrs (a : list (string * string)) (d : Document) :
  scripts (set_html_attrs a d) = scripts d.
Proof. reflexivity. Qed.

Lemma chain_nil (l : list Node) (f : nat) :
  match chain l f with [] => [EDispatch "astro:load"] | _ => [] end
  = load_signal_if_inline l.
Proof.
  unfold load_signal_if_inline. revert f.
  induction l as [|x l IH]; intros f; cbn [chain existsb]; [reflexivity|].
  destruct (has_src x); [reflexivity | apply IH].
Qed.

Lemma skip_nothing (c : list (nat * nat * nat)) : skip [] c = c.
Proof. destruct c as [|[[e p] q] c]; reflexivity. Qed.

Section Finally.

Variable parseFromString : string -> Document.

(** The [finally] block of [navigate], run from the microtask queue:
    the marker is taken off the root, every script of the document is
    inserted anew in document order, and the load signal follows at once
    when none of them bears [src]. *)
Lemma finally_runs (fuel : nat) (w : World) :
  microtasks w = [finally_block] -> waiting w = [] ->
  (forall x, (fresh w <= x)%nat -> mem x (settled w) = false) ->
  (2 <= fuel)%nat ->
  let l := scripts (document (page w)) in
  calls (page (drain fuel w))
  = calls (page w) ++ map EScriptInserted l ++ load_signal_if_inline l
  /\ document (page (drain fuel w)) = without_marker (document (page w)).
Proof.
  intros Hm Hw Hf Hfuel l.
  destruct fuel as [|fuel]; [lia|]. cbn [drain]. rewrite Hm.
  unfold finally_block. cbn [run]. wsimpl.
  set (w0 := set_page (remove_root_attr "data-astro-transition" (page w))
               (set_microtasks [] w)).
  change (drain fuel (run (runScripts (fun wait => Await [wait] (Modify onload Done))) w0))
    with (task fuel (runScripts (fun wait => Await [wait] load_signal)) w0).
  split.
  - destruct (barrier_set_up fuel w0 eq_refl Hw Hf) as (_ & _ & _ & _ & _ & B); [lia|].
    rewrite B, skip_nothing, chain_nil. subst w0. cbn [page set_page].
    unfold remove_root_attr. cbn [document set_document calls].
    rewrite scripts_html_attrs. now rewrite <- app_assoc.
  - unfold task.
    assert (Q : quiet same_document
                  (runScripts (fun wait => Await [wait] load_signal))).
    { apply code_runScripts; [intros e p _; reflexivity|].
      intros wait. apply code_Await, code_Modify; [intros p; reflexivity | apply code_Done]. }
    assert (Rf : forall p, same_document p p) by reflexivity.
    assert (Rt : forall a b c, same_document a b -> same_document b c -> same_document a c)
      by (unfold same_document; intros; congruence).
    destruct (run_code parseFromString same_document same_document _ Q Rf Rt w0)
      as (K1 & K2 & _).
    { split; [constructor | cbn [waiting w0 set_page set_microtasks]; rewrite Hw; constructor]. }
    destruct (drain_quiet parseFromString same_document Rf Rt fuel _ K1) as (_ & L2 & _).
    unfold same_document in *. rewrite L2, K2. reflexivity.
Qed.

End Finally.

Section Completion.

Variable parseFromString : string -> Document.

Lemma navigate_unfold (dir : Direction) (u : string) (state : option State) :
  navigate parseFromString dir u state
  = Fetch u (navigate_response parseFromString dir u state).
Proof. reflexivity. Qed.

(** Without view transitions and with a fallback other than 'animate',
    the code that handles the response makes the swap and returns with
    the [finally] block as the one queued job. *)
Lemma response_swaps_world (dir : Direction) (u : string)
  (state : option State) (r : Response) (w : World) :
  microtasks w = [] -> waiting w = [] ->
  supportsViewTransitions (page w) = false ->
  is_mode "animate" (getFallback (page w)) = false ->
  ok r = true ->
  nothing_to_preload (incoming parseFromString dir (html r)) (page w) = true ->
  exists w',
    run (navigate_response parseFromString dir u state r) w
    = set_microtasks [finally_block] w'
    /\ waiting w' = []
    /\ page w' = swap (incoming parseFromString dir (html r)) state (page w)
    /\ fresh w' = S (fresh w)
    /\ (forall x, x <> fresh w -> mem x (settled w') = mem x (settled w)).
Proof.
  intros Hm Hw Hv Ha Hok Hp. unfold navigate_response.
  rewrite Hok. cbn [negb run]. rewrite Hv. cbn [run].
  unfold updateDOM. fold (incoming parseFromString dir (html r)).
  rewrite preload_nothing by exact Hp.
  rewrite Ha. cbn [run].
  destruct (resolve_at_rest (fresh w)
              (set_page
                 (swap (incoming parseFromString dir (html r)) state
                    (page (next_fresh w))) (next_fresh w)))
    as (R1 & R2 & R3 & R4 & R5 & _ & R6); [exact Hm | exact Hw|].
  rewrite suspend_settled by exact R4. rewrite R2. cbn [app].
  eexists. split; [reflexivity|]. split; [exact R3|]. split; [exact R1|].
  split; [exact R5 | exact R6].
Qed.

(** The rest of that task leaves the history, the index and the scroll
    offset alone. *)
Lemma response_swaps (fuel : nat) (dir : Direction) (u : string)
  (state : option State) (r : Response) (w : World) :
  microtasks w = [] -> waiting w = [] ->
  supportsViewTransitions (page w) = false ->
  is_mode "animate" (getFallback (page w)) = false ->
  ok r = true ->
  nothing_to_preload (incoming parseFromString dir (html r)) (page w) = true ->
  same_position
    (swap (incoming parseFromString dir (html r)) state (page w))
    (page (task fuel (navigate_response parseFromString dir u state r) w)).
Proof.
  intros Hm Hw Hv Ha Hok Hp. unfold task.
  destruct (response_swaps_world dir u state r w Hm Hw Hv Ha Hok Hp)
    as (w' & E & W1 & W2 & _). rewrite E.
  destruct (drain_quiet parseFromString same_position same_position_refl
              same_position_trans fuel (set_microtasks [finally_block] w'))
    as (_ & Q & _).
  { split; [|cbn [waiting set_microtasks]; rewrite W1; constructor].
    cbn [microtasks set_microtasks]. constructor; [|constructor].
    apply (quiet_finally same_position same_position_document same_position_record). }
  cbn [page set_microtasks] in Q. rewrite W2 in Q. exact Q.
Qed.

(** X8: with the 'swap' fallback (any fallback other than 'animate',
    on a platform without view transitions) a navigation is carried out
    in order, within the task in which the response arrives: the swap
    with its scroll and its [astro:beforeload] signal first, then the
    marker is taken off the root, then every script of the new document
    is inserted anew in document order, and the load signal is sent, at
    once when no script bears [src]. *)
Theorem swap_fallback_runs_in_order (fuel : nat) (dir : Direction) (u : string)
  (state : option State) (r : Response) (w : World) :
  microtasks w = [] -> waiting w = [] ->
  (forall x, In x (fetches w) -> fst x <> fresh w) ->
  (forall x, (fresh w <= x)%nat -> mem x (settled w) = false) ->
  supportsViewTransitions (page w) = false ->
  is_mode "animate" (getFallback (page w)) = false ->
  ok r = true ->
  nothing_to_preload (incoming parseFromString dir (html r)) (page w) = true ->
  (2 <= fuel)%nat ->
  let swapped := swap (incoming parseFromString dir (html r)) state
                   (record (EFetch u) (page w)) in
  let w' := step fuel (FetchResponds (fresh w) r)
              (run (navigate parseFromString dir u state) w) in
  let l := scripts (document swapped) in
  document (page w') = without_marker (document swapped)
  /\ calls (page w')
     = calls (page w)
       ++ [EFetch u; EBodyReplaced]
       ++ match state with Some s => [EScrollTo (scrollY s)] | None => [] end
       ++ [EDispatch "astro:beforeload"]
       ++ map EScriptInserted l ++ load_signal_if_inline l.
Proof.
  intros Hm Hw Hf Hs Hv Ha Hok Hp Hfuel swapped w' l.
  subst w'. rewrite navigate_unfold. cbn [run step]. wsimpl.
  rewrite find_fetch_last by exact Hf. rewrite forget_fetch_last by exact Hf.
  unfold task.
  match goal with
  | |- context [run _ ?W] =>
      destruct (response_swaps_world dir u state r W Hm Hw Hv Ha Hok)
        as (w1 & E & W1 & W2 & W3 & W4)
  end.
  { exact (eq_trans (nothing_to_preload_document _ (page w) _ eq_refl) Hp). }
  rewrite E. cbn [page fresh settled set_fetches next_fresh set_page] in W2, W3, W4.
  fold swapped in W2.
  destruct (finally_runs parseFromString fuel (set_microtasks [finally_block] w1))
    as (F1 & F2); [reflexivity | exact W1 | | exact Hfuel |].
  { cbn [fresh settled set_microtasks]. rewrite W3. intros x Hx.
    rewrite W4 by lia. apply Hs. lia. }
  cbn [page set_microtasks] in F1, F2. rewrite W2 in F1, F2. fold l in F1.
  split; [exact F2|]. rewrite F1. subst swapped. unfold swap, triggerEvent, dispatchEvent.
  destruct state as [s|]; cbn; repeat rewrite <- app_assoc; reflexivity.
Qed.




End Completion.

Section Traversal.



Variable parseFromString : string -> Document.

(** X6: going back or forward to an entry that carries a state, on a
    page with the enabling marker where no navigation is under way, the
    platform has no view transitions and the fallback is not 'animate':
    the listener fetches the URL of the entry and writes nothing into
    the history; when the response is there (ok, and with no style sheet
    to preload), the page is swapped, the window is scrolled to the
    offset kept in the entry and the in-memory index is the index of the
    entry.  What follows in that task (marker removal, scripts, load
    signal) changes none of these. *)
Theorem traversal_restores_scroll (fuel : nat) (w : World) (d : Traversal)
  (h : History) (s : State) (r : Response) (f : nat) :
  listening TWindow "popstate" w
  = [mkListener TWindow "popstate" false f (popstate_listener parseFromString)] ->
  microtasks w = [] -> waiting w = [] ->
  (forall x, In x (fetches w) -> fst x <> fresh w) ->
  traverse d (history (page w)) = Some h ->
  e_state (current h) = Some s ->
  transitionEnabledOnThisPage (page w) = true ->
  supportsViewTransitions (page w) = false ->
  is_mode "animate" (getFallback (page w)) = false ->
  ok r = true ->
  nothing_to_preload
    (incoming parseFromString
       (popstate_direction (index s) (currentHistoryIndex (page w))) (html r))
    (page w) = true ->
  let w' := steps fuel [Traverse d; FetchResponds (fresh w) r] w in
  history (page w') = h
  /\ currentHistoryIndex (page w') = index s
  /\ win_scrollY (page w') = scrollY s
  /\ exists l,
       calls (page w')
       = calls (page w)
         ++ [EFetch (href (e_url (current h))); EBodyReplaced; EScrollTo (scrollY s);
             EDispatch "astro:beforeload"] ++ l
       /\ existsb is_write_or_fetch l = false.
Proof.
  intros Hl Hm Hw Hf Ht Hs He Hv Ha Hok Hp w'.
  set (dir := popstate_direction (index s) (currentHistoryIndex (page w))) in *.
  set (u := href (e_url (current h))).
  set (p1 := set_currentHistoryIndex (index s)
               (record (EFetch u) (set_history h (page w)))).
  assert (E1 : step fuel (Traverse d) w
               = next_fresh
                   (set_fetches
                      (fetches w
                       ++ [(fresh w, navigate_response parseFromString dir u (Some s))])
                      (set_page p1 w))).
  { cbn [step]. rewrite Ht. unfold fire.
    change (listening TWindow "popstate" (set_page (set_history h (page w)) w))
      with (listening TWindow "popstate" w).
    rewrite Hl. cbn [dispatch l_target l_name l_fun l_once l_cb listeners set_page].
    rewrite (listener_present _ _ _ _ _ Hl : existsb (same_listener TWindow "popstate" f)
                                               (listeners w) = true).
    unfold task, popstate_listener. cbn [run page set_page].
    change (transitionEnabledOnThisPage (set_history h (page w)))
      with (transitionEnabledOnThisPage (page w)).
    rewrite He. cbn [negb ev_state]. rewrite Hs.
    change (history_state (set_history h (page w))) with (e_state (current h)).
    rewrite Hs. cbn [popstate_nextIndex].
    change (currentHistoryIndex (set_history h (page w)))
      with (currentHistoryIndex (page w)).
    fold dir. rewrite navigate_unfold. cbn [run]. wsimpl.
    rewrite drain_idle by (wsimpl; exact Hm).
    reflexivity. }
  subst w'. cbn [steps]. rewrite E1. cbn [step]. wsimpl.
  rewrite find_fetch_last by exact Hf. rewrite forget_fetch_last by exact Hf.
  match goal with
  | |- context [task fuel _ ?W] =>
      destruct (response_swaps parseFromString fuel dir u (Some s) r W Hm Hw Hv Ha Hok)
        as ((Q1 & Q2 & l & Q3 & Q4) & Q5)
  end.
  { exact (eq_trans (nothing_to_preload_document _ (page w) p1 eq_refl) Hp). }
  cbn [page set_fetches next_fresh set_page] in Q1, Q2, Q3, Q5.
  split; [rewrite Q1; reflexivity|]. split; [rewrite Q2; reflexivity|].
  split; [rewrite Q5; reflexivity|].
  exists l. split; [|exact Q4]. rewrite Q3. subst p1. cbn.
  repeat rewrite <- app_assoc. reflexivity.
Qed.

(** X7: a click that is taken over, on a page where no navigation is
    under way, the platform has no view transitions and the fallback is
    not 'animate': when the response is there (ok, and with no style
    sheet to preload) the page is swapped and the window is scrolled to
    the top, while the entry pushed for the new page still carries the
    offset the old page had at the click. *)
Theorem click_navigation_lands_on_top (fuel : nat) (w : World) (ev : Event)
  (link : Anchor) (r : Response) (f : nat) :
  listening TDocument "click" w
  = [mkListener TDocument "click" false f (click_listener parseFromString)] ->
  microtasks w = [] -> waiting w = [] ->
  (forall x, In x (fetches w) -> fst x <> fresh w) ->
  intercepted ev (page w) = Some link ->
  supportsViewTransitions (page w) = false ->
  is_mode "animate" (getFallback (page w)) = false ->
  ok r = true ->
  nothing_to_preload (incoming parseFromString forward (html r)) (page w) = true ->
  let p := page w in
  let i := currentHistoryIndex p in
  let y := win_scrollY p in
  let w' := steps fuel [DocumentEvent "click" ev; FetchResponds (fresh w) r] w in
  win_scrollY (page w') = 0
  /\ currentHistoryIndex (page w') = i + 1
  /\ history (page w')
     = mkHistory (mkEntry (Some (mkState i y)) (location p) :: past (history p))
         (mkEntry (Some (mkState (i + 1) y)) (a_url link)) []
  /\ exists l,
       calls (page w')
       = calls p
         ++ [EPreventDefault; EFetch (href (a_url link)); EReplaceState (mkState i y);
             EPushState (mkState (i + 1) y) (href (a_url link));
             EBodyReplaced; EScrollTo 0; EDispatch "astro:beforeload"] ++ l
       /\ existsb is_write_or_fetch l = false.
Proof.
  intros Hl Hm Hw Hf Hi Hv Ha Hok Hp p i y w'.
  set (u := href (a_url link)).
  set (p1 := pushState (mkState (i + 1) y) (a_url link)
               (persistState (mkState i y)
                  (set_currentHistoryIndex (i + 1)
                     (record (EFetch u) (record EPreventDefault p))))).
  assert (E1 : step fuel (DocumentEvent "click" ev) w
               = next_fresh
                   (set_fetches
                      (fetches w
                       ++ [(fresh w,
                            navigate_response parseFromString forward u
                              (Some (mkState i 0)))])
                      (set_page p1 w))).
  { cbn [step]. unfold fire. rewrite Hl.
    cbn [dispatch l_target l_name l_fun l_once l_cb].
    rewrite (listener_present _ _ _ _ _ Hl : existsb (same_listener TDocument "click" f)
                                               (listeners w) = true).
    unfold task, click_listener. cbn [run]. rewrite Hi.
    rewrite navigate_unfold. cbn -[Z.add Z.sub]. fold p i y u.
    replace (i + 1 - 1) with i by lia.
    rewrite drain_idle by (wsimpl; exact Hm).
    destruct w; reflexivity. }
  subst w'. cbn [steps]. rewrite E1. cbn [step]. wsimpl.
  rewrite find_fetch_last by exact Hf. rewrite forget_fetch_last by exact Hf.
  match goal with
  | |- context [task fuel _ ?W] =>
      destruct (response_swaps parseFromString fuel forward u (Some (mkState i 0)) r W
                  Hm Hw Hv Ha Hok)
        as ((Q1 & Q2 & l & Q3 & Q4) & Q5)
  end.
  { exact (eq_trans (nothing_to_preload_document _ (page w) p1 eq_refl) Hp). }
  cbn [page set_fetches next_fresh set_page] in Q1, Q2, Q3, Q5.
  split; [rewrite Q5; reflexivity|]. split; [rewrite Q2; reflexivity|].
  split; [rewrite Q1; reflexivity|].
  exists l. split; [|exact Q4]. rewrite Q3. subst p1. cbn.
  repeat rewrite <- app_assoc. reflexivity.
Qed.

End Traversal.

(** ** Instances *)

(** A click on the link to page B, its response, a scroll and a step
    back in the history. *)
Lemma history_index_stays_in_sync_witness :
  let w := steps 20 [DocumentEvent "click" Sample.click_on_B;
                     FetchResponds 8 (mkResponse true "B"); Scroll 30; Traverse GoBack]
             (task 20 (main (Sample.parse "swap")) (idle (Sample.pageA "swap"))) in
  installs (Sample.pageA "swap") = true
  /\ (leaving (page w)
      \/ exists s, history_state (page w) = Some s
                   /\ index s = currentHistoryIndex (page w)).
Proof.
  split; [reflexivity|].
  apply (history_index_stays_in_sync (Sample.parse "swap") 20 (Sample.pageA "swap")
           [DocumentEvent "click" Sample.click_on_B;
            FetchResponds 8 (mkResponse true "B"); Scroll 30; Traverse GoBack]).
  reflexivity.
Defined.

(** The response to the fetch that a click has started. *)
Lemma machine_never_writes_history_witness :
  let w := steps 20 [DocumentEvent "click" Sample.click_on_B]
             (task 20 (main (Sample.parse "swap")) (idle (Sample.pageA "swap"))) in
  machine_driven (FetchResponds 8 (mkResponse true "B")) = true
  /\ history (page (step 20 (FetchResponds 8 (mkResponse true "B")) w))
     = history (page w).
Proof.
  split; [reflexivity|].
  refine (proj1 (machine_never_writes_history (Sample.parse "swap") 20
                   (Sample.pageA "swap") [DocumentEvent "click" Sample.click_on_B]
                   (FetchResponds 8 (mkResponse true "B")) _)).
  reflexivity.
Defined.

(** From page B back to page A, which was left at offset 40. *)
Lemma traversal_restores_scroll_witness :
  let w := task 5 (main (Sample.parse "swap")) (idle pageB_after_A) in
  transitionEnabledOnThisPage (page w) = true
  /\ win_scrollY
       (page (steps 5 [Traverse GoBack; FetchResponds (fresh w) (mkResponse true "A")] w))
     = 40.
Proof.
  split; [reflexivity|].
  refine (proj1 (proj2 (proj2
    (traversal_restores_scroll (Sample.parse "swap") 5
       (task 5 (main (Sample.parse "swap")) (idle pageB_after_A)) GoBack
       (mkHistory [] (mkEntry (Some (mkState 0 40)) Sample.urlA)
          [mkEntry (Some (mkState 1 0)) Sample.urlB])
       (mkState 0 40) (mkResponse true "A") 1 _ _ _ _ _ _ _ _ _ _ _)))).
  - reflexivity.
  - reflexivity.
  - reflexivity.
  - intros x [].
  - reflexivity.
  - reflexivity.
  - reflexivity.
  - reflexivity.
  - reflexivity.
  - reflexivity.
  - reflexivity.
Defined.

(** Page A, scrolled to 120, and a click on the link to page B. *)
Lemma click_navigation_lands_on_top_witness :
  let w := task 5 (main (Sample.parse "swap")) (idle (Sample.pageA "swap")) in
  intercepted Sample.click_on_B (page w) = Some (mkAnchor Sample.urlB "")
  /\ win_scrollY
       (page (steps 5 [DocumentEvent "click" Sample.click_on_B;
                       FetchResponds (fresh w) (mkResponse true "B")] w))
     = 0.
Proof.
  split; [reflexivity|].
  refine (proj1
    (click_navigation_lands_on_top (Sample.parse "swap") 5
       (task 5 (main (Sample.parse "swap")) (idle (Sample.pageA "swap")))
       Sample.click_on_B (mkAnchor Sample.urlB "") (mkResponse true "B") 0
       _ _ _ _ _ _ _ _ _)).
  - reflexivity.
  - reflexivity.
  - reflexivity.
  - intros x [].
  - reflexivity.
  - reflexivity.
  - reflexivity.
  - reflexivity.
  - reflexivity.
Defined.

(** Page A with fallback 'swap' and the markup of page B. *)
Lemma swap_fallback_runs_in_order_witness :
  let w := task 5 (main (Sample.parse "swap")) (idle (Sample.pageA "swap")) in
  let w' := step 5 (FetchResponds (fresh w) (mkResponse true "B"))
              (run (navigate (Sample.parse "swap") forward "https://site.test/b"
                      (Some (mkState 0 0))) w) in
  supportsViewTransitions (page w) = false
  /\ calls (page w')
     = [EReplaceState (mkState 0 0); EFetch "https://site.test/b"; EBodyReplaced;
        EScrollTo 0; EDispatch "astro:beforeload";
        EScriptInserted (Sample.inline_script "b()"); EDispatch "astro:load"].
Proof.
  split; [reflexivity|].
  refine (proj2
    (swap_fallback_runs_in_order (Sample.parse "swap") 5 forward "https://site.test/b"
       (Some (mkState 0 0)) (mkResponse true "B")
       (task 5 (main (Sample.parse "swap")) (idle (Sample.pageA "swap")))
       _ _ _ _ _ _ _ _ _)).
  - reflexivity.
  - reflexivity.
  - intros x [].
  - intros x _. reflexivity.
  - reflexivity.
  - reflexivity.
  - reflexivity.
  - reflexivity.
  - cbn. lia.
Defined.


(** ** The style sheet preload barrier: when it is set up *)

Lemma exists_after_add_preload (sel : Selector) (p : Page) (el : Node) :
  matches sel (preload_link (getAttribute "href" el)) = false ->
  exists_in_doc sel (document (add_preload p el)) = exists_in_doc sel (document p).
Proof.
  intros H. rewrite !exists_in_doc_existsb.
  destruct p as [[ha h b] hi y v c i sv l]. unfold add_preload.
  cbn [document set_document set_head head html_attrs body documentElement].
  destruct h as [t a cs|s0]; [|reflexivity].
  cbn [append_children with_children].
  unfold documentElement, set_head. cbn [html_attrs head body subtree flat_map existsb].
  rewrite !existsb_app. cbn [existsb]. rewrite flat_map_app, existsb_app.
  cbn [flat_map app]. rewrite app_nil_r.
  replace (existsb (matches sel) (subtree (preload_link (getAttribute "href" el))))
    with false by (unfold preload_link in *; cbn [subtree flat_map existsb]; now rewrite H).
  rewrite orb_false_r. reflexivity.
Qed.

Lemma nothing_on_page_add (els : list Node) (p : Page) (el0 : Node) :
  nothing_on_page els p = true -> nothing_on_page els (add_preload p el0) = true.
Proof.
  unfold nothing_on_page. intros H. rewrite forallb_forall in *. intros el Hin.
  specialize (H el Hin). unfold already_on_page in *.
  rewrite exists_after_add_preload; [exact H | reflexivity].
Qed.

Lemma run_preload (els : list Node) (links : list nat) (k : list nat -> Prog)
  (w : World) :
  nothing_on_page els (page w) = true ->
  run (preload els links k) w
  = run (k (links ++ map snd (preloads els (fresh w)))) (preloaded els w).
Proof.
  revert links w. induction els as [|el els IH]; intros links w H.
  - cbn. now rewrite app_nil_r.
  - cbn [nothing_on_page forallb] in H. apply andb_true_iff in H as [H1 H2].
    cbn [preload run]. rewrite H1. cbn [run].
    change (run (preload els (links ++ [S (fresh w)]) k)
              (set_page (add_preload (page w) el)
                 (set_element_hooks
                    (element_hooks w
                     ++ [(fresh w, "load", S (fresh w)); (fresh w, "error", S (fresh w))])
                    (next_fresh (next_fresh w))))
            = run (k (links ++ map snd (preloads (el :: els) (fresh w))))
                (preloaded (el :: els) w)).
    rewrite IH by (apply nothing_on_page_add; exact H2).
    cbn [preloaded preloads map snd fresh set_page set_element_hooks next_fresh].
    now rewrite <- app_assoc.
Qed.

Lemma preloaded_eq (els : list Node) (w : World) :
  preloaded els w
  = mkWorld (with_preloads els (page w)) (now w) (2 * List.length els + fresh w)%nat
      (vars w) (settled w) (waiting w) (microtasks w) (timers w) (listeners w)
      (element_hooks w ++ preload_hooks (preloads els (fresh w))) (fetches w)
      (transitions w).
Proof.
  revert w. induction els as [|el els IH]; intros w.
  - cbn. rewrite app_nil_r. destruct w; reflexivity.
  - cbn [preloaded]. rewrite IH. wsimpl.
    cbn [with_preloads fold_left preloads preload_hooks flat_map fst snd List.length].
    rewrite <- app_assoc. cbn [app].
    replace (2 * List.length els + S (S (fresh w)))%nat
      with (2 * S (List.length els) + fresh w)%nat by lia.
    reflexivity.
Qed.

(** ** The style sheet preload barrier: how it opens *)

Lemma settled_resolve (x q : nat) (w : World) :
  mem x (settled (resolve q w)) = mem x (settled w) || Nat.eqb x q.
Proof.
  unfold resolve. destruct (mem q (settled w)) eqn:E.
  - destruct (Nat.eqb_spec x q) as [->|_]; [now rewrite E | now rewrite orb_false_r].
  - destruct (release q (waiting w)). wsimpl. rewrite mem_cons. apply orb_comm.
Qed.

Lemma hooks_resolve (q : nat) (w : World) :
  element_hooks (resolve q w) = element_hooks w.
Proof.
  unfold resolve. destruct (mem q (settled w)); [reflexivity|].
  destruct (release q (waiting w)). reflexivity.
Qed.

Lemma unsettled_after (q : nat) (s : list nat) (links : list nat) :
  filter (fun y => negb (Nat.eqb y q)) (filter (fun y => negb (mem y s)) links)
  = filter (fun y => negb (mem y (q :: s))) links.
Proof.
  induction links as [|x links IH]; [reflexivity|]. cbn [filter]. rewrite mem_cons.
  destruct (mem x s); cbn [negb]; [rewrite orb_true_r; exact IH|].
  cbn [filter]. rewrite orb_false_r. destruct (Nat.eqb x q); cbn [negb]; now rewrite IH.
Qed.

Section Parked.

Variable links : list nat.
Variable body : Prog.

Lemma resolve_parked (q : nat) (w : World) :
  parked_or_queued links body w -> parked_or_queued links body (resolve q w).
Proof.
  intros [Hw Hm]. unfold resolve. destruct (mem q (settled w)) eqn:E; [split; assumption|].
  unfold parked_or_queued, parked_on, unsettled in *. rewrite Hw.
  pose proof (unsettled_after q (settled w) links) as U.
  destruct (filter (fun y => negb (mem y (settled w))) links) as [|x ps] eqn:El.
  - cbn [release]. wsimpl. cbn [filter] in U. rewrite <- U. rewrite Hm. split; reflexivity.
  - cbn [release]. rewrite U.
    destruct (filter (fun y => negb (mem y (q :: settled w))) links) as [|x' ps'] eqn:El';
      wsimpl; rewrite El', Hm; split; reflexivity.
Qed.

Lemma fold_parked (el : nat) (name : string) (hooks : list (nat * string * nat))
  (w : World) :
  parked_or_queued links body w ->
  let w' := fold_left (deliver el name) hooks w in
  parked_or_queued links body w'
  /\ page w' = page w
  /\ element_hooks w' = element_hooks w
  /\ (forall x, mem x (settled w')
                = mem x (settled w) || existsb (settles el name x) hooks).
Proof.
  revert w. induction hooks as [|[[e n] q] hooks IH]; intros w H; cbn [fold_left].
  - split; [exact H|]. split; [reflexivity|]. split; [reflexivity|].
    intros x. now rewrite orb_false_r.
  - cbn [deliver existsb settles].
    destruct (Nat.eqb e el && String.eqb n name) eqn:E.
    + destruct (IH (resolve q w) (resolve_parked q w H)) as (K1 & K2 & K3 & K4).
      split; [exact K1|]. split; [now rewrite K2, page_resolve|].
      split; [now rewrite K3, hooks_resolve|].
      intros x. rewrite K4, settled_resolve. cbn [andb]. now rewrite orb_assoc.
    + destruct (IH w H) as (K1 & K2 & K3 & K4).
      split; [exact K1|]. split; [exact K2|]. split; [exact K3|].
      intros x. rewrite K4. reflexivity.
Qed.

End Parked.

Lemma fold_at_rest (el : nat) (name : string) (hooks : list (nat * string * nat))
  (w : World) :
  microtasks w = [] -> waiting w = [] ->
  let w' := fold_left (deliver el name) hooks w in
  microtasks w' = [] /\ waiting w' = [] /\ page w' = page w.
Proof.
  revert w. induction hooks as [|[[e n] q] hooks IH]; intros w Hm Hw; cbn [fold_left].
  - repeat split; assumption.
  - cbn [deliver]. destruct (Nat.eqb e el && String.eqb n name); [|now apply IH].
    destruct (resolve_at_rest q w Hm Hw) as (R1 & R2 & R3 & _).
    destruct (IH (resolve q w) R2 R3) as (K1 & K2 & K3).
    split; [exact K1|]. split; [exact K2|]. now rewrite K3.
Qed.

Lemma preloads_spec (els : list Node) (f : nat) (e q : nat) :
  In (e, q) (preloads els f) -> q = S e /\ (f <= e)%nat.
Proof.
  revert f. induction els as [|el els IH]; intros f H; [now elim H|].
  cbn [preloads] in H. destruct H as [H|H].
  - injection H as <- <-. split; [reflexivity | lia].
  - destruct (IH _ H) as [H1 H2]. split; [exact H1 | lia].
Qed.

Lemma unsettled_all (w : World) (links : list nat) :
  (forall q, In q links -> mem q (settled w) = false) -> unsettled w links = links.
Proof.
  intros H. unfold unsettled. induction links as [|x links IH]; [reflexivity|].
  cbn [filter]. rewrite (H x (or_introl eq_refl)). cbn [negb]. f_equal.
  apply IH. intros q Hq. apply H. now right.
Qed.

Lemma unsettled_nil_iff (w : World) (c : list (nat * nat)) (got : nat -> bool) :
  (forall e q, In (e, q) c -> mem q (settled w) = got e) ->
  unsettled w (map snd c) = [] <-> forallb (fun x => got (fst x)) c = true.
Proof.
  unfold unsettled. induction c as [|[e q] c IH]; intros H; [split; reflexivity|].
  cbn [map snd filter forallb fst]. rewrite (H e q (or_introl eq_refl)).
  assert (H' : forall e' q', In (e', q') c -> mem q' (settled w) = got e')
    by (intros e' q' Hin; apply H; now right).
  destruct (got e); cbn [negb andb].
  - apply (IH H').
  - split; discriminate.
Qed.

Lemma forallb_same {A} (f g : A -> bool) (l : list A) :
  (forall x, f x = g x) -> forallb f l = forallb g l.
Proof. intros H. induction l as [|x l IH]; [reflexivity|]. cbn. now rewrite H, IH. Qed.

Section PreloadBarrier.

Variable fuel : nat.
Variable doc : Document.
Variable state : option State.
Variable finished : nat.
Variable c : list (nat * nat).
Variable old : list (nat * string * nat).
Variable f0 : nat.
Variable p1 : Page.

Hypothesis fuel_pos : (1 <= fuel)%nat.
Hypothesis c_spec : forall e q, In (e, q) c -> q = S e /\ (f0 <= e)%nat.
Hypothesis old_below : forall e n q, In (e, n, q) old -> (q < f0)%nat.

Local Abbreviation links := (map snd c).
Local Abbreviation body := (Modify (swap doc state) (Resolve finished Done)).

Lemma settles_old (el : nat) (name : string) (e q : nat) :
  In (e, q) c -> existsb (settles el name q) old = false.
Proof.
  intros Hin. destruct (c_spec e q Hin) as [-> Hf].
  destruct (existsb (settles el name (S e)) old) eqn:E; [|reflexivity].
  apply existsb_exists in E as ([[e' n'] q'] & Hin' & Hs).
  apply old_below in Hin'. cbn [settles] in Hs.
  apply andb_true_iff in Hs as [_ Hs]. apply Nat.eqb_eq in Hs. lia.
Qed.

Lemma settles_new (el : nat) (name : string) (e q : nat) :
  In (e, q) c ->
  existsb (settles el name q) (preload_hooks c) = Nat.eqb e el && is_settling name.
Proof.
  intros Hin. destruct (c_spec e q Hin) as [-> _].
  assert (G : forall c',
             (forall e' q', In (e', q') c' -> q' = S e') ->
             existsb (settles el name (S e)) (preload_hooks c')
             = existsb (fun x => Nat.eqb (fst x) e) c' && (Nat.eqb e el && is_settling name)).
  { induction c' as [|[e' q'] c' IH]; intros Hc'; [reflexivity|].
    cbn [preload_hooks flat_map app existsb settles fst snd].
    fold (preload_hooks c'). rewrite IH by (intros a b Hab; apply (Hc' a b); now right).
    rewrite (Hc' e' q' (or_introl eq_refl)).
    change (Nat.eqb (S e) (S e')) with (Nat.eqb e e').
    unfold is_settling. rewrite (String.eqb_sym "load" name), (String.eqb_sym "error" name).
    rewrite (Nat.eqb_sym e e').
    destruct (Nat.eqb_spec e' e) as [->|_];
      repeat match goal with
             | |- context [Nat.eqb ?a el] => destruct (Nat.eqb a el)
             end;
      destruct (String.eqb name "load"), (String.eqb name "error"),
        (existsb (fun x => Nat.eqb (fst x) e) c'); reflexivity. }
  rewrite G by (intros e' q' H'; apply (c_spec e' q' H')).
  replace (existsb (fun x => Nat.eqb (fst x) e) c) with true; [reflexivity|].
  symmetry. apply existsb_exists. exists (e, S e). split; [exact Hin|].
  apply Nat.eqb_refl.
Qed.

Lemma pending_step (el : nat) (name : string) (got : nat -> bool) (w : World) :
  preload_pending links body c old p1 got w ->
  let got' := fun e => got e || (Nat.eqb e el && is_settling name) in
  if forallb (fun x => got' (fst x)) c
  then preload_done (swap doc state p1) (step fuel (ElementEvent el name) w)
  else preload_pending links body c old p1 got' (step fuel (ElementEvent el name) w).
Proof.
  intros (HF & Hu & Hp & Hh & Hs) got'.
  rewrite step_element_event.
  destruct (fold_parked links body el name (element_hooks w) w HF) as (K1 & K2 & K3 & K4).
  cbv zeta in K1, K2, K3, K4.
  set (w' := fold_left (deliver el name) (element_hooks w) w) in *.
  assert (Hs' : forall e q, In (e, q) c -> mem q (settled w') = got' e).
  { intros e q Hin. rewrite K4, Hh, existsb_app.
    rewrite (settles_old el name e q Hin), (settles_new el name e q Hin).
    rewrite (Hs e q Hin). reflexivity. }
  pose proof (unsettled_nil_iff w' c got' Hs') as U.
  destruct K1 as [Kw Km]. unfold parked_on in Kw.
  destruct (forallb (fun x => got' (fst x)) c) eqn:E.
  - pose proof (proj2 U eq_refl) as E'. rewrite E' in Kw, Km.
    destruct fuel as [|fuel']; [lia|]. cbn [drain]. rewrite Km. cbn [run].
    destruct (resolve_at_rest finished
                (set_page (swap doc state (page (set_microtasks [] w')))
                   (set_microtasks [] w')))
      as (R1 & R2 & R3 & _); [reflexivity | exact Kw|].
    rewrite drain_idle by exact R2.
    split; [exact R2|]. split; [exact R3|]. rewrite R1. cbn [page set_page set_microtasks].
    now rewrite K2, Hp.
  - assert (N : unsettled w' links <> []).
    { intros N. apply (proj1 U) in N. discriminate N. }
    destruct (unsettled w' links) as [|x ps] eqn:Eu; [now elim N|].
    rewrite drain_idle by exact Km.
    split; [split; [unfold parked_on; now rewrite Eu | now rewrite Eu]|].
    split; [now rewrite Eu|]. split; [now rewrite K2|]. split; [now rewrite K3|].
    exact Hs'.
Qed.

Lemma done_element_step (p : Page) (el : nat) (name : string) (w : World) :
  preload_done p w -> preload_done p (step fuel (ElementEvent el name) w).
Proof.
  intros (Hm & Hw & Hp). rewrite step_element_event.
  destruct (fold_at_rest el name (element_hooks w) w Hm Hw) as (K1 & K2 & K3).
  cbv zeta in K1, K2, K3. rewrite drain_idle by exact K1.
  split; [exact K1|]. split; [exact K2|]. now rewrite K3.
Qed.

Lemma done_element_steps (p : Page) (ss : list Stimulus) (w : World) :
  element_events_only ss = true ->
  preload_done p w -> page (steps fuel ss w) = p.
Proof.
  revert w. induction ss as [|s ss IH]; intros w Hs H; [apply H|].
  cbn [element_events_only forallb] in Hs. apply andb_true_iff in Hs as [H1 H2].
  destruct s; try discriminate H1. cbn [steps]. apply IH; [exact H2|].
  now apply done_element_step.
Qed.

Lemma pending_steps (ss : list Stimulus) (got : nat -> bool) (w : World) :
  element_events_only ss = true ->
  preload_pending links body c old p1 got w ->
  page (steps fuel ss w)
  = if forallb (fun x => got (fst x) || preload_settled (fst x) ss) c
    then swap doc state p1 else p1.
Proof.
  revert got w. induction ss as [|s ss IH]; intros got w Hs H.
  - cbn [steps preload_settled existsb].
    destruct H as (_ & Hu & Hp & _ & Hg).
    destruct (forallb (fun x => got (fst x) || false) c) eqn:E; [|exact Hp].
    exfalso. apply Hu. apply (unsettled_nil_iff w c got Hg).
    rewrite <- E. apply forallb_same. intros x. now rewrite orb_false_r.
  - cbn [element_events_only forallb] in Hs. apply andb_true_iff in Hs as [H1 H2].
    destruct s as [| | | | | | |el name| |]; try discriminate H1. cbn [steps].
    pose proof (pending_step el name got w H) as K. cbv zeta in K.
    assert (Ext : forallb (fun x => got (fst x) || preload_settled (fst x)
                                                     (ElementEvent el name :: ss)) c
                  = forallb (fun x => (got (fst x) || (Nat.eqb (fst x) el && is_settling name))
                                      || preload_settled (fst x) ss) c).
    { apply forallb_same. intros x. cbn [preload_settled existsb].
      rewrite (Nat.eqb_sym el (fst x)). now rewrite orb_assoc. }
    rewrite Ext.
    destruct (forallb (fun x => got (fst x) || (Nat.eqb (fst x) el && is_settling name)) c)
      eqn:E.
    + rewrite (done_element_steps _ ss _ H2 K).
      replace (forallb _ c) with true; [reflexivity|]. symmetry.
      rewrite forallb_forall in *. intros x Hx. rewrite (E x Hx). reflexivity.
    + apply (IH _ _ H2 K).
Qed.

End PreloadBarrier.

Section PreloadTheorem.

Variable parseFromString : string -> Document.

(** X11: the preload barrier, when it is set up.  If none of the
    incoming style sheet links passes the test of the preload loop (the
    live page has no style sheet link, and no element carrying the
    identifier looked for), [updateDOM] appends one preload link per
    incoming style sheet link to the live head, in order, and returns
    without having swapped.  With a fallback other than 'animate', the
    swap is then made exactly when every one of these preload links has
    had its load or its error event, whatever the order of the events
    and whatever other element events come in between. *)
Theorem preload_barrier_holds (fuel : nat) (dir : Direction) (html : string)
  (state : option State) (fallback : option string) (finished : nat) (w : World)
  (ss : list Stimulus) :
  microtasks w = [] -> waiting w = [] ->
  (forall x, (fresh w <= x)%nat -> mem x (settled w) = false) ->
  (forall e n q, In (e, n, q) (element_hooks w) -> (q < fresh w)%nat) ->
  is_mode "animate" fallback = false ->
  let doc := incoming parseFromString dir html in
  let els := querySelectorAll [stylesheet_link] (head doc) in
  els <> [] ->
  nothing_on_page els (page w) = true ->
  element_events_only ss = true ->
  (1 <= fuel)%nat ->
  let w1 := run (updateDOM parseFromString dir html state fallback finished) w in
  let c := preloads els (fresh w) in
  page w1 = with_preloads els (page w)
  /\ element_hooks w1 = element_hooks w ++ preload_hooks c
  /\ page (steps fuel ss w1)
     = if all_preloaded c ss
       then swap doc state (with_preloads els (page w))
       else with_preloads els (page w).
Proof.
  intros Hm Hw Hs Hh Ha doc els Hne Hn Hss Hfuel w1 c.
  set (body := Modify (swap doc state) (Resolve finished Done)).
  assert (Hc : forall e q, In (e, q) c -> q = S e /\ (fresh w <= e)%nat)
    by (intros e q; apply preloads_spec).
  assert (Hl : forall q, In q (map snd c) -> mem q (settled w) = false).
  { intros q Hq. apply in_map_iff in Hq as ([e q'] & <- & Hin).
    destruct (Hc e q' Hin) as [-> Hf]. apply Hs. cbn. lia. }
  assert (Hcne : map snd c <> []).
  { subst c. destruct els; [now elim Hne | discriminate]. }
  assert (E : w1 = set_waiting [(map snd c, body)] (preloaded els w)).
  { subst w1. unfold updateDOM.
    change (set_html_attrs
              (set_attr "data-astro-transition" (direction_name dir)
                 (html_attrs (parseFromString html))) (parseFromString html)) with doc.
    change (querySelectorAll [stylesheet_link] (head doc)) with els.
    rewrite run_preload by exact Hn. cbn [app].
    change (preloads els (fresh w)) with c.
    rewrite Ha. fold body.
    destruct (map snd c) as [|x ps] eqn:El; [now elim Hcne|].
    cbn [run]. unfold suspend.
    rewrite unsettled_all by (rewrite preloaded_eq; cbn [settled]; exact Hl).
    rewrite preloaded_eq. wsimpl. rewrite Hw. reflexivity. }
  assert (P : preload_pending (map snd c) body c (element_hooks w)
                (with_preloads els (page w)) (fun _ => false) w1).
  { rewrite E, preloaded_eq. unfold preload_pending, parked_or_queued, parked_on.
    wsimpl.
    assert (U : unsettled
                  (set_waiting [(map snd c, body)]
                     (mkWorld (with_preloads els (page w)) (now w)
                        (2 * List.length els + fresh w)%nat (vars w) (settled w)
                        (waiting w) (microtasks w) (timers w) (listeners w)
                        (element_hooks w ++ preload_hooks (preloads els (fresh w)))
                        (fetches w) (transitions w))) (map snd c)
                = map snd c) by (apply unsettled_all; exact Hl).
    rewrite U. destruct (map snd c) as [|x ps] eqn:El; [now elim Hcne|].
    split; [split; [reflexivity | exact Hm]|]. split; [discriminate|].
    split; [reflexivity|]. split; [reflexivity|].
    intros e q Hin. apply Hl. rewrite <- El. apply in_map_iff. exists (e, q). now split. }
  split; [apply P|]. split; [apply P|].
  rewrite (pending_steps fuel doc state finished c (element_hooks w) (fresh w)
             (with_preloads els (page w)) Hfuel Hc Hh ss (fun _ => false) w1 Hss P).
  reflexivity.
Qed.

End PreloadTheorem.

(** The preload link of /b.css is element 8. *)
Lemma preload_barrier_holds_witness :
  let w := task 5 (main (Sample.parse "swap")) (idle pageN) in
  let w1 := run (updateDOM (Sample.parse "swap") forward "B" None (Some "swap") 0) w in
  nothing_on_page [Sample.sheet "/b.css"] (page w) = true
  /\ head (document (page w1))
     = Elem "head" []
         [Sample.enabled; Sample.fallback "swap";
          Elem "link" [("rel", "preload"); ("as", "style"); ("href", "/b.css")] []]
  /\ body (document (page (steps 5 [ElementEvent 3 "load"] w1))) = Elem "body" [] []
  /\ body (document (page (steps 5 [ElementEvent 8 "error"] w1)))
     = body (Sample.docB "swap").
Proof.
  split; [reflexivity|].
  split; [|split].
  - refine (f_equal (fun p => head (document p))
              (proj1 (preload_barrier_holds (Sample.parse "swap") 5 forward "B" None
                        (Some "swap") 0 (task 5 (main (Sample.parse "swap")) (idle pageN))
                        [] _ _ _ _ _ _ _ _ _)));
      [reflexivity | reflexivity | intros x _; reflexivity | intros e n q []
      | reflexivity | discriminate | reflexivity | reflexivity | cbn; lia].
  - refine (f_equal (fun p => body (document p))
              (proj2 (proj2 (preload_barrier_holds (Sample.parse "swap") 5 forward "B" None
                        (Some "swap") 0 (task 5 (main (Sample.parse "swap")) (idle pageN))
                        [ElementEvent 3 "load"] _ _ _ _ _ _ _ _ _))));
      [reflexivity | reflexivity | intros x _; reflexivity | intros e n q []
      | reflexivity | discriminate | reflexivity | reflexivity | cbn; lia].
  - refine (f_equal (fun p => body (document p))
              (proj2 (proj2 (preload_barrier_holds (Sample.parse "swap") 5 forward "B" None
                        (Some "swap") 0 (task 5 (main (Sample.parse "swap")) (idle pageN))
                        [ElementEvent 8 "error"] _ _ _ _ _ _ _ _ _))));
      [reflexivity | reflexivity | intros x _; reflexivity | intros e n q []
      | reflexivity | discriminate | reflexivity | reflexivity | cbn; lia].
Defined.

(** ** The root element *)




(** ** Links that the script adds to the head *)

Lemma swap_after_append (doc : Document) (state : option State) (p : Page) (x : Node) :
  is_element x = true ->
  (forall doc_head, persistedHeadElement doc_head x = None) ->
  swap doc state
    (set_document (set_head (append_children [x] (head (document p))) (document p)) p)
  = swap doc state p.
Proof.
  intros Hx Hn. destruct p as [[ha h b] hi y v c i sv l].
  destruct h as [t a cs|s0]; [|reflexivity].
  assert (M : merge_head (Elem t a (cs ++ [x])) (head doc)
              = merge_head (Elem t a cs) (head doc)).
  { unfold merge_head. cbn [children_of]. rewrite swap_head_app.
    cbn [swap_head]. rewrite Hx, Hn.
    destruct (swap_head cs (head doc)) as [kept h']. cbn [fst snd with_children].
    now rewrite app_nil_r. }
  unfold swap.
  cbn [document set_document set_head head html_attrs body append_children with_children].
  rewrite M. reflexivity.
Qed.

(** X18: the links that the script itself appends to the live head do
    not outlive a swap.  A preload link of the preload loop and a
    prefetch link of [maybePrefetch] carry no persistence identifier and
    are no style sheet links, so the head loop of [swap] removes them:
    swapping after they were added gives the very page that swapping
    without them gives. *)
Theorem added_links_do_not_survive_swap (doc : Document) (state : option State)
  (els : list Node) (u : string) (p : Page) :
  swap doc state (with_preloads els p) = swap doc state p
  /\ swap doc state (maybePrefetch u p) = swap doc state p.
Proof.
  split.
  - revert p. induction els as [|el els IH]; intros p; [reflexivity|].
    cbn [with_preloads fold_left]. fold (with_preloads els (add_preload p el)).
    rewrite IH. unfold add_preload. apply swap_after_append; reflexivity.
  - unfold maybePrefetch. destruct (exists_in_doc _ (document p)); [reflexivity|].
    match goal with |- context [if ?c then p else _] => destruct c end; [reflexivity|].
    apply swap_after_append; reflexivity.
Qed.
